(** * SQL migration generator: a shallow embedding and its properties

    The development follows the layout of the generator:
    - [dialects/types.ts]      the dialect type catalog,
    - [dialects/formatter.ts]  the SQL text formatter,
    - [migration/schema-builder.ts]  table and pivot table construction,
    - [migration/generator.ts] validation, ordering and versioning.

    JavaScript strings are modelled as [string].  The numbers that the
    generator counts with or prints (versions, paddings, lengths) are
    integer-valued doubles, modelled by the integer they denote in [Z]:
    [version++] and [String(version)] are the operations of doubles on such
    values (module [Num] and [Str.ofZ]), so that they lose precision above
    2^53 and print large values in exponent notation as the code does.
    Plain objects used as dictionaries are association lists of their own
    entries in enumeration order (the order of [Object.entries]); [assoc]
    looks a key up among the own entries, [prototypeMembers] lists the
    names for which a plain object also answers with a member inherited
    from [Object.prototype], and [member] is the lookup that finds both.  The two [Set]s of the topological sort are
    [gset string]; a thrown [Error] is the [Throw] branch of a result type
    and a TypeError raised by the runtime its [TypeError] branch. *)

From Stdlib Require Import ZArith Ascii String DecimalString.
From Stdlib Require DecimalZ.
From stdpp Require Import base option list relations strings gmap sets.

Local Open Scope Z_scope.

Set Warnings "-clear-no-such-hyp".

(** ** Strings *)

Module Str.

(** Characters that cannot be written inside a string literal here. *)
Definition dquote : string := String "034"%char EmptyString.
Definition nl : string := String "010"%char EmptyString.

(** The decimal numeral of an integer. *)
Definition decimal (n : Z) : string := NilZero.string_of_int (Z.to_int n).

(** The number of digits of the decimal numeral of a positive integer. *)
Definition digitsOf (x : Z) : Z := Z.of_nat (String.length (decimal x)).

(** [v] reads back as the double [x] (an integer above 2^53): it lies
    between the midpoints to the two doubles next to [x], the midpoints
    included when the mantissa of [x] is even.  The bounds are held times
    four, as the lower midpoint of a power of two is a quarter of a unit
    away. *)
Definition readsBack (x v : Z) : bool :=
  let u := 2 ^ (Z.log2 x - 52) in
  let m := x / u in
  let lo := 4 * x - (if m =? 2 ^ 52 then u else 2 * u) in
  let hi := 4 * x + 2 * u in
  if Z.even m then (lo <=? 4 * v) && (4 * v <=? hi)
  else (lo <? 4 * v) && (4 * v <? hi).

(** The value with [k] significant digits that reads back as [x], the one
    nearer to [x] when there are two. *)
Definition candidate (x k : Z) : option Z :=
  let p := 10 ^ (digitsOf x - k) in
  let low := (x / p) * p in
  let high := low + p in
  match readsBack x low, readsBack x high with
  | true, true => Some (if x - low <=? high - x then low else high)
  | true, false => Some low
  | false, true => Some high
  | false, false => None
  end.

Fixpoint shortestFrom (x k : Z) (tries : nat) : Z :=
  match tries with
  | O => x
  | S tries' =>
      match candidate x k with
      | Some v => v
      | None => shortestFrom x (k + 1) tries'
      end
  end.

(** The value with the fewest significant digits that reads back as [x];
    seventeen digits always do. *)
Definition shortest (x : Z) : Z := shortestFrom x 1 17.

Fixpoint dropZeros (digits : string) : string :=
  match digits with
  | String "0" rest => dropZeros rest
  | _ => digits
  end.

Definition reversed (s : string) : string :=
  string_of_list_ascii (List.rev (list_ascii_of_string s)).

(** The digits of [v] without the zeros at its end. *)
Definition significant (v : Z) : string :=
  reversed (dropZeros (reversed (decimal v))).

(** [d.ddde+n] *)
Definition exponential (v : Z) : string :=
  match significant v with
  | String c EmptyString => String c EmptyString
  | String c rest => String c (String "." rest)
  | EmptyString => EmptyString
  end +:+ String "e" (String "+" (decimal (digitsOf v - 1))).

(** [String(x)] for a positive integer-valued double [x]: all the digits up
    to 2^53; above, the fewest digits that read back as [x], followed by
    zeros when there are at most 21 digits and in exponent notation
    otherwise. *)
Definition ofPos (x : Z) : string :=
  if x <=? 9007199254740992 then decimal x
  else
    let v := shortest x in
    if digitsOf v <=? 21 then decimal v else exponential v.

(** [String(n)] for an integer-valued double [n]. *)
Definition ofZ (n : Z) : string :=
  if n <? 0 then String "-" (ofPos (- n)) else ofPos n.

(** [s.startsWith(p)] *)
Definition startsWith (s p : string) : bool := String.prefix p s.

(** [s.endsWith(suffix)] *)
Definition endsWith (s suffix : string) : bool :=
  let n := String.length s in
  let m := String.length suffix in
  if (m <=? n)%nat
  then bool_decide (String.substring (n - m) m s = suffix)
  else false.

(** [s.includes(needle)] *)
Fixpoint includes (s needle : string) : bool :=
  String.prefix needle s ||
  match s with
  | EmptyString => false
  | String _ rest => includes rest needle
  end.

(** [list.join(sep)] *)
Definition join (sep : string) (l : list string) : string :=
  String.concat sep l.

(** [s.slice(0, -1)] *)
Definition dropLast (s : string) : string :=
  String.substring 0 (String.length s - 1) s.

(** The filler of [padStart]: the first [n] characters of the pad string
    repeated; [cur] is what is left of the current repetition. *)
Fixpoint fill (pad cur : string) (n : nat) : string :=
  match n with
  | O => EmptyString
  | S n' =>
      match cur with
      | String c rest => String c (fill pad rest n')
      | EmptyString =>
          match pad with
          | String c rest => String c (fill pad rest n')
          | EmptyString => EmptyString
          end
      end
  end.

(** [s.padStart(targetLength, padString)] *)
Definition padStart (s : string) (targetLength : Z) (padString : string)
  : string :=
  let len := Z.of_nat (String.length s) in
  if targetLength <=? len then s
  else fill padString padString (Z.to_nat (targetLength - len)) +:+ s.

Definition isUpper (c : ascii) : bool :=
  let n := nat_of_ascii c in (65 <=? n)%nat && (n <=? 90)%nat.

(** [letter.toLowerCase()] on [A-Z]. *)
Definition toLower (c : ascii) : ascii :=
  if isUpper c then ascii_of_nat (nat_of_ascii c + 32) else c.

(** [s.replace(/s$/, '')] *)
Definition stripTrailingS (s : string) : string :=
  if endsWith s "s" then dropLast s else s.

(** [s.replace(/'/g, "''")] *)
Fixpoint doubleQuotes (s : string) : string :=
  match s with
  | EmptyString => EmptyString
  | String c rest =>
      if bool_decide (c = "'"%char)
      then String "'"%char (String "'"%char (doubleQuotes rest))
      else String c (doubleQuotes rest)
  end.

End Str.

(** ** Numbers *)

Module Num.

(** The double nearest to the integer [z], the one with the even mantissa
    when [z] is half way between two: every integer up to 2^53 is a double,
    above that the doubles are [2 ^ (Z.log2 a - 52)] apart. *)
Definition round (z : Z) : Z :=
  let a := Z.abs z in
  if a <=? 9007199254740992 then z
  else
    let u := 2 ^ (Z.log2 a - 52) in
    let q := a / u in
    let r := a mod u in
    let q' :=
      if 2 * r <? u then q
      else if u <? 2 * r then q + 1
      else if Z.even q then q else q + 1 in
    Z.sgn z * (q' * u).

(** The value of [x] after [x++]. *)
Definition succ (x : Z) : Z := round (x + 1).

End Num.

(** Dictionaries: the own entry of [d] under [key], for an object whose
    entries are listed in enumeration order. *)
Fixpoint assoc {A : Type} (key : string) (d : list (string * A)) : option A :=
  match d with
  | [] => None
  | (k, v) :: rest => if decide (k = key) then Some v else assoc key rest
  end.

(** The members that every plain object inherits from [Object.prototype]:
    for these keys [d[key]] is defined (a function, or the prototype itself
    for [__proto__]) even when [d] has no entry of its own. *)
Definition prototypeMembers : list string :=
  [ "constructor"; "__defineGetter__"; "__defineSetter__"; "hasOwnProperty";
    "__lookupGetter__"; "__lookupSetter__"; "isPrototypeOf";
    "propertyIsEnumerable"; "toString"; "valueOf"; "__proto__";
    "toLocaleString" ].

(** What a lookup [d[key]] finds in a plain object: the entry of [d] itself,
    or the member that [d] inherits from [Object.prototype] under [key]. *)
Inductive Member (A : Type) :=
| Own (value : A)
| Inherited (key : string).
Arguments Own {A} value.
Arguments Inherited {A} key.

(** [d[key]]; [None] when it is undefined. *)
Definition member {A : Type} (key : string) (d : list (string * A))
  : option (Member A) :=
  match assoc key d with
  | Some value => Some (Own value)
  | None =>
      if bool_decide (key ∈ prototypeMembers) then Some (Inherited key)
      else None
  end.

(** [a ?? b] *)
Definition orElse {A : Type} (o : option A) (d : A) : A :=
  match o with Some a => a | None => d end.

(** Truthiness of an optional string: defined and not empty. *)
Definition truthy (o : option string) : bool :=
  match o with
  | Some (String _ _) => true
  | _ => false
  end.

(** ** dialects/types.ts *)

Inductive SqlDialect := mysql | postgresql | sqlite.

Global Instance SqlDialect_eq_dec : EqDecision SqlDialect.
Proof. solve_decision. Defined.

(** The dialect as it prints in a template string. *)
Definition dialectName (d : SqlDialect) : string :=
  match d with
  | mysql => "mysql"
  | postgresql => "postgresql"
  | sqlite => "sqlite"
  end.

Record TypeMapping := {
  tm_type : string;
  tm_hasLength : bool;
  tm_defaultLength : option Z;
  tm_hasPrecision : bool;
}.

Definition plainT (t : string) : TypeMapping :=
  {| tm_type := t; tm_hasLength := false; tm_defaultLength := None;
     tm_hasPrecision := false |}.
Definition lengthT (t : string) (n : Z) : TypeMapping :=
  {| tm_type := t; tm_hasLength := true; tm_defaultLength := Some n;
     tm_hasPrecision := false |}.
Definition precisionT (t : string) : TypeMapping :=
  {| tm_type := t; tm_hasLength := false; tm_defaultLength := None;
     tm_hasPrecision := true |}.

Definition MYSQL_TYPES : list (string * TypeMapping) :=
  [ ("String", lengthT "VARCHAR" 255);
    ("Int", plainT "INT");
    ("BigInt", plainT "BIGINT");
    ("Float", plainT "DOUBLE");
    ("Decimal", precisionT "DECIMAL");
    ("Boolean", plainT "TINYINT(1)");
    ("Text", plainT "TEXT");
    ("LongText", plainT "LONGTEXT");
    ("Date", plainT "DATE");
    ("Time", plainT "TIME");
    ("Timestamp", plainT "TIMESTAMP");
    ("Json", plainT "JSON");
    ("Email", lengthT "VARCHAR" 255);
    ("Password", lengthT "VARCHAR" 255);
    ("File", lengthT "VARCHAR" 255);
    ("MultiFile", plainT "JSON");
    ("Uuid", plainT "CHAR(36)");
    ("Select", lengthT "VARCHAR" 255);
    ("Lookup", plainT "BIGINT UNSIGNED");
    ("Point", plainT "POINT");
    ("Coordinates", plainT "DECIMAL(10, 8)") ].

Definition POSTGRESQL_TYPES : list (string * TypeMapping) :=
  [ ("String", lengthT "VARCHAR" 255);
    ("Int", plainT "INTEGER");
    ("BigInt", plainT "BIGINT");
    ("Float", plainT "DOUBLE PRECISION");
    ("Decimal", precisionT "DECIMAL");
    ("Boolean", plainT "BOOLEAN");
    ("Text", plainT "TEXT");
    ("LongText", plainT "TEXT");
    ("Date", plainT "DATE");
    ("Time", plainT "TIME");
    ("Timestamp", plainT "TIMESTAMP");
    ("Json", plainT "JSONB");
    ("Email", lengthT "VARCHAR" 255);
    ("Password", lengthT "VARCHAR" 255);
    ("File", lengthT "VARCHAR" 255);
    ("MultiFile", plainT "JSONB");
    ("Uuid", plainT "UUID");
    ("Select", lengthT "VARCHAR" 255);
    ("Lookup", plainT "BIGINT");
    ("Point", plainT "geometry(Point, 4326)");
    ("Coordinates", plainT "DECIMAL(10, 8)") ].

Definition SQLITE_TYPES : list (string * TypeMapping) :=
  [ ("String", plainT "TEXT");
    ("Int", plainT "INTEGER");
    ("BigInt", plainT "INTEGER");
    ("Float", plainT "REAL");
    ("Decimal", plainT "REAL");
    ("Boolean", plainT "INTEGER");
    ("Text", plainT "TEXT");
    ("LongText", plainT "TEXT");
    ("Date", plainT "TEXT");
    ("Time", plainT "TEXT");
    ("Timestamp", plainT "TEXT");
    ("Json", plainT "TEXT");
    ("Email", plainT "TEXT");
    ("Password", plainT "TEXT");
    ("File", plainT "TEXT");
    ("MultiFile", plainT "TEXT");
    ("Uuid", plainT "TEXT");
    ("Select", plainT "TEXT");
    ("Lookup", plainT "INTEGER");
    ("Point", plainT "TEXT");
    ("Coordinates", plainT "REAL") ].

Definition DIALECT_TYPES (d : SqlDialect) : list (string * TypeMapping) :=
  match d with
  | mysql => MYSQL_TYPES
  | postgresql => POSTGRESQL_TYPES
  | sqlite => SQLITE_TYPES
  end.

(** A number is truthy when it is not zero. *)
Definition truthyNum (o : option Z) : bool :=
  match o with
  | Some n => negb (n =? 0)
  | None => false
  end.

(** A column type that is [undefined], as [parts.join(' ')] prints it when
    the column is formatted: nothing. *)
Definition undefinedType : string := EmptyString.

(** Under a type named like a member of [Object.prototype] the lookup in
    the catalog finds that member, which has none of the fields of a
    mapping: the result is its [type], which is undefined. *)
Definition getSqlType (omnifyType : string) (dialect : SqlDialect)
    (length precision scale : option Z) : string :=
  match member omnifyType (DIALECT_TYPES dialect) with
  | None => if decide (dialect = sqlite) then "TEXT" else "VARCHAR(255)"
  | Some (Inherited _) => undefinedType
  | Some (Own mapping) =>
      let type := tm_type mapping in
      let type :=
        if tm_hasLength mapping
        then
          let length := orElse length (orElse (tm_defaultLength mapping) 255) in
          type +:+ "(" +:+ Str.ofZ length +:+ ")"
        else type in
      if tm_hasPrecision mapping && truthyNum precision
      then
        let scale := orElse scale 2 in
        type +:+ "(" +:+ Str.ofZ (orElse precision 0) +:+ ", "
             +:+ Str.ofZ scale +:+ ")"
      else type
  end.

Inductive IdType := Int | BigInt | Uuid | IdString.

Global Instance IdType_eq_dec : EqDecision IdType.
Proof. solve_decision. Defined.

Definition getPrimaryKeyType (idType : IdType) (dialect : SqlDialect)
  : string * bool :=
  match dialect with
  | mysql =>
      match idType with
      | Int => ("INT UNSIGNED", true)
      | BigInt => ("BIGINT UNSIGNED", true)
      | Uuid => ("CHAR(36)", false)
      | IdString => ("VARCHAR(255)", false)
      end
  | postgresql =>
      match idType with
      | Int => ("SERIAL", false)
      | BigInt => ("BIGSERIAL", false)
      | Uuid => ("UUID", false)
      | IdString => ("VARCHAR(255)", false)
      end
  | sqlite =>
      match idType with
      | Int | BigInt => ("INTEGER", true)
      | Uuid | IdString => ("TEXT", false)
      end
  end.

Definition getForeignKeyType (referencedIdType : IdType)
    (dialect : SqlDialect) : string :=
  match dialect with
  | mysql =>
      match referencedIdType with
      | Int => "INT UNSIGNED"
      | BigInt => "BIGINT UNSIGNED"
      | Uuid => "CHAR(36)"
      | IdString => "VARCHAR(255)"
      end
  | postgresql =>
      match referencedIdType with
      | Int => "INTEGER"
      | BigInt => "BIGINT"
      | Uuid => "UUID"
      | IdString => "VARCHAR(255)"
      end
  | sqlite =>
      match referencedIdType with
      | Int | BigInt => "INTEGER"
      | Uuid | IdString => "TEXT"
      end
  end.

Record EnumInfo := {
  ei_type : string;
  ei_preStatement : option string;
}.

(** [values.map(v => `'${v}'`).join(', ')] *)
Definition quotedValues (values : list string) : string :=
  Str.join ", " (map (fun v => "'" +:+ v +:+ "'") values).

Definition getEnumType (values : list string) (dialect : SqlDialect)
    (enumName : option string) : EnumInfo :=
  match dialect with
  | mysql =>
      {| ei_type := "ENUM(" +:+ quotedValues values +:+ ")";
         ei_preStatement := None |}
  | postgresql =>
      let typeName := orElse enumName "enum_type" in
      {| ei_type := typeName;
         ei_preStatement :=
           Some ("CREATE TYPE " +:+ typeName +:+ " AS ENUM ("
                 +:+ quotedValues values +:+ ");") |}
  | sqlite => {| ei_type := "TEXT"; ei_preStatement := None |}
  end.

(** ** types.ts: the output data model *)

Record SqlColumn := {
  col_name : string;
  col_type : string;
  col_nullable : bool;
  col_defaultValue : option string;
  col_primaryKey : bool;
  col_autoIncrement : bool;
  col_unique : bool;
  col_unsigned : bool;
  col_comment : option string;
}.

Record SqlForeignKey := {
  fk_name : string;
  fk_columns : list string;
  fk_referencesTable : string;
  fk_referencesColumns : list string;
  fk_onDelete : string;
  fk_onUpdate : string;
}.

Record SqlIndex := {
  idx_name : string;
  idx_columns : list string;
  idx_unique : bool;
  idx_type : option string;
}.

Record SqlTable := {
  tbl_name : string;
  tbl_columns : list SqlColumn;
  tbl_foreignKeys : list SqlForeignKey;
  tbl_indexes : list SqlIndex;
  tbl_comment : option string;
}.

Inductive MigrationType := create | alter | drop | pivot.

Global Instance MigrationType_eq_dec : EqDecision MigrationType.
Proof. solve_decision. Defined.

Record SqlMigration := {
  mig_version : Z;
  mig_name : string;
  mig_fileName : string;
  mig_content : string;
  mig_tables : list string;
  mig_type : MigrationType;
}.

Record SqlGeneratorOptions := {
  o_dialect : option SqlDialect;
  o_ifNotExists : option bool;
  o_generateDown : option bool;
  o_startVersion : option Z;
  o_versionPadding : option Z;
  (** the [version] that the single-artifact constructors also accept *)
  o_version : option Z;
}.

Record ResolvedSqlOptions := {
  dialect : SqlDialect;
  ifNotExists : bool;
  generateDown : bool;
  startVersion : Z;
  versionPadding : Z;
}.

(** ** dialects/formatter.ts *)

Definition quoteIdentifier (name : string) (dialect : SqlDialect) : string :=
  match dialect with
  | mysql => "`" +:+ name +:+ "`"
  | postgresql => Str.dquote +:+ name +:+ Str.dquote
  | sqlite => Str.dquote +:+ name +:+ Str.dquote
  end.

Definition quoteString (value : string) : string :=
  "'" +:+ Str.doubleQuotes value +:+ "'".

Definition formatColumn (column : SqlColumn) (dialect : SqlDialect) : string :=
  let parts := [quoteIdentifier (col_name column) dialect; col_type column] in
  let parts :=
    if bool_decide (dialect = mysql) && col_unsigned column
       && negb (Str.includes (col_type column) "UNSIGNED")
    then parts ++ ["UNSIGNED"] else parts in
  let parts :=
    if negb (col_nullable column) && negb (col_primaryKey column)
    then parts ++ ["NOT NULL"]
    else if col_nullable column then parts ++ ["NULL"] else parts in
  let parts :=
    if col_autoIncrement column
    then match dialect with
         | mysql => parts ++ ["AUTO_INCREMENT"]
         | sqlite => parts
         | postgresql => parts
         end
    else parts in
  let parts :=
    if col_primaryKey column
    then
      let parts := parts ++ ["PRIMARY KEY"] in
      if bool_decide (dialect = sqlite) && col_autoIncrement column
      then parts ++ ["AUTOINCREMENT"] else parts
    else parts in
  let parts :=
    if col_unique column && negb (col_primaryKey column)
    then parts ++ ["UNIQUE"] else parts in
  let parts :=
    match col_defaultValue column with
    | Some d => parts ++ ["DEFAULT " +:+ d]
    | None => parts
    end in
  let parts :=
    if truthy (col_comment column) && bool_decide (dialect = mysql)
    then parts ++ ["COMMENT " +:+ quoteString (orElse (col_comment column) EmptyString)]
    else parts in
  Str.join " " parts.

Definition quotedList (cols : list string) (dialect : SqlDialect) : string :=
  Str.join ", " (map (fun c => quoteIdentifier c dialect) cols).

Definition formatForeignKey (fk : SqlForeignKey) (dialect : SqlDialect)
  : string :=
  let localCols := quotedList (fk_columns fk) dialect in
  let refCols := quotedList (fk_referencesColumns fk) dialect in
  let refTable := quoteIdentifier (fk_referencesTable fk) dialect in
  let sql := "CONSTRAINT " +:+ quoteIdentifier (fk_name fk) dialect +:+ " " in
  let sql := sql +:+ "FOREIGN KEY (" +:+ localCols +:+ ") " in
  let sql := sql +:+ "REFERENCES " +:+ refTable +:+ " (" +:+ refCols +:+ ")" in
  let sql :=
    if truthy (Some (fk_onDelete fk))
       && negb (bool_decide (fk_onDelete fk = "NO ACTION"))
    then sql +:+ " ON DELETE " +:+ fk_onDelete fk else sql in
  let sql :=
    if truthy (Some (fk_onUpdate fk))
       && negb (bool_decide (fk_onUpdate fk = "NO ACTION"))
    then sql +:+ " ON UPDATE " +:+ fk_onUpdate fk else sql in
  sql.

Definition formatIndex (index : SqlIndex) (tableName : string)
    (dialect : SqlDialect) : string :=
  let cols := quotedList (idx_columns index) dialect in
  let table := quoteIdentifier tableName dialect in
  let name := quoteIdentifier (idx_name index) dialect in
  if bool_decide (idx_type index = Some "fulltext") then
    match dialect with
    | mysql =>
        "CREATE FULLTEXT INDEX " +:+ name +:+ " ON " +:+ table
        +:+ " (" +:+ cols +:+ ");"
    | postgresql =>
        let tsvectorCols :=
          Str.join " || "
            (map (fun c => "to_tsvector('english', "
                           +:+ quoteIdentifier c dialect +:+ ")")
                 (idx_columns index)) in
        "CREATE INDEX " +:+ name +:+ " ON " +:+ table
        +:+ " USING GIN (" +:+ tsvectorCols +:+ ");"
    | sqlite =>
        "CREATE INDEX " +:+ name +:+ " ON " +:+ table
        +:+ " (" +:+ cols +:+ ");"
    end
  else if bool_decide (idx_type index = Some "spatial") then
    match dialect with
    | mysql =>
        "CREATE SPATIAL INDEX " +:+ name +:+ " ON " +:+ table
        +:+ " (" +:+ cols +:+ ");"
    | postgresql =>
        "CREATE INDEX " +:+ name +:+ " ON " +:+ table
        +:+ " USING GIST (" +:+ cols +:+ ");"
    | sqlite =>
        "CREATE INDEX " +:+ name +:+ " ON " +:+ table
        +:+ " (" +:+ cols +:+ ");"
    end
  else if bool_decide (idx_type index = Some "gin")
          && bool_decide (dialect = postgresql) then
    "CREATE INDEX " +:+ name +:+ " ON " +:+ table
    +:+ " USING GIN (" +:+ cols +:+ ");"
  else if bool_decide (idx_type index = Some "gist")
          && bool_decide (dialect = postgresql) then
    "CREATE INDEX " +:+ name +:+ " ON " +:+ table
    +:+ " USING GIST (" +:+ cols +:+ ");"
  else if bool_decide (idx_type index = Some "hash") then
    match dialect with
    | mysql =>
        "CREATE INDEX " +:+ name +:+ " ON " +:+ table
        +:+ " (" +:+ cols +:+ ") USING HASH;"
    | postgresql =>
        "CREATE INDEX " +:+ name +:+ " ON " +:+ table
        +:+ " USING HASH (" +:+ cols +:+ ");"
    | sqlite =>
        "CREATE INDEX " +:+ name +:+ " ON " +:+ table
        +:+ " (" +:+ cols +:+ ");"
    end
  else
    let indexType := if idx_unique index then "UNIQUE INDEX" else "INDEX" in
    "CREATE " +:+ indexType +:+ " " +:+ name +:+ " ON " +:+ table
    +:+ " (" +:+ cols +:+ ");".

(** [options?.ifNotExists] is passed as a boolean; the callers of this
    repository always supply it. *)
Definition formatCreateTable (table : SqlTable) (dialect : SqlDialect)
    (optIfNotExists : bool) : string :=
  let tableName := quoteIdentifier (tbl_name table) dialect in
  let ifNotExists :=
    if optIfNotExists then "IF NOT EXISTS " else EmptyString in
  let lines :=
    map (fun column => "  " +:+ formatColumn column dialect)
        (tbl_columns table)
    ++ map (fun fk => "  " +:+ formatForeignKey fk dialect)
        (tbl_foreignKeys table) in
  let sql := "CREATE TABLE " +:+ ifNotExists +:+ tableName +:+ " (" +:+ Str.nl in
  let sql := sql +:+ Str.join ("," +:+ Str.nl) lines in
  let sql := sql +:+ Str.nl +:+ ")" in
  let sql :=
    if bool_decide (dialect = mysql)
    then sql +:+ " ENGINE=InnoDB DEFAULT CHARSET=utf8mb4 COLLATE=utf8mb4_unicode_ci"
    else sql in
  let sql := sql +:+ ";" in
  if truthy (tbl_comment table) && bool_decide (dialect = postgresql)
  then sql +:+ Str.nl +:+ Str.nl +:+ "COMMENT ON TABLE " +:+ tableName +:+ " IS "
           +:+ quoteString (orElse (tbl_comment table) EmptyString) +:+ ";"
  else sql.

Definition formatDropTable (tableName : string) (dialect : SqlDialect)
    (optIfExists optCascade : bool) : string :=
  let table := quoteIdentifier tableName dialect in
  let ifExists := if optIfExists then "IF EXISTS " else EmptyString in
  let cascade :=
    if optCascade && bool_decide (dialect = postgresql)
    then " CASCADE" else EmptyString in
  "DROP TABLE " +:+ ifExists +:+ table +:+ cascade +:+ ";".

Definition formatIndexes (table : SqlTable) (dialect : SqlDialect)
  : list string :=
  map (fun index => formatIndex index (tbl_name table) dialect)
      (tbl_indexes table).

Definition formatColumnComments (table : SqlTable) (dialect : SqlDialect)
  : list string :=
  if negb (bool_decide (dialect = postgresql)) then []
  else
    let tableName := quoteIdentifier (tbl_name table) dialect in
    flat_map
      (fun column =>
         if truthy (col_comment column)
         then
           let colName := quoteIdentifier (col_name column) dialect in
           ["COMMENT ON COLUMN " +:+ tableName +:+ "." +:+ colName +:+ " IS "
            +:+ quoteString (orElse (col_comment column) EmptyString) +:+ ";"]
         else [])
      (tbl_columns table).

(** ** The input data model (from [@famgia/omnify-types], as the generator
    reads it)

    A property is the duck-typed object the builder casts it to: a [type]
    tag and the optional fields the code looks at. *)

Inductive DefaultValue :=
| DString (s : string)
| DBool (b : bool)
| DOther (rendered : string).  (** any other value, by its [String(v)] *)

Definition defaultToString (d : DefaultValue) : string :=
  match d with
  | DString s => s
  | DBool b => if b then "true" else "false"
  | DOther r => r
  end.

Inductive EnumSpec :=
| EnumRef (name : string)
| EnumValues (values : list string).

Record PropertyDefinition := {
  p_type : string;
  p_nullable : option bool;
  p_unique : option bool;
  p_default : option DefaultValue;
  p_displayName : option string;
  p_length : option Z;
  p_precision : option Z;
  p_scale : option Z;
  p_enum : option EnumSpec;
  p_options : option (list string);
  p_relation : option string;
  p_target : option string;
  p_targets : option (list string);
  p_onDelete : option string;
  p_onUpdate : option string;
  p_joinTable : option string;
}.

Record IndexDef := {
  ix_name : option string;
  ix_columns : list string;
  ix_unique : option bool;
  ix_type : option string;
}.

(** [options.unique]: one flat column list, or a list of column groups. *)
Inductive UniqueSpec :=
| UniqueFlat (columns : list string)
| UniqueGroups (groups : list (list string)).

Record SchemaOptions := {
  so_id : option bool;
  so_idType : option IdType;
  so_timestamps : option bool;
  so_softDelete : option bool;
  so_indexes : option (list IndexDef);
  so_unique : option UniqueSpec;
}.

Inductive SchemaKind := KObject | KEnum.

Global Instance SchemaKind_eq_dec : EqDecision SchemaKind.
Proof. solve_decision. Defined.

(** [sch_displayName] is the schema's display name as
    [resolveLocalizedString] of [@famgia/omnify-types] resolves it. *)
Record LoadedSchema := {
  sch_name : string;
  sch_kind : option SchemaKind;
  sch_properties : option (list (string * PropertyDefinition));
  sch_options : option SchemaOptions;
  sch_displayName : option string;
}.

Definition SchemaCollection := list (string * LoadedSchema).

(** [Object.entries(schema.properties)] behind [if (schema.properties)] *)
Definition propertiesOf (schema : LoadedSchema)
  : list (string * PropertyDefinition) :=
  orElse (sch_properties schema) [].

(** [schema?.options?.idType], where [schema] is what a lookup by name
    found: a member inherited from [Object.prototype] has no [options]. *)
Definition optIdType (schema : option (Member LoadedSchema)) : option IdType :=
  match schema with
  | Some (Own s) =>
      match sch_options s with
      | Some o => so_idType o
      | None => None
      end
  | Some (Inherited _) => None
  | None => None
  end.

(** ** migration/schema-builder.ts *)

Fixpoint snakeLetters (s : string) : string :=
  match s with
  | EmptyString => EmptyString
  | String c rest =>
      if Str.isUpper c
      then String "_"%char (String (Str.toLower c) (snakeLetters rest))
      else String c (snakeLetters rest)
  end.

Definition toSnakeCase (str : string) : string :=
  match snakeLetters str with
  | String "_"%char rest => rest
  | s => s
  end.

Definition toTableName (schemaName : string) : string :=
  let snake := toSnakeCase schemaName in
  if Str.endsWith snake "y"
     && negb (existsb (fun v => Str.endsWith snake v) ["ay"; "ey"; "oy"; "uy"])
  then Str.dropLast snake +:+ "ies"
  else if Str.endsWith snake "s" || Str.endsWith snake "x"
          || Str.endsWith snake "ch" || Str.endsWith snake "sh"
  then snake +:+ "es"
  else snake +:+ "s".

Definition toColumnName (propertyName : string) : string :=
  toSnakeCase propertyName.

Definition generatePrimaryKey (idType : IdType) (dialect : SqlDialect)
  : SqlColumn :=
  let pkInfo := getPrimaryKeyType idType dialect in
  {| col_name := "id";
     col_type := fst pkInfo;
     col_nullable := false;
     col_defaultValue := None;
     col_primaryKey := true;
     col_autoIncrement := snd pkInfo;
     col_unique := false;
     col_unsigned := false;
     col_comment := None |}.

(** A column with every flag off, as most columns of the builder are. *)
Definition plainColumn (name type : string) (nullable : bool) : SqlColumn :=
  {| col_name := name;
     col_type := type;
     col_nullable := nullable;
     col_defaultValue := None;
     col_primaryKey := false;
     col_autoIncrement := false;
     col_unique := false;
     col_unsigned := false;
     col_comment := None |}.

Definition timestampType (dialect : SqlDialect) : string :=
  if decide (dialect = sqlite) then "TEXT" else "TIMESTAMP".

Definition generateTimestampColumns (dialect : SqlDialect) : list SqlColumn :=
  [ plainColumn "created_at" (timestampType dialect) true;
    plainColumn "updated_at" (timestampType dialect) true ].

Definition generateSoftDeleteColumn (dialect : SqlDialect) : SqlColumn :=
  plainColumn "deleted_at" (timestampType dialect) true.

Definition generateCoordinatesColumns (name : string)
    (property : PropertyDefinition) (dialect : SqlDialect) : list SqlColumn :=
  let baseName := toColumnName name in
  let nullable := orElse (p_nullable property) false in
  let latType := if decide (dialect = sqlite) then "REAL" else "DECIMAL(10, 8)" in
  let lonType := if decide (dialect = sqlite) then "REAL" else "DECIMAL(11, 8)" in
  [ {| col_name := baseName +:+ "_latitude";
       col_type := latType;
       col_nullable := nullable;
       col_defaultValue := None;
       col_primaryKey := false;
       col_autoIncrement := false;
       col_unique := false;
       col_unsigned := false;
       col_comment := Some ("Latitude for " +:+ name) |};
    {| col_name := baseName +:+ "_longitude";
       col_type := lonType;
       col_nullable := nullable;
       col_defaultValue := None;
       col_primaryKey := false;
       col_autoIncrement := false;
       col_unique := false;
       col_unsigned := false;
       col_comment := Some ("Longitude for " +:+ name) |} ].

(** The column of an Enum or Select property, whose type is [enumInfo.type]. *)
Definition enumColumn (columnName : string) (property : PropertyDefinition)
    (enumInfo : EnumInfo) : SqlColumn :=
  {| col_name := columnName;
     col_type := ei_type enumInfo;
     col_nullable := orElse (p_nullable property) false;
     col_defaultValue :=
       match p_default property with
       | Some d => Some ("'" +:+ defaultToString d +:+ "'")
       | None => None
       end;
     col_primaryKey := false;
     col_autoIncrement := false;
     col_unique := orElse (p_unique property) false;
     col_unsigned := false;
     col_comment := p_displayName property |}.

Definition isEnumValues (e : option EnumSpec) : option (list string) :=
  match e with
  | Some (EnumValues vs) => Some vs
  | _ => None
  end.

Definition standardColumn (columnName : string) (property : PropertyDefinition)
    (dialect : SqlDialect) : SqlColumn :=
  let sqlType :=
    getSqlType (p_type property) dialect
      (p_length property) (p_precision property) (p_scale property) in
  let defaultValue :=
    match p_default property with
    | None => None
    | Some (DString s) => Some ("'" +:+ s +:+ "'")
    | Some (DBool b) =>
        Some (if decide (dialect = postgresql)
              then (if b then "TRUE" else "FALSE")
              else (if b then "1" else "0"))
    | Some (DOther r) => Some r
    end in
  {| col_name := columnName;
     col_type := sqlType;
     col_nullable := orElse (p_nullable property) false;
     col_defaultValue := defaultValue;
     col_primaryKey := false;
     col_autoIncrement := false;
     col_unique := orElse (p_unique property) false;
     col_unsigned := false;
     col_comment := p_displayName property |}.

Definition propertyToColumn (name : string) (property : PropertyDefinition)
    (dialect : SqlDialect) (_allSchemas : SchemaCollection)
  : option SqlColumn :=
  if decide (p_type property = "Association") then None
  else if decide (p_type property = "Coordinates") then None
  else
    let columnName := toColumnName name in
    match (if decide (p_type property = "Enum")
           then isEnumValues (p_enum property) else None) with
    | Some values =>
        Some (enumColumn columnName property
                (getEnumType values dialect (Some (columnName +:+ "_enum"))))
    | None =>
        match (if decide (p_type property = "Select")
               then p_options property else None) with
        | Some options =>
            Some (enumColumn columnName property
                    (getEnumType options dialect (Some (columnName +:+ "_enum"))))
        | None => Some (standardColumn columnName property dialect)
        end
    end.

(** [['Int', 'BigInt'].includes(idType)] *)
Definition isIntegerId (idType : IdType) : bool :=
  match idType with
  | Int | BigInt => true
  | _ => false
  end.

(** [['ManyToOne', 'OneToOne'].includes(relation ?? '')] *)
Definition isOwningRelation (relation : option string) : bool :=
  let r := orElse relation EmptyString in
  bool_decide (r = "ManyToOne") || bool_decide (r = "OneToOne").

Definition generateForeignKey (name : string) (property : PropertyDefinition)
    (schema : LoadedSchema) (dialect : SqlDialect)
    (allSchemas : SchemaCollection) : option (SqlColumn * SqlForeignKey) :=
  if negb (bool_decide (p_type property = "Association")) then None
  else if negb (isOwningRelation (p_relation property)) then None
  else if negb (truthy (p_target property)) then None
  else
    let targetName := orElse (p_target property) EmptyString in
    let targetSchema := member targetName allSchemas in
    let targetIdType := orElse (optIdType targetSchema) BigInt in
    let columnName := toColumnName name +:+ "_id" in
    let fkType := getForeignKeyType targetIdType dialect in
    let constraintName :=
      "fk_" +:+ toTableName (sch_name schema) +:+ "_" +:+ columnName in
    let column :=
      {| col_name := columnName;
         col_type := fkType;
         col_nullable := orElse (p_nullable property) false;
         col_defaultValue := None;
         col_primaryKey := false;
         col_autoIncrement := false;
         col_unique := false;
         col_unsigned := bool_decide (dialect = mysql) && isIntegerId targetIdType;
         col_comment := None |} in
    let foreignKey :=
      {| fk_name := constraintName;
         fk_columns := [columnName];
         fk_referencesTable := toTableName targetName;
         fk_referencesColumns := ["id"];
         fk_onDelete := orElse (p_onDelete property) "CASCADE";
         fk_onUpdate := orElse (p_onUpdate property) "CASCADE" |} in
    Some (column, foreignKey).

(** The type of a polymorphic id column. *)
Definition morphIdTypeOf (useUuid : bool) (dialect : SqlDialect) : string :=
  if useUuid
  then match dialect with
       | mysql => "CHAR(36)" | postgresql => "UUID" | sqlite => "TEXT"
       end
  else match dialect with
       | mysql => "BIGINT UNSIGNED" | postgresql => "BIGINT" | sqlite => "INTEGER"
       end.

(** The loop that sets [useUuid]: some listed schema has [idType === 'Uuid']. *)
Definition anyUuid (names : list string) (allSchemas : SchemaCollection)
  : bool :=
  existsb
    (fun targetName =>
       bool_decide (optIdType (member targetName allSchemas) = Some Uuid))
    names.

Definition generatePolymorphicColumns (name : string)
    (property : PropertyDefinition) (dialect : SqlDialect)
    (allSchemas : SchemaCollection) : option (list SqlColumn * SqlIndex) :=
  if negb (bool_decide (p_type property = "Association")) then None
  else
    match p_targets property with
    | None => None
    | Some targets =>
        if negb (bool_decide (p_relation property = Some "MorphTo"))
           || bool_decide (targets = [])
        then None
        else
          let baseName := toColumnName name in
          let useUuid := anyUuid targets allSchemas in
          let enumInfo :=
            getEnumType targets dialect (Some (baseName +:+ "_type_enum")) in
          let typeColumn :=
            {| col_name := baseName +:+ "_type";
               col_type := ei_type enumInfo;
               col_nullable := true;
               col_defaultValue := None;
               col_primaryKey := false;
               col_autoIncrement := false;
               col_unique := false;
               col_unsigned := false;
               col_comment := None |} in
          let idType := morphIdTypeOf useUuid dialect in
          let idColumn :=
            {| col_name := baseName +:+ "_id";
               col_type := idType;
               col_nullable := true;
               col_defaultValue := None;
               col_primaryKey := false;
               col_autoIncrement := false;
               col_unique := false;
               col_unsigned := bool_decide (dialect = mysql) && negb useUuid;
               col_comment := None |} in
          let index :=
            {| idx_name := "idx_" +:+ baseName +:+ "_type_id";
               idx_columns := [baseName +:+ "_type"; baseName +:+ "_id"];
               idx_unique := false;
               idx_type := None |} in
          Some ([typeColumn; idColumn], index)
    end.

(** [schema.options?.f] *)
Definition optionOf {A : Type} (schema : LoadedSchema)
    (f : SchemaOptions -> option A) : option A :=
  match sch_options schema with
  | Some o => f o
  | None => None
  end.

(** [found.options?.f] for what a lookup [allSchemas[name]] found: a member
    inherited from [Object.prototype] has no [options]. *)
Definition foundOption {A : Type} (found : Member LoadedSchema)
    (f : SchemaOptions -> option A) : option A :=
  match found with
  | Own schema => optionOf schema f
  | Inherited _ => None
  end.

(** [Object.entries(found.properties)] behind [if (found.properties)]: an
    inherited member has no [properties]. *)
Definition foundProperties (found : Member LoadedSchema)
  : list (string * PropertyDefinition) :=
  match found with
  | Own schema => propertiesOf schema
  | Inherited _ => []
  end.

(** The [name] of the function that [Object.prototype] holds under [key]. *)
Definition functionName (key : string) : string :=
  if decide (key = "constructor") then "Object" else key.

(** What the generator reads of an object that the sort has listed: a
    schema as it is; of an inherited function its [name] and nothing else.
    The prototype itself, found under [__proto__], has no [name]. *)
Definition schemaOf (found : Member LoadedSchema) : option LoadedSchema :=
  match found with
  | Own schema => Some schema
  | Inherited key =>
      if decide (key = "__proto__") then None
      else Some {| sch_name := functionName key; sch_kind := None;
                   sch_properties := None; sch_options := None;
                   sch_displayName := None |}
  end.

(** The three arrays that [schemaToTable] fills. *)
Definition TableParts : Type :=
  list SqlColumn * list SqlForeignKey * list SqlIndex.

(** One round of the loop over the properties in [schemaToTable]. *)
Definition addProperty (schema : LoadedSchema) (allSchemas : SchemaCollection)
    (dialect : SqlDialect) (acc : TableParts)
    (entry : string * PropertyDefinition) : TableParts :=
  let '(columns, foreignKeys, indexes) := acc in
  let '(propName, property) := entry in
  match propertyToColumn propName property dialect allSchemas with
  | Some column =>
      (columns ++ [column], foreignKeys,
       if col_unique column
       then indexes ++
            [{| idx_name := "idx_" +:+ toTableName (sch_name schema) +:+ "_"
                            +:+ col_name column +:+ "_unique";
                idx_columns := [col_name column];
                idx_unique := true;
                idx_type := None |}]
       else indexes)
  | None =>
      match generateForeignKey propName property schema dialect allSchemas with
      | Some (column, foreignKey) =>
          (columns ++ [column], foreignKeys ++ [foreignKey],
           indexes ++
           [{| idx_name := "idx_" +:+ toTableName (sch_name schema) +:+ "_"
                           +:+ col_name column;
               idx_columns := [col_name column];
               idx_unique := false;
               idx_type := None |}])
      | None =>
          match generatePolymorphicColumns propName property dialect allSchemas with
          | Some (morphColumns, morphIndex) =>
              (columns ++ morphColumns, foreignKeys, indexes ++ [morphIndex])
          | None =>
              if decide (p_type property = "Coordinates")
              then (columns ++ generateCoordinatesColumns propName property dialect,
                    foreignKeys, indexes)
              else acc
          end
      end
  end.

Definition customIndex (schema : LoadedSchema) (indexDef : IndexDef)
  : SqlIndex :=
  let indexName :=
    orElse (ix_name indexDef)
      ("idx_" +:+ toTableName (sch_name schema) +:+ "_"
       +:+ Str.join "_" (map toColumnName (ix_columns indexDef))) in
  {| idx_name := indexName;
     idx_columns := map toColumnName (ix_columns indexDef);
     idx_unique := orElse (ix_unique indexDef) false;
     idx_type := ix_type indexDef |}.

(** [Array.isArray(unique[0]) ? unique : [unique]] *)
Definition uniqueConstraints (u : UniqueSpec) : list (list string) :=
  match u with
  | UniqueFlat columns => [columns]
  | UniqueGroups [] => [[]]
  | UniqueGroups groups => groups
  end.

Definition uniqueIndex (schema : LoadedSchema) (constraint : list string)
  : SqlIndex :=
  let constraintColumns := map toColumnName constraint in
  {| idx_name := "idx_" +:+ toTableName (sch_name schema) +:+ "_"
                 +:+ Str.join "_" constraintColumns +:+ "_unique";
     idx_columns := constraintColumns;
     idx_unique := true;
     idx_type := None |}.

Definition schemaToTable (schema : LoadedSchema) (allSchemas : SchemaCollection)
    (options : ResolvedSqlOptions) : SqlTable :=
  let dialect := dialect options in
  let columns :=
    if negb (bool_decide (optionOf schema so_id = Some false))
    then [generatePrimaryKey (orElse (optionOf schema so_idType) BigInt) dialect]
    else [] in
  let '(columns, foreignKeys, indexes) :=
    fold_left (addProperty schema allSchemas dialect)
      (propertiesOf schema) (columns, [], []) in
  let columns :=
    if negb (bool_decide (optionOf schema so_timestamps = Some false))
    then columns ++ generateTimestampColumns dialect else columns in
  let columns :=
    if bool_decide (optionOf schema so_softDelete = Some true)
    then columns ++ [generateSoftDeleteColumn dialect] else columns in
  let indexes :=
    match optionOf schema so_indexes with
    | Some defs => indexes ++ map (customIndex schema) defs
    | None => indexes
    end in
  let indexes :=
    match optionOf schema so_unique with
    | Some u => indexes ++ map (uniqueIndex schema) (uniqueConstraints u)
    | None => indexes
    end in
  {| tbl_name := toTableName (sch_name schema);
     tbl_columns := columns;
     tbl_foreignKeys := foreignKeys;
     tbl_indexes := indexes;
     tbl_comment := sch_displayName schema |}.

(** [[a, b].sort()]: by code units, which for the strings built here
    (ASCII) is the order of [String.ltb]. *)
Definition sortPair (a b : string) : string * string :=
  if String.ltb b a then (b, a) else (a, b).

Definition plainIndex (name : string) (columns : list string) (unique : bool)
  : SqlIndex :=
  {| idx_name := name; idx_columns := columns; idx_unique := unique;
     idx_type := None |}.

Definition fkColumn (name : string) (idType : IdType) (dialect : SqlDialect)
  : SqlColumn :=
  {| col_name := name;
     col_type := getForeignKeyType idType dialect;
     col_nullable := false;
     col_defaultValue := None;
     col_primaryKey := false;
     col_autoIncrement := false;
     col_unique := false;
     col_unsigned := bool_decide (dialect = mysql) && isIntegerId idType;
     col_comment := None |}.

Definition generatePivotTable (sourceSchema : LoadedSchema)
    (_propertyName : string) (property : PropertyDefinition)
    (allSchemas : SchemaCollection) (options : ResolvedSqlOptions)
  : option SqlTable :=
  if negb (bool_decide (p_type property = "Association")) then None
  else if negb (bool_decide (p_relation property = Some "ManyToMany"))
          || negb (truthy (p_target property))
  then None
  else
    let target := orElse (p_target property) EmptyString in
    match member target allSchemas with
    | None => None
    | Some targetSchema =>
        let dialect := dialect options in
        let sourceTable := toTableName (sch_name sourceSchema) in
        let targetTable := toTableName target in
        let tables := sortPair sourceTable targetTable in
        let pivotName :=
          orElse (p_joinTable property) (fst tables +:+ "_" +:+ snd tables) in
        let sourceIdType := orElse (optionOf sourceSchema so_idType) BigInt in
        let targetIdType := orElse (foundOption targetSchema so_idType) BigInt in
        let sourceColName := toSnakeCase (sch_name sourceSchema) +:+ "_id" in
        let targetColName := toSnakeCase target +:+ "_id" in
        let columns :=
          [ fkColumn sourceColName sourceIdType dialect;
            fkColumn targetColName targetIdType dialect ] in
        let foreignKeys :=
          [ {| fk_name := "fk_" +:+ pivotName +:+ "_" +:+ sourceColName;
               fk_columns := [sourceColName];
               fk_referencesTable := sourceTable;
               fk_referencesColumns := ["id"];
               fk_onDelete := orElse (p_onDelete property) "CASCADE";
               fk_onUpdate := "CASCADE" |};
            {| fk_name := "fk_" +:+ pivotName +:+ "_" +:+ targetColName;
               fk_columns := [targetColName];
               fk_referencesTable := targetTable;
               fk_referencesColumns := ["id"];
               fk_onDelete := orElse (p_onDelete property) "CASCADE";
               fk_onUpdate := "CASCADE" |} ] in
        let indexes :=
          [ plainIndex ("idx_" +:+ pivotName +:+ "_unique")
              [sourceColName; targetColName] true;
            plainIndex ("idx_" +:+ pivotName +:+ "_" +:+ sourceColName)
              [sourceColName] false;
            plainIndex ("idx_" +:+ pivotName +:+ "_" +:+ targetColName)
              [targetColName] false ] in
        Some {| tbl_name := pivotName;
                tbl_columns := columns;
                tbl_foreignKeys := foreignKeys;
                tbl_indexes := indexes;
                tbl_comment := None |}
    end.

(** A property that is a MorphToMany association to [target]. *)
Definition isMorphToManyTo (target : string) (p : PropertyDefinition) : bool :=
  bool_decide (p_type p = "Association")
  && bool_decide (p_relation p = Some "MorphToMany")
  && bool_decide (p_target p = Some target).

(** One round of the outer loop that collects [morphTargets]: the inner
    loop pushes [schemaName] at its first matching property, when it is not
    listed yet. *)
Definition addMorphTarget (sourceName target : string)
    (morphTargets : list string) (entry : string * LoadedSchema)
  : list string :=
  let '(schemaName, schema) := entry in
  if decide (schemaName = sourceName) then morphTargets
  else
    fold_left
      (fun acc (prop : string * PropertyDefinition) =>
         if isMorphToManyTo target (snd prop)
         then if bool_decide (schemaName ∈ acc) then acc else acc ++ [schemaName]
         else acc)
      (propertiesOf schema) morphTargets.

Definition collectMorphTargets (sourceName target : string)
    (allSchemas : SchemaCollection) : list string :=
  fold_left (addMorphTarget sourceName target) allSchemas [sourceName].

Definition generateMorphPivotTable (sourceSchema : LoadedSchema)
    (_propertyName : string) (property : PropertyDefinition)
    (allSchemas : SchemaCollection) (options : ResolvedSqlOptions)
  : option SqlTable :=
  if negb (bool_decide (p_type property = "Association")) then None
  else if negb (bool_decide (p_relation property = Some "MorphToMany"))
          || negb (truthy (p_target property))
  then None
  else
    let target := orElse (p_target property) EmptyString in
    match member target allSchemas with
    | None => None
    | Some targetSchema =>
        let dialect := dialect options in
        let morphName := Str.stripTrailingS (toSnakeCase target) +:+ "ables" in
        let pivotName := orElse (p_joinTable property) morphName in
        let targetIdType := orElse (foundOption targetSchema so_idType) BigInt in
        let targetColName := toSnakeCase target +:+ "_id" in
        let morphTypeName := Str.stripTrailingS morphName +:+ "_type" in
        let morphIdName := Str.stripTrailingS morphName +:+ "_id" in
        let morphTargets :=
          collectMorphTargets (sch_name sourceSchema) target allSchemas in
        let useUuid := anyUuid morphTargets allSchemas in
        let enumInfo :=
          getEnumType morphTargets dialect (Some (morphTypeName +:+ "_enum")) in
        let morphIdType := morphIdTypeOf useUuid dialect in
        let columns :=
          [ fkColumn targetColName targetIdType dialect;
            plainColumn morphTypeName (ei_type enumInfo) false;
            {| col_name := morphIdName;
               col_type := morphIdType;
               col_nullable := false;
               col_defaultValue := None;
               col_primaryKey := false;
               col_autoIncrement := false;
               col_unique := false;
               col_unsigned := bool_decide (dialect = mysql) && negb useUuid;
               col_comment := None |} ] in
        let foreignKeys :=
          [ {| fk_name := "fk_" +:+ pivotName +:+ "_" +:+ targetColName;
               fk_columns := [targetColName];
               fk_referencesTable := toTableName target;
               fk_referencesColumns := ["id"];
               fk_onDelete := orElse (p_onDelete property) "CASCADE";
               fk_onUpdate := "CASCADE" |} ] in
        let indexes :=
          [ plainIndex ("idx_" +:+ pivotName +:+ "_unique")
              [targetColName; morphTypeName; morphIdName] true;
            plainIndex ("idx_" +:+ pivotName +:+ "_" +:+ targetColName)
              [targetColName] false;
            plainIndex ("idx_" +:+ pivotName +:+ "_morphable")
              [morphTypeName; morphIdName] false ] in
        Some {| tbl_name := pivotName;
                tbl_columns := columns;
                tbl_foreignKeys := foreignKeys;
                tbl_indexes := indexes;
                tbl_comment := None |}
    end.

(** ** migration/generator.ts *)

(** A call either returns a value, throws an [Error] with a message, or
    fails with a TypeError that the runtime raises. *)
Inductive Result (A : Type) :=
| Ok (value : A)
| Throw (message : string)
| TypeError.
Arguments Ok {A} value.
Arguments Throw {A} message.
Arguments TypeError {A}.

Record Incompatibility := {
  inc_dialects : list SqlDialect;
  inc_reason : string;
  inc_suggestion : option string;
}.

Definition DIALECT_INCOMPATIBLE_TYPES : list (string * Incompatibility) :=
  [ ("Point",
     {| inc_dialects := [sqlite];
        inc_reason := "SQLite does not support native spatial types. Point will be stored as TEXT (JSON), which is incompatible with MySQL/PostgreSQL spatial functions (ST_Distance, ST_Within, etc.). Use Coordinates type for cross-database compatibility.";
        inc_suggestion := None |}) ].

Definition DIALECT_INCOMPATIBLE_INDEX_TYPES : list (string * Incompatibility) :=
  [ ("gin",
     {| inc_dialects := [mysql; sqlite];
        inc_reason := "GIN (Generalized Inverted Index) is PostgreSQL-specific.";
        inc_suggestion :=
          Some ("For fulltext search, use type: " +:+ Str.dquote +:+ "fulltext"
                +:+ Str.dquote
                +:+ " instead. For JSONB indexing, this only works in PostgreSQL.") |});
    ("gist",
     {| inc_dialects := [mysql; sqlite];
        inc_reason := "GiST (Generalized Search Tree) is PostgreSQL-specific.";
        inc_suggestion :=
          Some ("For spatial data, use type: " +:+ Str.dquote +:+ "spatial"
                +:+ Str.dquote
                +:+ " which works on both MySQL and PostgreSQL.") |});
    ("fulltext",
     {| inc_dialects := [sqlite];
        inc_reason := "SQLite does not support native fulltext indexes. FTS requires virtual tables which are not auto-generated.";
        inc_suggestion :=
          Some "Consider using a regular index or implementing SQLite FTS manually." |});
    ("spatial",
     {| inc_dialects := [sqlite];
        inc_reason := "SQLite does not support spatial indexes.";
        inc_suggestion :=
          Some "Use Coordinates type with regular indexes for cross-database compatibility." |}) ].

(** [table[key]] followed by the test
    [incompatibility && incompatibility.dialects.includes(dialect)].  A
    member of [Object.prototype] found under [key] is truthy and has no
    [dialects], so that the test fails with a TypeError. *)
Definition incompatibleIn (table : list (string * Incompatibility))
    (key : string) (dialect : SqlDialect) : Result (option Incompatibility) :=
  match member key table with
  | Some (Own incompatibility) =>
      Ok (if bool_decide (dialect ∈ inc_dialects incompatibility)
          then Some incompatibility else None)
  | Some (Inherited _) => TypeError
  | None => Ok None
  end.

(** What one round of the loop over the properties pushes to [errors]. *)
Definition propertyErrors (schemaName : string) (dialect : SqlDialect)
    (entry : string * PropertyDefinition) : Result (list string) :=
  let '(propName, property) := entry in
  let propType := p_type property in
  match incompatibleIn DIALECT_INCOMPATIBLE_TYPES propType dialect with
  | Ok (Some incompatibility) =>
      Ok [ "Schema " +:+ Str.dquote +:+ schemaName +:+ Str.dquote
           +:+ ", property " +:+ Str.dquote +:+ propName +:+ Str.dquote
           +:+ ": Type " +:+ Str.dquote +:+ propType +:+ Str.dquote
           +:+ " is not supported in " +:+ dialectName dialect +:+ ". "
           +:+ inc_reason incompatibility ]
  | Ok None => Ok []
  | Throw message => Throw message
  | TypeError => TypeError
  end.

(** What one round of the loop over the indexes pushes to [errors]. *)
Definition indexErrors (schemaName : string) (dialect : SqlDialect)
    (indexDef : IndexDef) : Result (list string) :=
  if truthy (ix_type indexDef) then
    let type := orElse (ix_type indexDef) EmptyString in
    match incompatibleIn DIALECT_INCOMPATIBLE_INDEX_TYPES type dialect with
    | Ok (Some incompatibility) =>
        let indexName :=
          orElse (ix_name indexDef)
            ("index on [" +:+ Str.join ", " (ix_columns indexDef) +:+ "]") in
        let message :=
          "Schema " +:+ Str.dquote +:+ schemaName +:+ Str.dquote
          +:+ ", index " +:+ Str.dquote +:+ indexName +:+ Str.dquote
          +:+ ": Index type " +:+ Str.dquote +:+ type +:+ Str.dquote
          +:+ " is not supported in " +:+ dialectName dialect +:+ ". "
          +:+ inc_reason incompatibility in
        let message :=
          if truthy (inc_suggestion incompatibility)
          then message +:+ " " +:+ orElse (inc_suggestion incompatibility) EmptyString
          else message in
        Ok [message]
    | Ok None => Ok []
    | Throw message => Throw message
    | TypeError => TypeError
    end
  else Ok [].

(** A loop whose rounds push to [errors] or fail: what the rounds push, in
    order, unless one of them fails. *)
Fixpoint collect {A : Type} (round : A -> Result (list string)) (l : list A)
  : Result (list string) :=
  match l with
  | [] => Ok []
  | x :: rest =>
      match round x with
      | Ok pushed =>
          match collect round rest with
          | Ok more => Ok (pushed ++ more)
          | failure => failure
          end
      | failure => failure
      end
  end.

(** What one round of the loop over the schemas pushes to [errors]. *)
Definition schemaErrors (dialect : SqlDialect) (entry : string * LoadedSchema)
  : Result (list string) :=
  let '(schemaName, schema) := entry in
  if bool_decide (sch_kind schema = Some KEnum) then Ok []
  else
    match collect (propertyErrors schemaName dialect) (propertiesOf schema) with
    | Ok fromProperties =>
        match collect (indexErrors schemaName dialect)
                (orElse (optionOf schema so_indexes) []) with
        | Ok fromIndexes => Ok (fromProperties ++ fromIndexes)
        | failure => failure
        end
    | failure => failure
    end.

(** The [errors] array at the end of the loops, when they end. *)
Definition compatibilityErrors (schemas : SchemaCollection)
    (dialect : SqlDialect) : Result (list string) :=
  collect (schemaErrors dialect) schemas.

(** [errors.map((e, i) => `${i + 1}. ${e}`)] *)
Definition numbered (errors : list string) : list string :=
  imap (fun i e => Str.ofZ (Z.of_nat i + 1) +:+ ". " +:+ e) errors.

Definition compatibilityMessage (dialect : SqlDialect) (errors : list string)
  : string :=
  "SQL Generator: Incompatible types detected for dialect " +:+ Str.dquote
  +:+ dialectName dialect +:+ Str.dquote +:+ ":" +:+ Str.nl +:+ Str.nl
  +:+ Str.join (Str.nl +:+ Str.nl) (numbered errors)
  +:+ Str.nl +:+ Str.nl
  +:+ "To fix: Either change the type/index or use a compatible dialect.".

Definition validateSchemaCompatibility (schemas : SchemaCollection)
    (dialect : SqlDialect) : Result unit :=
  match compatibilityErrors schemas dialect with
  | Ok errors =>
      if (0 <? length errors)%nat
      then Throw (compatibilityMessage dialect errors)
      else Ok ()
  | Throw message => Throw message
  | TypeError => TypeError
  end.

(** [options?.f] *)
Definition optionField {A : Type} (options : option SqlGeneratorOptions)
    (f : SqlGeneratorOptions -> option A) : option A :=
  match options with
  | Some o => f o
  | None => None
  end.

Definition resolveOptions (options : option SqlGeneratorOptions)
  : ResolvedSqlOptions :=
  {| dialect := orElse (optionField options o_dialect) mysql;
     ifNotExists := orElse (optionField options o_ifNotExists) true;
     generateDown := orElse (optionField options o_generateDown) true;
     startVersion := orElse (optionField options o_startVersion) 1;
     versionPadding := orElse (optionField options o_versionPadding) 4 |}.

Definition formatVersion (version padding : Z) : string :=
  Str.padStart (Str.ofZ version) padding "0".

Definition generateFileName (version : Z) (name : string) (padding : Z)
  : string :=
  let versionStr := formatVersion version padding in
  versionStr +:+ "_" +:+ name +:+ ".sql".

Definition generateCreateTableSql (table : SqlTable)
    (options : ResolvedSqlOptions) : string :=
  let dialect := dialect options in
  let lines :=
    [ "-- Migration: Create " +:+ tbl_name table +:+ " table";
      "-- Generated by @famgia/omnify-sql";
      EmptyString ] in
  let lines :=
    lines ++ [formatCreateTable table dialect (ifNotExists options); EmptyString] in
  let indexStatements := formatIndexes table dialect in
  let lines :=
    if (0 <? length indexStatements)%nat
    then lines ++ ["-- Indexes"] ++ indexStatements ++ [EmptyString]
    else lines in
  let commentStatements := formatColumnComments table dialect in
  let lines :=
    if (0 <? length commentStatements)%nat
    then lines ++ ["-- Column comments"] ++ commentStatements ++ [EmptyString]
    else lines in
  let lines :=
    if generateDown options
    then lines ++ ["-- Down migration";
                   "-- " +:+ formatDropTable (tbl_name table) dialect true true]
    else lines in
  Str.join Str.nl lines.

(** A loop whose body may fail to finish: the body runs on each element in
    turn, threading the state. *)
Fixpoint foldM {A S : Type} (body : S -> A -> option S) (l : list A) (st : S)
  : option S :=
  match l with
  | [] => Some st
  | x :: rest =>
      match body st x with
      | Some st' => foldM body rest st'
      | None => None
      end
  end.

(** The three variables that the closure [visit] shares.  [sorted] holds
    what the lookups [schemas[schemaName]] found. *)
Record SortState := {
  sorted : list (Member LoadedSchema);
  visited : gset string;
  visiting : gset string;
}.

(** The target that [visit] descends into for a property, if any. *)
Definition dependencyOf (property : PropertyDefinition) : option string :=
  if bool_decide (p_type property = "Association")
     && isOwningRelation (p_relation property)
     && truthy (p_target property)
  then p_target property
  else None.

(** [visit] is recursive through the schema graph; the model bounds the
    depth of the recursion by [fuel] and answers [None] when it runs out.
    [visit_terminates] below shows that the fuel [topologicalSort] supplies
    is always enough.  Under a target named like a member of
    [Object.prototype] the lookup finds that member, which has no
    properties and is listed like a schema. *)
Fixpoint visit (schemas : SchemaCollection) (fuel : nat) (schemaName : string)
    (st : SortState) : option SortState :=
  match fuel with
  | O => None
  | S fuel' =>
      if bool_decide (schemaName ∈ visited st) then Some st
      else if bool_decide (schemaName ∈ visiting st) then Some st
      else
        let st :=
          {| sorted := sorted st;
             visited := visited st;
             visiting := {[schemaName]} ∪ visiting st |} in
        match member schemaName schemas with
        | None => Some st
        | Some schema =>
            match
              foldM
                (fun st (entry : string * PropertyDefinition) =>
                   match dependencyOf (snd entry) with
                   | Some target => visit schemas fuel' target st
                   | None => Some st
                   end)
                (foundProperties schema) st
            with
            | None => None
            | Some st =>
                Some {| sorted := sorted st ++ [schema];
                        visited := {[schemaName]} ∪ visited st;
                        visiting := visiting st ∖ {[schemaName]} |}
            end
        end
  end.

Definition emptySort : SortState :=
  {| sorted := []; visited := ∅; visiting := ∅ |}.

Definition topologicalSortState (schemas : SchemaCollection)
  : option SortState :=
  foldM (fun st (entry : string * LoadedSchema) =>
           visit schemas (S (length schemas)) (fst entry) st)
        schemas emptySort.

Definition topologicalSort (schemas : SchemaCollection)
  : option (list (Member LoadedSchema)) :=
  sorted <$> topologicalSortState schemas.

(** The variables that the loops of [generateMigrations] update. *)
Record GenState := {
  migrations : list SqlMigration;
  version : Z;
  createdPivots : gset string;
}.

(** The artifact pushed for [table] at [version]. *)
Definition migrationOf (version : Z) (table : SqlTable) (type : MigrationType)
    (resolved : ResolvedSqlOptions) : SqlMigration :=
  {| mig_version := version;
     mig_name := "create_" +:+ tbl_name table;
     mig_fileName :=
       generateFileName version ("create_" +:+ tbl_name table)
         (versionPadding resolved);
     mig_content := generateCreateTableSql table resolved;
     mig_tables := [tbl_name table];
     mig_type := type |}.

(** Body of the first loop. *)
Definition emitCreate (schemas : SchemaCollection)
    (resolved : ResolvedSqlOptions) (st : GenState) (schema : LoadedSchema)
  : GenState :=
  let table := schemaToTable schema schemas resolved in
  {| migrations := migrations st ++ [migrationOf (version st) table create resolved];
     version := Num.succ (version st);
     createdPivots := createdPivots st |}.

(** [if (pivotTable && !createdPivots.has(pivotTable.name)) { ... }] *)
Definition emitPivot (resolved : ResolvedSqlOptions)
    (pivotTable : option SqlTable) (st : GenState) : GenState :=
  match pivotTable with
  | Some table =>
      if bool_decide (tbl_name table ∈ createdPivots st) then st
      else
        {| migrations :=
             migrations st ++ [migrationOf (version st) table pivot resolved];
           version := Num.succ (version st);
           createdPivots := {[tbl_name table]} ∪ createdPivots st |}
  | None => st
  end.

(** Body of the inner loop of the second pass, for one property. *)
Definition emitPivots (schemas : SchemaCollection)
    (resolved : ResolvedSqlOptions) (schema : LoadedSchema) (st : GenState)
    (entry : string * PropertyDefinition) : GenState :=
  let '(propName, property) := entry in
  let st :=
    emitPivot resolved
      (generatePivotTable schema propName property schemas resolved) st in
  emitPivot resolved
    (generateMorphPivotTable schema propName property schemas resolved) st.

(** [schema.kind !== 'enum'] *)
Definition notEnum (entry : string * LoadedSchema) : Prop :=
  sch_kind (snd entry) ≠ Some KEnum.

Global Instance notEnum_dec entry : Decision (notEnum entry).
Proof. unfold notEnum. apply _. Defined.

(** The two loops of [generateMigrations] over the sorted schemas. *)
Definition emitAll (schemas : SchemaCollection) (resolved : ResolvedSqlOptions)
    (sortedSchemas : list LoadedSchema) : GenState :=
  let st :=
    {| migrations := []; version := startVersion resolved; createdPivots := ∅ |} in
  let st := fold_left (emitCreate schemas resolved) sortedSchemas st in
  fold_left
    (fun st schema =>
       fold_left (emitPivots schemas resolved schema) (propertiesOf schema) st)
    sortedSchemas st.

(** The outer [option] is the fuel of [visit]; [generateMigrations_total]
    shows that it is never [None].  The first loop fails with a TypeError
    when it reaches a listed object without [name], on which [toTableName]
    cannot work; as nothing is returned then, the model looks for such an
    object before the loops. *)
Definition generateMigrations (schemas : SchemaCollection)
    (options : option SqlGeneratorOptions)
  : option (Result (list SqlMigration)) :=
  let resolved := resolveOptions options in
  match validateSchemaCompatibility schemas (dialect resolved) with
  | Throw message => Some (Throw message)
  | TypeError => Some TypeError
  | Ok _ =>
      let objectSchemas := filter notEnum schemas in
      match topologicalSort objectSchemas with
      | None => None
      | Some sortedSchemas =>
          match mapM schemaOf sortedSchemas with
          | None => Some TypeError
          | Some sortedSchemas =>
              Some (Ok (migrations (emitAll schemas resolved sortedSchemas)))
          end
      end
  end.

Definition generateMigrationFromSchema (schema : LoadedSchema)
    (allSchemas : SchemaCollection) (options : option SqlGeneratorOptions)
  : SqlMigration :=
  let resolved := resolveOptions options in
  let version := orElse (optionField options o_version) (startVersion resolved) in
  let table := schemaToTable schema allSchemas resolved in
  migrationOf version table create resolved.

Definition generateDropMigration (tableName : string)
    (options : option SqlGeneratorOptions) : SqlMigration :=
  let resolved := resolveOptions options in
  let version := orElse (optionField options o_version) (startVersion resolved) in
  let isTableName :=
    Str.includes tableName "_" || Str.endsWith tableName "s"
    || Str.endsWith tableName "es" in
  let snakeTable := if isTableName then tableName else toTableName tableName in
  let dropSql := formatDropTable snakeTable (dialect resolved) true true in
  let lines :=
    [ "-- Migration: Drop " +:+ snakeTable +:+ " table";
      "-- Generated by @famgia/omnify-sql";
      EmptyString;
      dropSql ] in
  {| mig_version := version;
     mig_name := "drop_" +:+ snakeTable;
     mig_fileName :=
       generateFileName version ("drop_" +:+ snakeTable) (versionPadding resolved);
     mig_content := Str.join Str.nl lines;
     mig_tables := [snakeTable];
     mig_type := drop |}.

Definition getMigrationPath (migration : SqlMigration) (basePath : option string)
  : string :=
  orElse basePath "migrations" +:+ "/" +:+ mig_fileName migration.

(** ** Inputs used to exercise the generator *)

Module Examples.

(** A property with only its [type] set. *)
Definition prop (type : string) : PropertyDefinition :=
  {| p_type := type; p_nullable := None; p_unique := None;
     p_default := None; p_displayName := None; p_length := None;
     p_precision := None; p_scale := None; p_enum := None;
     p_options := None; p_relation := None; p_target := None;
     p_targets := None; p_onDelete := None; p_onUpdate := None;
     p_joinTable := None |}.

(** [{ type: 'Association', relation, target }] *)
Definition association (relation target : string) : PropertyDefinition :=
  {| p_type := "Association"; p_nullable := None; p_unique := None;
     p_default := None; p_displayName := None; p_length := None;
     p_precision := None; p_scale := None; p_enum := None;
     p_options := None; p_relation := Some relation;
     p_target := Some target; p_targets := None; p_onDelete := None;
     p_onUpdate := None; p_joinTable := None |}.

(** [{ type: 'Association', relation: 'MorphTo', targets, nullable }] *)
Definition morphTo (targets : list string) (nullable : option bool)
  : PropertyDefinition :=
  {| p_type := "Association"; p_nullable := nullable; p_unique := None;
     p_default := None; p_displayName := None; p_length := None;
     p_precision := None; p_scale := None; p_enum := None;
     p_options := None; p_relation := Some "MorphTo";
     p_target := None; p_targets := Some targets; p_onDelete := None;
     p_onUpdate := None; p_joinTable := None |}.

(** [{ type: 'Enum', enum: values }] *)
Definition enumProp (values : list string) : PropertyDefinition :=
  {| p_type := "Enum"; p_nullable := None; p_unique := None;
     p_default := None; p_displayName := None; p_length := None;
     p_precision := None; p_scale := None;
     p_enum := Some (EnumValues values);
     p_options := None; p_relation := None; p_target := None;
     p_targets := None; p_onDelete := None; p_onUpdate := None;
     p_joinTable := None |}.

(** [{ name, kind: 'object', properties }] *)
Definition object (name : string)
    (properties : list (string * PropertyDefinition)) : LoadedSchema :=
  {| sch_name := name; sch_kind := Some KObject;
     sch_properties := Some properties; sch_options := None;
     sch_displayName := None |}.

Definition noOptions : SchemaOptions :=
  {| so_id := None; so_idType := None; so_timestamps := None;
     so_softDelete := None; so_indexes := None; so_unique := None |}.

(** [{ dialect }] *)
Definition forDialect (d : SqlDialect) : option SqlGeneratorOptions :=
  Some {| o_dialect := Some d; o_ifNotExists := None;
          o_generateDown := None; o_startVersion := None;
          o_versionPadding := None; o_version := None |}.

(** The entity [User] with the single String property [name]. *)
Definition userOnly : SchemaCollection :=
  [ ("User", object "User" [("name", prop "String")]) ].

(** Comment -> Post -> User, listed dependants first. *)
Definition blog : SchemaCollection :=
  [ ("Comment", object "Comment" [("post", association "ManyToOne" "Post")]);
    ("Post", object "Post" [("author", association "ManyToOne" "User")]);
    ("User", object "User" []) ].

(** An entity with an Enum property that lists its values. *)
Definition withEnum : SchemaCollection :=
  [ ("Test",
     object "Test" [("status", enumProp ["draft"; "published"; "archived"])]) ].

End Examples.

(** ** The dependency graph of a schema collection *)

(** The names under which the collection lists its schemas. *)
Definition keys (schemas : SchemaCollection) : list string := schemas.*1.

(** [dependsOn schemas s t]: the schema listed as [s] owns a foreign key
    toward [t], that is, one of its properties is a ManyToOne or OneToOne
    association with target [t]. *)
Definition dependsOn (schemas : SchemaCollection) (s t : string) : Prop :=
  ∃ schema entry,
    assoc s schemas = Some schema ∧
    entry ∈ propertiesOf schema ∧
    dependencyOf (snd entry) = Some t.

(** No dependency chain loops back on itself. *)
Definition acyclic (schemas : SchemaCollection) : Prop :=
  ∀ k, ¬ tc (dependsOn schemas) k k.

(** ** What the topological sort maintains *)

(** The names [visit] has entered so far. *)
Definition entered (st : SortState) : gset string :=
  visited st ∪ visiting st.

(** The listed names that [visit] has not entered yet: every nested call
    that does not return at once enters one of them. *)
Definition pending (schemas : SchemaCollection) (st : SortState) : nat :=
  size (list_to_set (keys schemas) ∖ entered st : gset string).

(** [l] holds the schemas listed under the names [ks], in the same order. *)
Definition listedAs (schemas : SchemaCollection) (ks : list string)
    (l : list (Member LoadedSchema)) : Prop :=
  Forall2 (λ k s, member k schemas = Some s) ks l.

(** Every name in [ks] comes after the names it depends on under which a
    lookup finds something. *)
Definition ordered (schemas : SchemaCollection) (ks : list string) : Prop :=
  ∀ j k t,
    ks !! j = Some k → dependsOn schemas k t → is_Some (member t schemas) →
    ∃ i, (i < j)%nat ∧ ks !! i = Some t.

(** The state of the sort, with the names [ks] under which [sorted] was
    pushed.  The order is only promised for a graph without cycles. *)
Record sortInv (schemas : SchemaCollection) (st : SortState)
    (ks : list string) : Prop := {
  inv_sorted : listedAs schemas ks (sorted st);
  inv_visited : ∀ k, k ∈ visited st ↔ k ∈ ks;
  inv_ordered : acyclic schemas → ordered schemas ks;
  inv_nodup : NoDup ks;
  inv_disjoint : visited st ## visiting st;
}.

(** ** The artifacts of a run *)

(** The [create] artifact of [schema] when it is emitted at [version]. *)
Definition createArtifact (schemas : SchemaCollection)
    (resolved : ResolvedSqlOptions) (version : Z) (schema : LoadedSchema)
  : SqlMigration :=
  migrationOf version (schemaToTable schema schemas resolved) create resolved.

(** [count] copies of the character [0]. *)
Definition zeros (count : nat) : string :=
  string_of_list_ascii (replicate count "0"%char).

(** The value of the version counter after [i] rounds of [version++]
    from [start]. *)
Definition versionAt (start : Z) (i : nat) : Z := Nat.iter i Num.succ start.
Arguments versionAt : simpl never.

(** The bound up to which doubles count every integer. *)
Definition safeBound : Z := 9007199254740992.

(** The artifact at position [i] carries the version [start + i], and its
    file name is the decimal numeral of that version padded with zeros to
    [padding] characters, then [_], the artifact's name and [.sql]. *)
Definition versionedFrom (start padding : Z) (migs : list SqlMigration)
  : Prop :=
  ∀ (i : nat) m,
    migs !! i = Some m →
    mig_version m = start + Z.of_nat i ∧
    mig_fileName m =
      zeros (Z.to_nat (padding
                       - Z.of_nat (String.length (Str.decimal (mig_version m)))))
      +:+ Str.decimal (mig_version m) +:+ "_" +:+ mig_name m +:+ ".sql".

(** What the loops of a run maintain: the counter has been incremented
    once for each artifact, and the artifact at position [i] carries the
    value the counter had after [i] increments, in its version and in its
    file name. *)
Definition counterInv (resolved : ResolvedSqlOptions) (st : GenState) : Prop :=
  version st = versionAt (startVersion resolved) (length (migrations st)) ∧
  ∀ (i : nat) m,
    migrations st !! i = Some m →
    mig_version m = versionAt (startVersion resolved) i ∧
    mig_fileName m =
      generateFileName (mig_version m) (mig_name m) (versionPadding resolved).

(** ** Names that a plain object inherits *)

(** No property type and no index type of a schema that is not an enum
    names a member of [Object.prototype]. *)
Definition plainTypes (schemas : SchemaCollection) : Prop :=
  Forall
    (λ entry : string * LoadedSchema,
       sch_kind entry.2 ≠ Some KEnum →
       Forall (λ property : string * PropertyDefinition,
                 p_type property.2 ∉ prototypeMembers)
         (propertiesOf entry.2) ∧
       Forall (λ indexDef,
                 from_option (λ type, type ∉ prototypeMembers) True
                   (ix_type indexDef))
         (orElse (optionOf entry.2 so_indexes) []))
    schemas.

(** No association of the collection has a target that names a member of
    [Object.prototype]. *)
Definition plainTargets (schemas : SchemaCollection) : Prop :=
  Forall
    (λ entry : string * LoadedSchema,
       Forall (λ property : string * PropertyDefinition,
                 from_option (λ target, target ∉ prototypeMembers) True
                   (p_target property.2))
         (propertiesOf entry.2))
    schemas.

(** The collections on which a lookup by name finds what the collection
    lists and nothing else: the types and the targets are plain, and no
    schema is listed as [__proto__], the one key that an assignment
    [objectSchemas[name] = schema] does not add. *)
Definition plainNames (schemas : SchemaCollection) : Prop :=
  plainTypes schemas ∧ plainTargets schemas ∧ "__proto__" ∉ keys schemas.


(** What the generator returns for [Examples.blog] under MySQL. *)
Definition blogMigrations : list SqlMigration :=
  Eval vm_compute in
    match generateMigrations Examples.blog (Examples.forDialect mysql) with
    | Some (Ok migs) => migs
    | _ => []
    end.

(** A custom start version and padding, as in the tests of the options. *)
Definition fromTen : option SqlGeneratorOptions :=
  Some {| o_dialect := Some postgresql; o_ifNotExists := None;
          o_generateDown := None; o_startVersion := Some 10;
          o_versionPadding := Some 6; o_version := None |}.

(** A run that starts at 2^53, where doubles stop counting. *)
Definition fromLimit : option SqlGeneratorOptions :=
  Some {| o_dialect := Some postgresql; o_ifNotExists := None;
          o_generateDown := None; o_startVersion := Some 9007199254740992;
          o_versionPadding := Some 6; o_version := None |}.

(** A run that starts two below -2^53, where doubles are two apart. *)
Definition fromBelowLimit : option SqlGeneratorOptions :=
  Some {| o_dialect := Some postgresql; o_ifNotExists := None;
          o_generateDown := None; o_startVersion := Some (-9007199254740994);
          o_versionPadding := Some 6; o_version := None |}.

(** What the generator returns for [Examples.blog] under [fromTen]. *)
Definition blogFromTen : list SqlMigration :=
  Eval vm_compute in
    match generateMigrations Examples.blog fromTen with
    | Some (Ok migs) => migs
    | _ => []
    end.

(** ** Violations of dialect compatibility, as the specification lists them *)

(** A property type that the dialect cannot hold: Point on SQLite. *)
Definition typeViolation (dialect : SqlDialect) (propType : string) : Prop :=
  propType = "Point" ∧ dialect = sqlite.

(** An index type that the dialect cannot build: gin and gist outside
    PostgreSQL, fulltext and spatial on SQLite. *)
Definition indexViolation (dialect : SqlDialect) (indexType : string) : Prop :=
  ((indexType = "gin" ∨ indexType = "gist") ∧ dialect ≠ postgresql) ∨
  ((indexType = "fulltext" ∨ indexType = "spatial") ∧ dialect = sqlite).

(** How the error message identifies a violating property. *)
Definition propertyViolationText (schemaName propName propType : string)
    (dialect : SqlDialect) : string :=
  "Schema " +:+ Str.dquote +:+ schemaName +:+ Str.dquote
  +:+ ", property " +:+ Str.dquote +:+ propName +:+ Str.dquote
  +:+ ": Type " +:+ Str.dquote +:+ propType +:+ Str.dquote
  +:+ " is not supported in " +:+ dialectName dialect +:+ ". ".

(** The name of an index in the error message. *)
Definition indexLabel (indexDef : IndexDef) : string :=
  orElse (ix_name indexDef)
    ("index on [" +:+ Str.join ", " (ix_columns indexDef) +:+ "]").

(** How the error message identifies a violating index. *)
Definition indexViolationText (schemaName indexName indexType : string)
    (dialect : SqlDialect) : string :=
  "Schema " +:+ Str.dquote +:+ schemaName +:+ Str.dquote
  +:+ ", index " +:+ Str.dquote +:+ indexName +:+ Str.dquote
  +:+ ": Index type " +:+ Str.dquote +:+ indexType +:+ Str.dquote
  +:+ " is not supported in " +:+ dialectName dialect +:+ ". ".

(** [Violation schemas dialect text]: some property or index of a schema
    that is not an enum violates the dialect, and [text] identifies it. *)
Inductive Violation (schemas : SchemaCollection) (dialect : SqlDialect)
  : string → Prop :=
| PropertyViolation schemaName schema propName property :
    (schemaName, schema) ∈ schemas →
    sch_kind schema ≠ Some KEnum →
    (propName, property) ∈ propertiesOf schema →
    typeViolation dialect (p_type property) →
    Violation schemas dialect
      (propertyViolationText schemaName propName (p_type property) dialect)
| IndexViolation schemaName schema indexes indexDef indexType :
    (schemaName, schema) ∈ schemas →
    sch_kind schema ≠ Some KEnum →
    optionOf schema so_indexes = Some indexes →
    indexDef ∈ indexes →
    ix_type indexDef = Some indexType →
    indexViolation dialect indexType →
    Violation schemas dialect
      (indexViolationText schemaName (indexLabel indexDef) indexType dialect).

(** A Point property and a gin index, for SQLite to refuse. *)
Definition spatialSchemas : SchemaCollection :=
  [ ("Place",
     {| sch_name := "Place"; sch_kind := Some KObject;
        sch_properties := Some [("position", Examples.prop "Point")];
        sch_options :=
          Some {| so_id := None; so_idType := None; so_timestamps := None;
                  so_softDelete := None;
                  so_indexes :=
                    Some [ {| ix_name := Some "idx_tags";
                              ix_columns := ["tags"];
                              ix_unique := None;
                              ix_type := Some "gin" |} ];
                  so_unique := None |};
        sch_displayName := None |}) ].

(** An entity with a property whose type is named like a member of
    [Object.prototype]. *)
Definition inheritedType : SchemaCollection :=
  [ ("Item", Examples.object "Item" [("kind", Examples.prop "constructor")]) ].

(** The same beside a Point property, for SQLite. *)
Definition inheritedTypeAndPoint : SchemaCollection :=
  [ ("Place",
     Examples.object "Place"
       [ ("kind", Examples.prop "constructor");
         ("position", Examples.prop "Point") ]) ].

(** ** Dropping a table *)

(** The statement that drops the table [table] with everything that
    depends on it, when the table exists. *)
Definition dropStatement (table : string) (sqlDialect : SqlDialect) : string :=
  match sqlDialect with
  | mysql => "DROP TABLE IF EXISTS `" +:+ table +:+ "`;"
  | postgresql =>
      "DROP TABLE IF EXISTS " +:+ Str.dquote +:+ table +:+ Str.dquote
      +:+ " CASCADE;"
  | sqlite =>
      "DROP TABLE IF EXISTS " +:+ Str.dquote +:+ table +:+ Str.dquote +:+ ";"
  end.

(** The drop artifact for the table [table]: the table, the artifact's name
    and file name, and the SQL text, which ends with the statement that
    drops [table]. *)
Definition dropArtifact (table : string) (version : Z)
    (resolved : ResolvedSqlOptions) : SqlMigration :=
  {| mig_version := version;
     mig_name := "drop_" +:+ table;
     mig_fileName :=
       generateFileName version ("drop_" +:+ table) (versionPadding resolved);
     mig_content :=
       "-- Migration: Drop " +:+ table +:+ " table" +:+ Str.nl
       +:+ "-- Generated by @famgia/omnify-sql" +:+ Str.nl +:+ Str.nl
       +:+ dropStatement table (dialect resolved);
     mig_tables := [table];
     mig_type := drop |}.

(** A comment that may belong to a post or to a video, declared not null. *)
Definition commentable : PropertyDefinition :=
  Examples.morphTo ["Post"; "Video"] (Some false).

Definition commentSchemas : SchemaCollection :=
  [ ("Comment", Examples.object "Comment" [("commentable", commentable)]);
    ("Post", Examples.object "Post" []);
    ("Video", Examples.object "Video" []) ].

(** The only schema of [Examples.userOnly]. *)
Definition userSchema : LoadedSchema :=
  Examples.object "User" [("name", Examples.prop "String")].

(** The CREATE TABLE statement of [userSchema] under MySQL with the default
    options. *)
Definition userCreateTable : string :=
  formatCreateTable
    (schemaToTable userSchema Examples.userOnly
       (resolveOptions (Examples.forDialect mysql)))
    mysql true.

(** The SQL text of the only artifact of a run, if the run returns one. *)
Definition onlyContent (run : option (Result (list SqlMigration)))
  : option string :=
  match run with
  | Some (Ok [m]) => Some (mig_content m)
  | _ => None
  end.

(** ** Owners of a polymorphic pivot table *)

(** [contributes allSchemas sourceName target k]: [k] names an owner of the
    pivot table toward [target]: the source entity, or a schema of the
    collection with a MorphToMany association to [target]. *)
Definition contributes (allSchemas : SchemaCollection)
    (sourceName target k : string) : Prop :=
  k = sourceName ∨
  ∃ schema entry,
    (k, schema) ∈ allSchemas ∧
    entry ∈ propertiesOf schema ∧
    isMorphToManyTo target (snd entry) = true.

(** The schema listed as [k] uses UUID identity. *)
Definition usesUuid (allSchemas : SchemaCollection) (k : string) : Prop :=
  optIdType (member k allSchemas) = Some Uuid.

(** [{ type: 'Association', relation: 'MorphToMany', target: 'Tag' }] *)
Definition tags : PropertyDefinition :=
  Examples.association "MorphToMany" "Tag".

(** Posts and videos are tagged; videos use UUID identity. *)
Definition taggedSchemas : SchemaCollection :=
  [ ("Post", Examples.object "Post" [("tags", tags)]);
    ("Video",
     {| sch_name := "Video"; sch_kind := Some KObject;
        sch_properties := Some [("tags", tags)];
        sch_options :=
          Some {| so_id := None; so_idType := Some Uuid;
                  so_timestamps := None; so_softDelete := None;
                  so_indexes := None; so_unique := None |};
        sch_displayName := None |});
    ("Tag", Examples.object "Tag" [("name", Examples.prop "String")]) ].

(** ** The pivot table between User and Role *)





(** The artifacts of kind [pivot]. *)
Definition pivotArtifacts (migs : list SqlMigration) : list SqlMigration :=
  filter (λ m, mig_type m = pivot) migs.




(** User and Role with the relation declared on both sides. *)
Definition userRoleSchemas : SchemaCollection :=
  [ ("User",
     Examples.object "User"
       [("roles", Examples.association "ManyToMany" "Role")]);
    ("Role",
     Examples.object "Role"
       [("name", Examples.prop "String");
        ("users", Examples.association "ManyToMany" "User")]) ].





(** What the generator returns for [userRoleSchemas] under PostgreSQL. *)
Definition userRoleMigrations : list SqlMigration :=
  Eval vm_compute in
    match generateMigrations userRoleSchemas (Examples.forDialect postgresql) with
    | Some (Ok migs) => migs
    | _ => []
    end.

(** ** Further inputs and notions for the properties of the builder *)

(** No character of [s] is an upper-case letter [A-Z]. *)
Definition noUpper (s : string) : Prop :=
  ∀ c, c ∈ list_ascii_of_string s → Str.isUpper c = false.

(** An entity with a camel-case name. *)
Definition blogPost : LoadedSchema :=
  Examples.object "BlogPost" [("title", Examples.prop "String")].

(** The schema listed as [Video] in [taggedSchemas]. *)
Definition videoTags : LoadedSchema :=
  {| sch_name := "Video"; sch_kind := Some KObject;
     sch_properties := Some [("tags", tags)];
     sch_options :=
       Some {| so_id := None; so_idType := Some Uuid;
               so_timestamps := None; so_softDelete := None;
               so_indexes := None; so_unique := None |};
     sch_displayName := None |}.

(** ** Further notions for the run as a whole *)

(** The artifacts of kind [create]. *)
Definition createArtifacts (migs : list SqlMigration) : list SqlMigration :=
  filter (λ m, mig_type m = create) migs.

(** What the second pass of [generateMigrations] maintains, whatever the
    collection: it only appends pivot artifacts to [base], no two for the
    same table, and [createdPivots] holds the tables appended. *)
Definition pivotsInv (base : list SqlMigration) (st : GenState) : Prop :=
  ∃ extra,
    migrations st = base ++ extra ∧
    Forall (λ m, mig_type m = pivot) extra ∧
    NoDup (mig_tables <$> extra) ∧
    ∀ name, name ∈ createdPivots st ↔ [name] ∈ mig_tables <$> extra.

(** The options [options] with [version] set. *)
Definition withVersion (options : option SqlGeneratorOptions) (version : Z)
  : option SqlGeneratorOptions :=
  Some {| o_dialect := optionField options o_dialect;
          o_ifNotExists := optionField options o_ifNotExists;
          o_generateDown := optionField options o_generateDown;
          o_startVersion := optionField options o_startVersion;
          o_versionPadding := optionField options o_versionPadding;
          o_version := Some version |}.

(** An entity whose maker is named like the [constructor] that every
    object inherits. *)
Definition inheritedTargetItem : LoadedSchema :=
  Examples.object "Item"
    [("maker", Examples.association "ManyToOne" "constructor")].

Definition inheritedTarget : SchemaCollection :=
  [ ("Item", inheritedTargetItem) ].

(** Two entities that refer to each other. *)
Definition mutual : SchemaCollection :=
  [ ("Author", Examples.object "Author"
                 [("favourite", Examples.association "ManyToOne" "Book")]);
    ("Book", Examples.object "Book"
               [("author", Examples.association "ManyToOne" "Author")]) ].

(** ** Further notions for tables *)

(** The primary-key columns of a table. *)
Definition primaryKeys (table : SqlTable) : list SqlColumn :=
  filter (λ c, col_primaryKey c = true) (tbl_columns table).

(** What [schemaToTable] maintains for its foreign keys: each is on one
    column of the table, refers to the column [id], is named after the
    table and the column, and has a plain index on its column. *)
Definition foreignKeysInv (tableName : string) (parts : TableParts) : Prop :=
  Forall
    (λ fk, ∃ c,
        fk_columns fk = [c] ∧
        fk_referencesColumns fk = ["id"] ∧
        fk_name fk = "fk_" +:+ tableName +:+ "_" +:+ c ∧
        c ∈ col_name <$> parts.1.1 ∧
        plainIndex ("idx_" +:+ tableName +:+ "_" +:+ c) [c] false ∈ parts.2)
    parts.1.2.

(** Every quote of the string is one of a pair. *)
Inductive quotesPaired : string → Prop :=
| paired_empty : quotesPaired EmptyString
| paired_other c s :
    c ≠ "'"%char → quotesPaired s → quotesPaired (String c s)
| paired_pair s :
    quotesPaired s → quotesPaired (String "'"%char (String "'"%char s)).

(** A schema with a unique e-mail address and an owner. *)
Definition account : LoadedSchema :=
  Examples.object "Account"
    [ ("email",
       {| p_type := "Email"; p_nullable := None; p_unique := Some true;
          p_default := None; p_displayName := None; p_length := None;
          p_precision := None; p_scale := None; p_enum := None;
          p_options := None; p_relation := None; p_target := None;
          p_targets := None; p_onDelete := None; p_onUpdate := None;
          p_joinTable := None |});
      ("owner", Examples.association "ManyToOne" "User") ].

Definition accountSchemas : SchemaCollection :=
  [ ("Account", account); ("User", Examples.object "User" []) ].

(** The column type that can hold a value of a primary key of type [t]:
    the serial types of PostgreSQL are integers that number themselves. *)
Definition referencingType (t : string) : string :=
  if decide (t = "SERIAL") then "INTEGER"
  else if decide (t = "BIGSERIAL") then "BIGINT"
  else t.

(** An index with the name, the columns and the type of [index] and the
    uniqueness [unique]. *)
Definition withUnique (index : SqlIndex) (unique : bool) : SqlIndex :=
  {| idx_name := idx_name index; idx_columns := idx_columns index;
     idx_unique := unique; idx_type := idx_type index |}.

(** The index types that [formatIndex] renders in a way of their own under
    [sqlDialect]. *)
Definition renderedByType (sqlDialect : SqlDialect) (type : option string)
  : Prop :=
  type = Some "fulltext" ∨ type = Some "spatial" ∨ type = Some "hash" ∨
  (sqlDialect = postgresql ∧ (type = Some "gin" ∨ type = Some "gist")).

(** ** plugin.ts *)

Module Plugin.

Record SqlPluginOptions := {
  po_dialect : option SqlDialect;
  po_migrationsPath : option string;
  po_ifNotExists : option bool;
  po_generateDown : option bool;
  po_startVersion : option Z;
  po_versionPadding : option Z;
}.

Record ResolvedPluginOptions := {
  rp_dialect : SqlDialect;
  rp_migrationsPath : string;
  rp_ifNotExists : bool;
  rp_generateDown : bool;
  rp_startVersion : Z;
  rp_versionPadding : Z;
}.

Definition pluginField {A : Type} (options : option SqlPluginOptions)
    (f : SqlPluginOptions -> option A) : option A :=
  match options with
  | Some o => f o
  | None => None
  end.

Definition resolveOptions (options : option SqlPluginOptions)
  : ResolvedPluginOptions :=
  {| rp_dialect := orElse (pluginField options po_dialect) mysql;
     rp_migrationsPath :=
       orElse (pluginField options po_migrationsPath) "migrations";
     rp_ifNotExists := orElse (pluginField options po_ifNotExists) true;
     rp_generateDown := orElse (pluginField options po_generateDown) true;
     rp_startVersion := orElse (pluginField options po_startVersion) 1;
     rp_versionPadding := orElse (pluginField options po_versionPadding) 4 |}.

(** A [GeneratorOutput] with its [metadata] flattened. *)
Record GeneratorOutput := {
  out_path : string;
  out_content : string;
  out_type : string;
  meta_version : Z;
  meta_tables : list string;
  meta_migrationType : MigrationType;
  meta_dialect : SqlDialect;
}.

(** The options that [generate] hands to the generator. *)
Definition generatorOptions (resolved : ResolvedPluginOptions)
  : SqlGeneratorOptions :=
  {| o_dialect := Some (rp_dialect resolved);
     o_ifNotExists := Some (rp_ifNotExists resolved);
     o_generateDown := Some (rp_generateDown resolved);
     o_startVersion := Some (rp_startVersion resolved);
     o_versionPadding := Some (rp_versionPadding resolved);
     o_version := None |}.

Definition outputOf (resolved : ResolvedPluginOptions)
    (migration : SqlMigration) : GeneratorOutput :=
  {| out_path := getMigrationPath migration (Some (rp_migrationsPath resolved));
     out_content := mig_content migration;
     out_type := "migration";
     meta_version := mig_version migration;
     meta_tables := mig_tables migration;
     meta_migrationType := mig_type migration;
     meta_dialect := rp_dialect resolved |}.

(** The [generate] function of the generator that [sqlPlugin(options)]
    registers, run on the schemas of the context. *)
Definition generate (options : option SqlPluginOptions)
    (schemas : SchemaCollection) : option (Result (list GeneratorOutput)) :=
  let resolved := resolveOptions options in
  match generateMigrations schemas (Some (generatorOptions resolved)) with
  | None => None
  | Some (Throw message) => Some (Throw message)
  | Some TypeError => Some TypeError
  | Some (Ok migrations) => Some (Ok (map (outputOf resolved) migrations))
  end.

End Plugin.

(** The options of the generator that set what the options of the plugin
    set, and leave unset what they leave unset. *)
Definition sameOptions (options : option Plugin.SqlPluginOptions)
  : option SqlGeneratorOptions :=
  match options with
  | None => None
  | Some o =>
      Some {| o_dialect := Plugin.po_dialect o;
              o_ifNotExists := Plugin.po_ifNotExists o;
              o_generateDown := Plugin.po_generateDown o;
              o_startVersion := Plugin.po_startVersion o;
              o_versionPadding := Plugin.po_versionPadding o;
              o_version := None |}
  end.

(** [column] without its comment. *)
Definition withoutComment (column : SqlColumn) : SqlColumn :=
  {| col_name := col_name column; col_type := col_type column;
     col_nullable := col_nullable column;
     col_defaultValue := col_defaultValue column;
     col_primaryKey := col_primaryKey column;
     col_autoIncrement := col_autoIncrement column;
     col_unique := col_unique column; col_unsigned := col_unsigned column;
     col_comment := None |}.

(** [table] without its comment and the comments of its columns. *)
Definition withoutComments (table : SqlTable) : SqlTable :=
  {| tbl_name := tbl_name table;
     tbl_columns := withoutComment <$> tbl_columns table;
     tbl_foreignKeys := tbl_foreignKeys table;
     tbl_indexes := tbl_indexes table;
     tbl_comment := None |}.

(** A table with a comment on the table and on a column. *)
Definition commentedTable : SqlTable :=
  {| tbl_name := "users";
     tbl_columns :=
       [ {| col_name := "email"; col_type := "TEXT"; col_nullable := false;
            col_defaultValue := None; col_primaryKey := false;
            col_autoIncrement := false; col_unique := false;
            col_unsigned := false; col_comment := Some "E-mail address" |} ];
     tbl_foreignKeys := []; tbl_indexes := [];
     tbl_comment := Some "Accounts" |}.

(** * Properties *)

(** ** Strings *)

Section StringFacts.

Lemma sapp_nil_l (s : string) : EmptyString +:+ s = s.
Proof. reflexivity. Qed.

Lemma sapp_cons (c : ascii) (a b : string) :
  String c a +:+ b = String c (a +:+ b).
Proof. reflexivity. Qed.

Lemma sapp_nil_r (s : string) : s +:+ EmptyString = s.
Proof. induction s as [|c s IH]; [done|]. by rewrite sapp_cons, IH. Qed.

Lemma sapp_assoc (a b c : string) : (a +:+ b) +:+ c = a +:+ b +:+ c.
Proof. induction a as [|x a IH]; [done|]. by rewrite !sapp_cons, IH. Qed.

Lemma prefix_app (n rest : string) : String.prefix n (n +:+ rest) = true.
Proof.
  induction n as [|c n IH].
  - rewrite sapp_nil_l. by destruct rest.
  - rewrite sapp_cons. simpl. destruct (ascii_dec c c); [done|congruence].
Qed.

Lemma prefix_inv (n s : string) :
  String.prefix n s = true → ∃ rest, s = n +:+ rest.
Proof.
  revert s. induction n as [|c n IH]; intros s H.
  - by exists s.
  - destruct s as [|d s]; simpl in H; [done|].
    destruct (ascii_dec c d) as [->|]; [|done].
    destruct (IH _ H) as [rest ->]. by exists rest.
Qed.

Lemma includes_unfold (s n : string) :
  Str.includes s n =
  String.prefix n s
  || match s with
     | EmptyString => false
     | String _ rest => Str.includes rest n
     end.
Proof. by destruct s. Qed.

(** [includes] finds exactly the strings that have the needle between
    some prefix and some suffix. *)
Lemma includes_spec (s n : string) :
  Str.includes s n = true ↔ ∃ a b, s = a +:+ n +:+ b.
Proof.
  split.
  - induction s as [|c s IH]; rewrite includes_unfold; intros H.
    + apply orb_true_iff in H as [H|H]; [|done].
      apply prefix_inv in H as [rest ->]. by exists EmptyString, rest.
    + apply orb_true_iff in H as [H|H].
      * apply prefix_inv in H as [rest ->]. by exists EmptyString, rest.
      * destruct (IH H) as (a & b & ->). by exists (String c a), b.
  - intros (a & b & ->). induction a as [|c a IH].
    + rewrite sapp_nil_l, includes_unfold. by rewrite prefix_app.
    + rewrite sapp_cons, includes_unfold. rewrite IH. apply orb_true_r.
Qed.

Lemma includes_app_l (a b n : string) :
  Str.includes a n = true → Str.includes (a +:+ b) n = true.
Proof.
  rewrite !includes_spec. intros (x & y & ->).
  exists x, (y +:+ b). by rewrite !sapp_assoc.
Qed.

Lemma includes_app_r (a b n : string) :
  Str.includes b n = true → Str.includes (a +:+ b) n = true.
Proof.
  rewrite !includes_spec. intros (x & y & ->).
  exists (a +:+ x), y. by rewrite !sapp_assoc.
Qed.

Lemma includes_refl (s : string) : Str.includes s s = true.
Proof.
  apply includes_spec. exists EmptyString, EmptyString.
  by rewrite sapp_nil_r.
Qed.

Lemma includes_trans (s m n : string) :
  Str.includes s m = true → Str.includes m n = true →
  Str.includes s n = true.
Proof.
  rewrite !includes_spec. intros (a & b & ->) (x & y & ->).
  exists (a +:+ x), (y +:+ b). by rewrite !sapp_assoc.
Qed.

Lemma join_cons2 (sep x y : string) (l : list string) :
  Str.join sep (x :: y :: l) = x +:+ sep +:+ Str.join sep (y :: l).
Proof. reflexivity. Qed.

(** An element of a joined list is a part of the result. *)
Lemma includes_join (sep : string) (l : list string) (e : string) :
  e ∈ l → Str.includes (Str.join sep l) e = true.
Proof.
  induction l as [|x l IH]; intros Hin.
  - by apply elem_of_nil in Hin.
  - apply elem_of_cons in Hin as [->|Hin].
    + destruct l; [apply includes_refl|].
      rewrite join_cons2. apply includes_app_l, includes_refl.
    + destruct l as [|y l]; [by apply elem_of_nil in Hin|].
      rewrite join_cons2. by apply includes_app_r, includes_app_r, IH.
Qed.

End StringFacts.

(** ** Loops *)

Section FoldM.
Context {A S : Type} (body : S → A → option S).

(** A loop finishes when every round does, under an invariant. *)
Lemma foldM_total (I : S → Prop) (l : list A) (st : S) :
  I st →
  (∀ s x, x ∈ l → I s → ∃ s', body s x = Some s' ∧ I s') →
  ∃ st', foldM body l st = Some st' ∧ I st'.
Proof.
  revert st. induction l as [|x l IH]; intros st Hst Hbody; simpl.
  - eauto.
  - destruct (Hbody st x) as (s' & -> & Hs'); [left|done|].
    apply IH; [done|]. intros s y Hy. apply Hbody. by right.
Qed.

(** An invariant over the elements already processed. *)
Lemma foldM_inv (I : list A → S → Prop) (l : list A) (st st' : S) :
  I [] st →
  (∀ pre x post s s',
      l = pre ++ x :: post → I pre s → body s x = Some s' →
      I (pre ++ [x]) s') →
  foldM body l st = Some st' →
  I l st'.
Proof.
  intros H0 Hstep.
  enough (∀ post pre s, l = pre ++ post → I pre s →
                        foldM body post s = Some st' → I l st') as Hgen
      by (apply (Hgen l [] st); done).
  induction post as [|x post IH]; intros pre s Hl Hpre Hrun; simpl in Hrun.
  - rewrite app_nil_r in Hl. by simplify_eq.
  - destruct (body s x) as [s1|] eqn:Hb; [|done].
    apply (IH (pre ++ [x]) s1); [by rewrite <- app_assoc| |done].
    eapply Hstep; eauto.
Qed.
End FoldM.

(** ** Dictionaries *)

Lemma assoc_Some_key {A} (d : list (string * A)) k v :
  assoc k d = Some v → (k, v) ∈ d.
Proof.
  induction d as [|[k' v'] d IH]; simpl; [done|].
  case_decide; intros ?; simplify_eq; [left|right; auto].
Qed.

Lemma assoc_is_Some {A} (d : list (string * A)) k :
  is_Some (assoc k d) ↔ k ∈ d.*1.
Proof.
  induction d as [|[k' v'] d IH]; simpl.
  - split; [by intros [? ?]|by intros ?%elem_of_nil].
  - rewrite elem_of_cons. case_decide; simplify_eq.
    + split; eauto.
    + rewrite IH. split; [by right|]. by intros [?|?].
Qed.

Lemma member_Own {A} (d : list (string * A)) k v :
  member k d = Some (Own v) ↔ assoc k d = Some v.
Proof.
  unfold member. destruct (assoc k d); [naive_solver|].
  case_bool_decide; naive_solver.
Qed.

Lemma member_is_Some {A} (d : list (string * A)) k :
  k ∈ d.*1 → is_Some (member k d).
Proof.
  intros [v Hv]%assoc_is_Some. exists (Own v). by apply member_Own.
Qed.

(** A name that is not a member of [Object.prototype] is found among the
    entries or not at all. *)
Lemma member_plain {A} (d : list (string * A)) k found :
  k ∉ prototypeMembers → member k d = Some found →
  ∃ v, found = Own v ∧ assoc k d = Some v.
Proof.
  unfold member. intros Hk. destruct (assoc k d); [naive_solver|].
  by rewrite bool_decide_eq_false_2.
Qed.

(** The properties that [visit] walks through are those of the entry. *)
Lemma foundProperties_entry (schemas : SchemaCollection) n found :
  member n schemas = Some found →
  (∀ entry, entry ∈ foundProperties found →
            ∃ schema, assoc n schemas = Some schema
                      ∧ entry ∈ propertiesOf schema) ∧
  (∀ schema, assoc n schemas = Some schema →
             foundProperties found = propertiesOf schema).
Proof.
  intros Hfound. destruct found as [schema|key]; simpl.
  - apply member_Own in Hfound. split; [by eauto|]. congruence.
  - split; [by intros ? ?%elem_of_nil|].
    intros schema Hschema%member_Own. congruence.
Qed.

Lemma size_list_to_set_le (l : list string) :
  (size (list_to_set l : gset string) ≤ length l)%nat.
Proof.
  induction l as [|x l IH].
  - rewrite list_to_set_nil, size_empty. lia.
  - rewrite list_to_set_cons, size_union_alt, size_singleton.
    pose proof (subseteq_size (list_to_set l ∖ {[x]})
                  (list_to_set l : gset string)) as H.
    specialize (H ltac:(set_solver)). simpl. lia.
Qed.

(** ** The topological sort finishes *)

Section VisitTerminates.
Variable schemas : SchemaCollection.

Local Abbreviation pending := (pending schemas).

Lemma pending_mono st st' :
  entered st ⊆ entered st' → (pending st' ≤ pending st)%nat.
Proof. intros H. unfold pending. apply subseteq_size. set_solver. Qed.

Lemma pending_enter st st' n :
  n ∈ keys schemas → n ∉ entered st →
  {[n]} ∪ entered st ⊆ entered st' →
  (pending st' < pending st)%nat.
Proof.
  intros Hk Hn H. unfold pending. apply subset_size. apply strict_spec; split.
  - set_solver.
  - intros Hsub. assert (n ∈ list_to_set (keys schemas) ∖ entered st')
      by (apply Hsub; set_solver). set_solver.
Qed.

Lemma pending_bound st : (pending st ≤ length schemas)%nat.
Proof.
  unfold pending, keys.
  trans (size (list_to_set schemas.*1 : gset string)).
  - apply subseteq_size. set_solver.
  - etrans; [apply size_list_to_set_le|]. by rewrite length_fmap.
Qed.

(** With more fuel than pending names, [visit] returns, and it never
    forgets a name it has entered. *)
Lemma visit_terminates fuel n st :
  (pending st < fuel)%nat →
  ∃ st', visit schemas fuel n st = Some st' ∧ entered st ⊆ entered st'.
Proof.
  revert n st. induction fuel as [|fuel IH]; intros n st Hfuel; [lia|].
  simpl. case_bool_decide as Hvisited; [by eauto|].
  case_bool_decide as Hvisiting; [by eauto|].
  set (st1 := {| sorted := sorted st; visited := visited st;
                 visiting := {[n]} ∪ visiting st |}).
  assert (entered st1 = {[n]} ∪ entered st) as Hst1
      by (unfold entered; simpl; set_solver).
  destruct (member n schemas) as [[schema|key]|] eqn:Hfound;
    cbn [foundProperties foldM].
  - apply member_Own in Hfound as Hschema.
    assert (n ∈ keys schemas) as Hkey
        by (apply assoc_is_Some; eauto).
    assert (pending st1 < fuel)%nat as Hlt.
    { assert (pending st1 < pending st)%nat; [|lia].
      apply (pending_enter _ _ n); [done|unfold entered; set_solver|].
      by rewrite Hst1. }
    destruct (foldM_total
                (λ st (entry : string * PropertyDefinition),
                   match dependencyOf entry.2 with
                   | Some target => visit schemas fuel target st
                   | None => Some st
                   end)
                (λ s, entered st1 ⊆ entered s)
                (propertiesOf schema) st1) as (st2 & -> & Hst2); [done| |].
    + intros s entry _ Hs. destruct (dependencyOf entry.2) as [target|].
      * destruct (IH target s) as (s' & -> & Hs').
        { pose proof (pending_mono _ _ Hs). lia. }
        exists s'. split; [done|]. set_solver.
      * eauto.
    + eexists; split; [done|]. unfold entered in *; simpl in *.
      intros x Hx. destruct (decide (x = n)) as [->|]; set_solver.
  - eexists; split; [done|]. unfold entered in *; simpl in *.
    intros x Hx. destruct (decide (x = n)) as [->|]; set_solver.
  - exists st1. split; [done|]. rewrite Hst1. set_solver.
Qed.
End VisitTerminates.

Lemma topologicalSortState_total schemas :
  ∃ st, topologicalSortState schemas = Some st.
Proof.
  destruct (foldM_total
              (λ st (entry : string * LoadedSchema),
                 visit schemas (S (length schemas)) entry.1 st)
              (λ _, True) schemas emptySort) as (st & ? & _); [done| |by eauto].
  intros s entry _ _.
  destruct (visit_terminates schemas (S (length schemas)) entry.1 s)
    as (s' & ? & _); [|by eauto].
  pose proof (pending_bound schemas s). lia.
Qed.

Lemma topologicalSort_total schemas :
  ∃ sortedSchemas, topologicalSort schemas = Some sortedSchemas.
Proof.
  unfold topologicalSort.
  destruct (topologicalSortState_total schemas) as [st ->]. by eexists.
Qed.

(** [generateMigrations] always answers: the fuel of the model never runs
    out. *)
Lemma generateMigrations_total schemas options :
  ∃ result, generateMigrations schemas options = Some result.
Proof.
  unfold generateMigrations.
  destruct (validateSchemaCompatibility _ _); [|by eauto..].
  destruct (topologicalSort_total (filter notEnum schemas)) as [l ->].
  destruct (mapM schemaOf l); by eauto.
Qed.

(** ** What the topological sort returns *)

Section VisitOrders.
Variable schemas : SchemaCollection.

Local Abbreviation listed k := (is_Some (member k schemas)).
Local Abbreviation inv := (sortInv schemas).

Lemma ordered_snoc ks n :
  ordered schemas ks →
  (∀ t, dependsOn schemas n t → listed t → t ∈ ks) →
  ordered schemas (ks ++ [n]).
Proof.
  intros Hks Hn j k t Hj Hdep Ht.
  destruct (decide (j < length ks)%nat) as [Hlt|Hge].
  - rewrite lookup_app_l in Hj by done.
    destruct (Hks j k t Hj Hdep Ht) as (i & Hi & Hti).
    exists i. split; [done|]. rewrite lookup_app_l; [done|lia].
  - rewrite lookup_app_r in Hj by lia.
    apply list_lookup_singleton_Some in Hj as [Hj0 <-].
    apply Hn, list_elem_of_lookup in Hdep as [i Hi]; [|done].
    exists i. pose proof (lookup_lt_Some _ _ _ Hi).
    split; [lia|]. by rewrite lookup_app_l.
Qed.

(** A call of [visit] for [n] pushes [n], unless it is in progress, and
    leaves the listed names in progress as they were.  On an acyclic
    graph, when every listed name in progress depends on [n], the call
    pushes [n] after all that it depends on. *)
Lemma visit_spec fuel n st st' ks :
  visit schemas fuel n st = Some st' →
  inv st ks →
  (acyclic schemas →
   ∀ v, v ∈ visiting st → listed v → tc (dependsOn schemas) v n) →
  ∃ ks',
    inv st' (ks ++ ks') ∧
    (listed n → n ∈ visited st' ∨ n ∈ visiting st) ∧
    visiting st ⊆ visiting st' ∧
    (∀ v, listed v → v ∈ visiting st' → v ∈ visiting st).
Proof.
  revert n st st' ks.
  induction fuel as [|fuel IH]; intros n st st' ks Hrun Hinv Hpre; [done|].
  simpl in Hrun.
  case_bool_decide as Hvisited.
  { simplify_eq. exists []. rewrite app_nil_r. split_and!; auto. }
  case_bool_decide as Hvisiting.
  { simplify_eq. exists []. rewrite app_nil_r. split_and!; auto. }
  set (st1 := {| sorted := sorted st; visited := visited st;
                 visiting := {[n]} ∪ visiting st |}) in *.
  assert (inv st1 ks) as Hinv1.
  { destruct Hinv. split; try done. simpl. set_solver. }
  destruct (member n schemas) as [found|] eqn:Hfound; last first.
  { simplify_eq. exists []. rewrite app_nil_r.
    split_and!; [done|by intros [? ?]|set_solver|].
    intros v Hv Hin. simpl in Hin.
    apply elem_of_union in Hin as [Hin%elem_of_singleton|]; [subst v|done].
    rewrite Hfound in Hv. by destruct Hv. }
  destruct (foundProperties_entry schemas n found Hfound) as [Hentries Hown].
  destruct (foldM _ _ _) as [st2|] eqn:Hloop; [|done]. simplify_eq.
  pose (I := λ (pre : list (string * PropertyDefinition)) (s : SortState),
          ∃ ks',
            inv s (ks ++ ks') ∧
            visiting st1 ⊆ visiting s ∧
            (∀ v, listed v → v ∈ visiting s → v ∈ visiting st1) ∧
            (∀ entry t, entry ∈ pre → dependencyOf entry.2 = Some t →
                        listed t → t ∈ visited s ∨ t ∈ visiting st1)).
  assert (I (foundProperties found) st2)
    as (ks2 & Hinv2 & Hsub2 & Hkeys2 & Hdeps2).
  { eapply (foldM_inv _ I); [| |exact Hloop].
    - exists []. rewrite app_nil_r. split_and!; [done|done|done|].
      by intros ?? ?%elem_of_nil.
    - intros pre x post s s' Hprops (ks' & Hs & Hsub & Hkeys & Hdeps) Hbody.
      destruct (dependencyOf x.2) as [target|] eqn:Hdep; last first.
      { simplify_eq. exists ks'. split_and!; [done|done|done|].
        intros entry t [Hin|Hin%list_elem_of_singleton]%elem_of_app ??;
          [eauto|congruence]. }
      destruct (IH _ _ _ _ Hbody Hs) as (ks'' & Hs' & Htarget & Hsub' & Hkeys').
      { intros Hacyclic v Hv Hlisted. apply Hkeys in Hv; [|done]. simpl in Hv.
        assert (dependsOn schemas n target) as Hedge.
        { destruct (Hentries x) as (schema & Hschema & Hx);
            [rewrite Hprops; set_solver|].
          by exists schema, x. }
        apply elem_of_union in Hv as [Hv%elem_of_singleton|Hv].
        - subst v. by apply tc_once.
        - eapply tc_r; [|exact Hedge]. by apply Hpre. }
      exists (ks' ++ ks''). rewrite app_assoc.
      split_and!; [done|set_solver|by eauto|].
      intros entry t [Hin|Hin%list_elem_of_singleton]%elem_of_app Het Ht.
      + destruct (Hdeps entry t Hin Het Ht) as [Hv|Hv]; [left|by right].
        apply (inv_visited _ _ _ Hs'), elem_of_app. left.
        by apply (inv_visited _ _ _ Hs).
      + subst entry. assert (t = target) as -> by congruence.
        destruct (Htarget Ht); [by left|right; auto]. }
  assert (n ∈ visiting st2) as Hn2 by set_solver.
  assert (n ∉ visited st2) as Hn2'.
  { pose proof (inv_disjoint _ _ _ Hinv2). set_solver. }
  exists (ks2 ++ [n]). rewrite app_assoc. split_and!.
  - destruct Hinv2 as [Hs2 Hv2 Ho2 Hnd2 Hdj2]. split; simpl.
    + apply Forall2_app; [done|]. by repeat constructor.
    + intros k. rewrite elem_of_app, list_elem_of_singleton, <- Hv2.
      set_solver.
    + intros Hacyclic. apply ordered_snoc; [auto|].
      intros t Hedge Ht.
      pose proof Hedge as (schema & entry & Hschema & Hentry & Hdep).
      rewrite <- (Hown schema Hschema) in Hentry.
      destruct (Hdeps2 entry t Hentry Hdep Ht) as [Hv|Hv]; [by apply Hv2|].
      destruct (Hacyclic t). simpl in Hv.
      apply elem_of_union in Hv as [Hv%elem_of_singleton|Hv].
      * subst t. by apply tc_once.
      * eapply tc_r; [|exact Hedge].
        apply Hpre; [done|done|]. by eauto.
    + apply NoDup_app. split_and!; [done| |apply NoDup_singleton].
      intros x Hx Hxn%list_elem_of_singleton. subst x. by apply Hn2', Hv2.
    + set_solver.
  - intros _. left. simpl. set_solver.
  - simpl. intros v Hv. apply elem_of_difference. split; [set_solver|].
    intros Hvn%elem_of_singleton. by subst v.
  - simpl. intros v Hlisted [Hv Hne]%elem_of_difference.
    apply Hkeys2 in Hv; [|done]. simpl in Hv. set_solver.
Qed.

(** The whole sort: every listed name is pushed once and, on an acyclic
    graph, after the listed names it depends on. *)
Lemma topologicalSortState_spec st :
  topologicalSortState schemas = Some st →
  ∃ ks, inv st ks ∧ (∀ k, k ∈ keys schemas → k ∈ ks).
Proof.
  intros Hrun.
  pose (I := λ (pre : list (string * LoadedSchema)) (s : SortState),
          ∃ ks, inv s ks ∧
                (∀ v, listed v → v ∉ visiting s) ∧
                (∀ k, k ∈ pre.*1 → k ∈ ks)).
  assert (I schemas st) as (ks & Hinv & _ & Hall).
  { eapply (foldM_inv _ I); [| |exact Hrun].
    - exists []. split_and!.
      + split; simpl.
        * apply Forall2_nil_2.
        * intros k. set_solver.
        * intros _ j k t Hj. by rewrite lookup_nil in Hj.
        * apply NoDup_nil_2.
        * set_solver.
      + intros v _. simpl. set_solver.
      + intros k. simpl. by intros ?%elem_of_nil.
    - intros pre x post s s' Hl (ks & Hs & Hnone & Hpre) Hbody.
      destruct (visit_spec _ _ _ _ _ Hbody Hs) as (ks' & Hs' & Hx & _ & Hkeys).
      { intros _ v Hv Hlisted. by destruct (Hnone v). }
      exists (ks ++ ks'). split_and!;
        [done|intros v Hv Hin; by eapply Hnone, Hkeys|].
      intros k. rewrite fmap_app, elem_of_app. intros [Hk|Hk].
      + apply elem_of_app. left. eauto.
      + apply list_elem_of_singleton in Hk as ->.
        assert (listed x.1) as Hlisted.
        { apply member_is_Some. rewrite Hl, fmap_app. set_solver. }
        apply (inv_visited _ _ _ Hs').
        destruct (Hx Hlisted) as [?|Hin]; [done|]. by destruct (Hnone x.1). }
  exists ks. split; [done|]. intros k Hk. by apply Hall.
Qed.

(** The sort lists every schema of the collection, and what it lists was
    found under names that are listed once. *)
Lemma topologicalSort_listed sortedSchemas :
  topologicalSort schemas = Some sortedSchemas →
  (∀ k schema, assoc k schemas = Some schema → Own schema ∈ sortedSchemas) ∧
  (∀ found, found ∈ sortedSchemas → ∃ k, member k schemas = Some found) ∧
  ∃ ks, NoDup ks ∧ listedAs schemas ks sortedSchemas
        ∧ ∀ k, k ∈ keys schemas → k ∈ ks.
Proof.
  unfold topologicalSort. intros Hrun.
  destruct (topologicalSortState schemas) as [st|] eqn:Hst; [|done].
  simpl in Hrun. simplify_eq.
  destruct (topologicalSortState_spec st Hst) as (ks & Hinv & Hall).
  pose proof (inv_sorted _ _ _ Hinv) as Hsorted. split_and!.
  - intros k schema Hk.
    assert (k ∈ ks) as [i Hi]%list_elem_of_lookup
        by (apply Hall, assoc_is_Some; eauto).
    destruct (Forall2_lookup_l _ _ _ _ _ Hsorted Hi) as (found & Hi' & Hfound).
    apply member_Own in Hk.
    apply list_elem_of_lookup. exists i. congruence.
  - intros found [i Hi]%list_elem_of_lookup.
    destruct (Forall2_lookup_r _ _ _ _ _ Hsorted Hi) as (k & ? & ?). eauto.
  - exists ks. split_and!; [by destruct Hinv|done|done].
Qed.

End VisitOrders.

(** ** The schemas that the loops go through *)




(** When the sort has listed schemas only, the loops go through them. *)
Lemma schemaOf_Own (schemas : list LoadedSchema) :
  mapM schemaOf (Own <$> schemas) = Some schemas.
Proof. by apply mapM_fmap_Some. Qed.

(** ** The sort on plain targets *)

Lemma plainTargets_filter schemas :
  plainTargets schemas → plainTargets (filter notEnum schemas).
Proof.
  unfold plainTargets. rewrite !Forall_forall.
  intros Hall entry [_ Hentry]%list_elem_of_filter. by apply Hall.
Qed.

Section VisitPlain.
Variable schemas : SchemaCollection.
Hypothesis Hplain : plainTargets schemas.

Local Abbreviation schemasOnly :=
  (Forall (λ found : Member LoadedSchema, ∃ schema, found = Own schema)).

Lemma dependency_plain k schema entry target :
  (k, schema) ∈ schemas → entry ∈ propertiesOf schema →
  dependencyOf entry.2 = Some target → target ∉ prototypeMembers.
Proof.
  intros Hk Hentry Hdep.
  unfold plainTargets in Hplain. rewrite Forall_forall in Hplain.
  specialize (Hplain _ Hk). rewrite Forall_forall in Hplain.
  specialize (Hplain _ Hentry). unfold dependencyOf in Hdep.
  destruct (_ && _); [|done]. by rewrite Hdep in Hplain.
Qed.

(** A call of [visit] for a schema of the collection, or for a plain
    name, lists schemas only. *)
Lemma visit_plain fuel n st st' :
  n ∈ keys schemas ∨ n ∉ prototypeMembers →
  visit schemas fuel n st = Some st' →
  schemasOnly (sorted st) → schemasOnly (sorted st').
Proof.
  revert n st st'.
  induction fuel as [|fuel IH]; intros n st st' Hn Hrun Hst; [done|].
  simpl in Hrun.
  case_bool_decide; [by simplify_eq|].
  case_bool_decide; [by simplify_eq|].
  destruct (member n schemas) as [found|] eqn:Hfound; [|by simplify_eq].
  assert (∃ schema, found = Own schema ∧ assoc n schemas = Some schema)
    as (schema & -> & Hschema).
  { destruct Hn as [Hn|Hn]; [|by apply member_plain].
    apply assoc_is_Some in Hn as [schema Hs]. exists schema. split; [|done].
    apply member_Own in Hs. congruence. }
  simpl in Hrun.
  destruct (foldM _ _ _) as [st2|] eqn:Hloop; [|done]. simplify_eq. simpl.
  apply Forall_app. split; [|repeat constructor; by eauto].
  eapply (foldM_inv _ (λ _ s, schemasOnly (sorted s))); [| |exact Hloop].
  - done.
  - intros pre x post s s' Hprops Hs Hbody. simpl in Hbody.
    destruct (dependencyOf x.2) as [target|] eqn:Hdep; [|by simplify_eq].
    eapply IH; [|exact Hbody|done]. right.
    eapply dependency_plain; [by apply assoc_Some_key| |done].
    rewrite Hprops. set_solver.
Qed.

Lemma topologicalSort_plain sortedSchemas :
  topologicalSort schemas = Some sortedSchemas →
  ∃ l, sortedSchemas = Own <$> l.
Proof.
  unfold topologicalSort, topologicalSortState. intros Hrun.
  destruct (foldM _ _ _) as [st|] eqn:Hloop; [|done].
  simpl in Hrun. simplify_eq.
  assert (schemasOnly (sorted st)) as Hall.
  { eapply (foldM_inv _ (λ _ s, schemasOnly (sorted s))); [| |exact Hloop].
    - by apply Forall_nil.
    - intros pre x post s s' Hl Hs Hbody. cbv beta in Hbody.
      eapply visit_plain; [|exact Hbody|done]. left.
      unfold keys. rewrite Hl, fmap_app. set_solver. }
  clear Hloop. induction (sorted st) as [|found l IH].
  - by exists [].
  - apply Forall_cons in Hall as [[schema ->] Hall].
    destruct (IH Hall) as [l' ->]. by exists (schema :: l').
Qed.
End VisitPlain.

(** The artifacts of a run that returns come from the two loops over what
    the sort has listed. *)
Lemma generateMigrations_loops schemas options migs :
  generateMigrations schemas options = Some (Ok migs) →
  ∃ listed sortedSchemas,
    topologicalSort (filter notEnum schemas) = Some listed ∧
    mapM schemaOf listed = Some sortedSchemas ∧
    migs = migrations (emitAll schemas (resolveOptions options) sortedSchemas).
Proof.
  unfold generateMigrations. cbv zeta. intros Hrun.
  destruct (validateSchemaCompatibility _ _); [|done..].
  destruct (topologicalSort _) as [listed|]; [|done].
  destruct (mapM schemaOf listed) as [sortedSchemas|] eqn:Hl; [|done].
  simplify_eq. by eauto.
Qed.

(** After a validation that has passed, a collection with plain targets
    gets its artifacts from the two loops over its sorted schemas. *)
Lemma generateMigrations_plain schemas options :
  plainTargets schemas →
  validateSchemaCompatibility schemas (dialect (resolveOptions options))
  = Ok () →
  ∃ sortedSchemas,
    topologicalSort (filter notEnum schemas) = Some (Own <$> sortedSchemas) ∧
    generateMigrations schemas options
    = Some (Ok (migrations
                  (emitAll schemas (resolveOptions options) sortedSchemas))).
Proof.
  intros Hplain Hpass. unfold generateMigrations. rewrite Hpass.
  destruct (topologicalSort_total (filter notEnum schemas)) as [l Hsort].
  destruct (topologicalSort_plain _ (plainTargets_filter _ Hplain) _ Hsort)
    as [sortedSchemas ->].
  exists sortedSchemas. split; [done|].
  rewrite Hsort. by rewrite schemaOf_Own.
Qed.

Lemma generateMigrations_sorted schemas options migs :
  plainTargets schemas →
  generateMigrations schemas options = Some (Ok migs) →
  ∃ sortedSchemas,
    topologicalSort (filter notEnum schemas) = Some (Own <$> sortedSchemas) ∧
    migs = migrations (emitAll schemas (resolveOptions options) sortedSchemas).
Proof.
  intros Hplain Hrun.
  destruct (generateMigrations_loops _ _ _ Hrun)
    as (listed & sortedSchemas & Hsort & Hl & ->).
  destruct (topologicalSort_plain _ (plainTargets_filter _ Hplain) _ Hsort)
    as [l ->].
  rewrite schemaOf_Own in Hl. simplify_eq. by eauto.
Qed.

(** ** Versions and file names *)

Lemma fill_zeros (cur : string) (n : nat) :
  (∀ c, c ∈ list_ascii_of_string cur → c = "0"%char) →
  Str.fill "0" cur n = zeros n.
Proof.
  revert cur. induction n as [|n IH]; intros cur Hcur; [done|].
  unfold zeros in *. simpl. destruct cur as [|c rest].
  - f_equal. apply (IH EmptyString). by intros ? ?%elem_of_nil.
  - simpl in Hcur. rewrite (Hcur c) by left. f_equal.
    apply IH. intros d Hd. apply Hcur. by right.
Qed.

(** [padStart] with the pad string [0]. *)
Lemma padStart_zeros (s : string) (padding : Z) :
  Str.padStart s padding "0"
  = zeros (Z.to_nat (padding - Z.of_nat (String.length s))) +:+ s.
Proof.
  unfold Str.padStart. case_match eqn:Hle.
  - apply Z.leb_le in Hle.
    replace (Z.to_nat _) with O by lia. done.
  - f_equal. apply fill_zeros. simpl.
    intros c [->|[]%elem_of_nil]%elem_of_cons. done.
Qed.

(** Up to 2^53 the counter counts. *)
Lemma succ_exact (x : Z) :
  - safeBound ≤ x + 1 ≤ safeBound → Num.succ x = x + 1.
Proof.
  unfold Num.succ, Num.round, safeBound. intros Hx.
  rewrite (proj2 (Z.leb_le _ _)); [done|lia].
Qed.

Lemma versionAt_S (start : Z) (i : nat) :
  versionAt start (S i) = versionAt (Num.succ start) i.
Proof. unfold versionAt. apply Nat.iter_succ_r. Qed.

Lemma versionAt_exact (start : Z) (i : nat) :
  - safeBound ≤ start → start + Z.of_nat i ≤ safeBound →
  versionAt start i = start + Z.of_nat i.
Proof.
  intros Hlow. induction i as [|i IH]; intros Hhigh.
  - unfold versionAt. simpl. lia.
  - unfold versionAt in *. simpl. rewrite IH by lia.
    rewrite succ_exact; lia.
Qed.

(** Up to 2^53 a number is printed with all its digits. *)
Lemma ofZ_decimal (v : Z) :
  - safeBound ≤ v ≤ safeBound → Str.ofZ v = Str.decimal v.
Proof.
  unfold safeBound. intros Hv. unfold Str.ofZ, Str.ofPos.
  destruct (Z.ltb_spec v 0).
  - rewrite (proj2 (Z.leb_le _ _)) by lia. by destruct v.
  - by rewrite (proj2 (Z.leb_le _ _)) by lia.
Qed.

Lemma generateFileName_decimal (v : Z) (name : string) (padding : Z) :
  - safeBound ≤ v ≤ safeBound →
  generateFileName v name padding =
    zeros (Z.to_nat (padding - Z.of_nat (String.length (Str.decimal v))))
    +:+ Str.decimal v +:+ "_" +:+ name +:+ ".sql".
Proof.
  intros Hv. unfold generateFileName, formatVersion.
  by rewrite ofZ_decimal, padStart_zeros, sapp_assoc.
Qed.

Section Loops.
Context {A S : Type} (f : S → A → S).

Lemma fold_left_inv (I : S → Prop) (l : list A) (st : S) :
  I st → (∀ s x, x ∈ l → I s → I (f s x)) → I (fold_left f l st).
Proof.
  revert st. induction l as [|x l IH]; intros st Hst Hstep; simpl; [done|].
  apply IH; [apply Hstep; [left|done]|].
  intros s y Hy. apply Hstep. by right.
Qed.

(** What a round for [x] establishes, and the later rounds keep, holds
    at the end of a loop over a list that has [x]. *)
Lemma fold_left_reach (P : S → Prop) (l : list A) (x : A) (st : S) :
  x ∈ l → (∀ s, P (f s x)) → (∀ s y, P s → P (f s y)) →
  P (fold_left f l st).
Proof.
  intros Hx Hnow Hkeep.
  apply list_elem_of_split in Hx as (l1 & l2 & ->).
  rewrite fold_left_app. simpl.
  apply fold_left_inv; [apply Hnow|]. intros s y _. apply Hkeep.
Qed.
End Loops.

Section Emit.
Variable schemas : SchemaCollection.
Variable resolved : ResolvedSqlOptions.

Lemma counterInv_push st table type :
  counterInv resolved st →
  counterInv resolved
    {| migrations := migrations st ++ [migrationOf (version st) table type resolved];
       version := Num.succ (version st);
       createdPivots := createdPivots st |}.
Proof.
  intros [Hv Hall]. split; simpl.
  - rewrite length_app, Nat.add_1_r, Hv. reflexivity.
  - intros i m Hi. apply lookup_app_Some in Hi as [Hi|[Hge Hi]]; [by apply Hall|].
    apply list_lookup_singleton_Some in Hi as [Hi <-].
    split; [|reflexivity]. simpl. rewrite Hv. f_equal. lia.
Qed.

Lemma counterInv_emitCreate st schema :
  counterInv resolved st → counterInv resolved (emitCreate schemas resolved st schema).
Proof. apply counterInv_push. Qed.

Lemma counterInv_emitPivot st table :
  counterInv resolved st → counterInv resolved (emitPivot resolved table st).
Proof.
  intros Hst. unfold emitPivot. destruct table as [table|]; [|done].
  case_bool_decide; [done|]. apply (counterInv_push st table pivot Hst).
Qed.

Lemma counterInv_emitPivots st schema entry :
  counterInv resolved st →
  counterInv resolved (emitPivots schemas resolved schema st entry).
Proof.
  intros Hst. destruct entry as [propName property]. simpl.
  by apply counterInv_emitPivot, counterInv_emitPivot.
Qed.

Lemma counterInv_emitAll sortedSchemas :
  counterInv resolved (emitAll schemas resolved sortedSchemas).
Proof.
  unfold emitAll. apply fold_left_inv.
  - apply fold_left_inv.
    + split; simpl; [done|]. intros i m Hi. by rewrite lookup_nil in Hi.
    + intros s x _. apply counterInv_emitCreate.
  - intros s schema _ Hs. apply fold_left_inv; [done|].
    intros s' entry _. apply counterInv_emitPivots.
Qed.

(** The first loop pushes the create artifacts of the sorted schemas, in
    order. *)
Lemma fold_emitCreate sortedSchemas st :
  fold_left (emitCreate schemas resolved) sortedSchemas st =
  {| migrations :=
       migrations st ++
       imap (λ i schema,
               createArtifact schemas resolved (versionAt (version st) i) schema)
            sortedSchemas;
     version := versionAt (version st) (length sortedSchemas);
     createdPivots := createdPivots st |}.
Proof.
  revert st. induction sortedSchemas as [|schema l IH]; intros st.
  - simpl. rewrite app_nil_r. by destruct st.
  - simpl fold_left. rewrite IH. unfold emitCreate at 1 2 3. simpl.
    f_equal.
    + rewrite <- app_assoc. f_equal. simpl. f_equal.
      apply imap_ext. intros i x _. simpl. by rewrite versionAt_S.
    + by rewrite versionAt_S.
Qed.


End Emit.

(** ** Dependency order of the create artifacts *)


(** The foreign keys of a table are its schema's dependencies: a property
    yields a foreign key exactly when [visit] descends into its target,
    and the key references the target's table. *)
Lemma generateForeignKey_dependency name property schema dialect allSchemas :
  match generateForeignKey name property schema dialect allSchemas with
  | Some (column, foreignKey) =>
      ∃ target, dependencyOf property = Some target
                ∧ fk_referencesTable foreignKey = toTableName target
  | None => dependencyOf property = None
  end.
Proof.
  unfold generateForeignKey, dependencyOf.
  destruct (bool_decide (p_type property = "Association")); simpl; [|done].
  destruct (isOwningRelation (p_relation property)); simpl; [|done].
  destruct (p_target property) as [[|c target]|]; simpl; try done.
  by eexists.
Qed.




Lemma generateMigrations_counted schemas options migs (i : nat) m :
  generateMigrations schemas options = Some (Ok migs) →
  migs !! i = Some m →
  mig_version m = versionAt (startVersion (resolveOptions options)) i ∧
  mig_fileName m =
    generateFileName (mig_version m) (mig_name m)
      (versionPadding (resolveOptions options)).
Proof.
  intros Hrun. unfold generateMigrations in Hrun. cbv zeta in Hrun.
  destruct (validateSchemaCompatibility _ _); [|done..].
  destruct (topologicalSort _) as [sortedSchemas|]; [|done].
  destruct (mapM schemaOf sortedSchemas) as [l|]; [|done].
  simplify_eq. apply counterInv_emitAll.
Qed.

(** While the counter stays within 2^53, the artifact at position [i] has
    the version [start + i], printed with all its digits. *)
Lemma generateMigrations_versioned schemas options migs :
  - safeBound ≤ startVersion (resolveOptions options) →
  startVersion (resolveOptions options) + Z.of_nat (length migs) ≤ safeBound →
  generateMigrations schemas options = Some (Ok migs) →
  versionedFrom (startVersion (resolveOptions options))
    (versionPadding (resolveOptions options)) migs.
Proof.
  intros Hlow Hhigh Hrun i m Hi.
  destruct (generateMigrations_counted _ _ _ _ _ Hrun Hi) as [Hv Hf].
  apply lookup_lt_Some in Hi as Hlt.
  rewrite versionAt_exact in Hv by lia.
  split; [done|]. rewrite Hf. apply generateFileName_decimal. lia.
Qed.

(** C3, as stated, fails: versions are doubles, and from 2^53 on
    [version++] no longer changes the counter, so that all the artifacts of
    a run that starts there carry the same version; below -2^53 the
    increment skips a number, so that the versions are not consecutive. *)
Lemma C3_counterexample :
  (∃ migs,
      generateMigrations Examples.blog fromLimit = Some (Ok migs) ∧
      mig_version <$> migs
      = [9007199254740992; 9007199254740992; 9007199254740992] ∧
      ¬ NoDup (mig_version <$> migs)) ∧
  (∃ migs,
      generateMigrations Examples.blog fromBelowLimit = Some (Ok migs) ∧
      mig_version <$> migs
      = [-9007199254740994; -9007199254740992; -9007199254740991] ∧
      ¬ versionedFrom (-9007199254740994) 6 migs).
Proof.
  split.
  - eexists. split; [by vm_compute|]. split; [reflexivity|].
    intros Hnd. apply NoDup_cons in Hnd as [Hnotin _]. apply Hnotin. left.
  - eexists. split; [by vm_compute|]. split; [reflexivity|].
    intros Hversioned.
    by destruct (Hversioned 1%nat _ eq_refl) as [Hversion _].
Qed.

(** C3, amended: when startVersion is an integer not below -2^53 and
    startVersion plus the number of artifacts does not exceed 2^53, the
    artifacts that generateMigrations returns carry the versions
    startVersion, startVersion + 1, ... in the order of the list, so they
    increase strictly and none is used twice; and every file name is the
    decimal numeral of the version padded with zeros to versionPadding
    characters, followed by [_], the artifact's name and [.sql]. *)
Theorem C3_versions_and_file_names schemas options migs :
  let resolved := resolveOptions options in
  - safeBound ≤ startVersion resolved →
  startVersion resolved + Z.of_nat (length migs) ≤ safeBound →
  generateMigrations schemas options = Some (Ok migs) →
  versionedFrom (startVersion resolved) (versionPadding resolved) migs ∧
  (∀ (i j : nat) mi mj,
      migs !! i = Some mi → migs !! j = Some mj → (i < j)%nat →
      mig_version mi < mig_version mj) ∧
  NoDup (mig_version <$> migs).
Proof.
  intros resolved Hlow Hhigh Hrun.
  pose proof (generateMigrations_versioned _ _ _ Hlow Hhigh Hrun) as Hversioned.
  assert (∀ (i j : nat) mi mj,
             migs !! i = Some mi → migs !! j = Some mj → (i < j)%nat →
             mig_version mi < mig_version mj) as Hincreasing.
  { intros i j mi mj Hi Hj Hij.
    destruct (Hversioned i mi Hi) as [-> _].
    destruct (Hversioned j mj Hj) as [-> _]. lia. }
  split_and!; [done|done|].
  apply NoDup_alt. intros i j v Hi Hj.
  apply list_lookup_fmap_Some in Hi as (mi & -> & Hi).
  apply list_lookup_fmap_Some in Hj as (mj & Hv & Hj).
  destruct (Hversioned i mi Hi) as [Hvi _].
  destruct (Hversioned j mj Hj) as [Hvj _]. lia.
Qed.

Lemma C3_witness :
  generateMigrations Examples.blog fromTen = Some (Ok blogFromTen) ∧
  versionedFrom 10 6 blogFromTen ∧
  mig_fileName <$> blogFromTen =
    ["000010_create_users.sql"; "000011_create_posts.sql";
     "000012_create_comments.sql"].
Proof.
  split; [by vm_compute|]. split; [|by vm_compute].
  apply (C3_versions_and_file_names Examples.blog fromTen blogFromTen);
    by vm_compute.
Defined.

(** ** Validation *)

(** Checks that the names of a given collection are plain. *)
Ltac plain_names :=
  unfold plainNames, plainTypes, plainTargets;
  repeat match goal with
         | |- Forall _ _ => constructor
         | |- _ ∧ _ => split
         | |- _ ≠ _ → _ => intros _
         | |- True => exact I
         | |- _ ∉ _ => compute_done
         | |- _ => progress simpl
         end.

(** Evaluates the membership tests of a dialect in a table row. *)
Ltac eval_bool_decide :=
  repeat match goal with
         | |- context [bool_decide ?P] =>
             let b := eval vm_compute in (bool_decide P) in
             change (bool_decide P) with b
         end.

Lemma incompatible_type_iff dialect propType :
  (∃ inc, incompatibleIn DIALECT_INCOMPATIBLE_TYPES propType dialect
          = Ok (Some inc))
  ↔ typeViolation dialect propType.
Proof.
  unfold incompatibleIn, member, typeViolation, DIALECT_INCOMPATIBLE_TYPES.
  simpl.
  case_decide as Ht.
  - subst propType. destruct dialect; eval_bool_decide; simpl; split;
      first [by intros [? ?] | by intros [_ ?] | by eauto].
  - split; [|intros [? _]; congruence].
    intros [inc Hinc]. by case_bool_decide.
Qed.

Lemma incompatible_index_iff dialect indexType :
  (∃ inc, incompatibleIn DIALECT_INCOMPATIBLE_INDEX_TYPES indexType dialect
          = Ok (Some inc))
  ↔ indexViolation dialect indexType.
Proof.
  unfold incompatibleIn, member, indexViolation,
    DIALECT_INCOMPATIBLE_INDEX_TYPES.
  simpl.
  repeat (case_decide; [subst indexType|]);
    try (destruct dialect; eval_bool_decide; simpl;
         (split; [intros [? ?]; simplify_eq
                 |intros [[[?|?] ?]|[[?|?] ?]]; simplify_eq]);
         by eauto 6).
  split; [intros [inc Hinc]; by case_bool_decide|].
  intros [[[?|?] ?]|[[?|?] ?]]; congruence.
Qed.

(** A key that names no member of [Object.prototype] is looked up without
    failure. *)
Lemma incompatibleIn_plain table key dialect :
  key ∉ prototypeMembers → ∃ found, incompatibleIn table key dialect = Ok found.
Proof.
  intros Hkey. unfold incompatibleIn, member.
  destruct (assoc key table); [by eauto|].
  rewrite bool_decide_eq_false_2 by done. by eauto.
Qed.

(** A loop that ends has pushed what its rounds push. *)
Lemma collect_Ok {A} (round : A → Result (list string)) (l : list A) errors :
  collect round l = Ok errors →
  (∀ x, x ∈ l → ∃ pushed, round x = Ok pushed ∧ ∀ e, e ∈ pushed → e ∈ errors) ∧
  (∀ e, e ∈ errors → ∃ x pushed, x ∈ l ∧ round x = Ok pushed ∧ e ∈ pushed).
Proof.
  revert errors. induction l as [|y l IH]; intros errors Hc; simpl in Hc.
  - simplify_eq. split; [by intros ? ?%elem_of_nil|by intros ? ?%elem_of_nil].
  - destruct (round y) as [pushed| |] eqn:Hy; [|done..].
    destruct (collect round l) as [more| |] eqn:Hl; [|done..]. simplify_eq.
    destruct (IH more eq_refl) as [IH1 IH2]. split.
    + intros x [->|Hx]%elem_of_cons.
      * exists pushed. split; [done|]. intros e He. apply elem_of_app. by left.
      * destruct (IH1 x Hx) as (p & Hp & Hin). exists p. split; [done|].
        intros e He. apply elem_of_app. right. by apply Hin.
    + intros e [He|He]%elem_of_app.
      * exists y, pushed. split_and!; [left|done|done].
      * destruct (IH2 e He) as (x & p & Hx & Hp & Hin).
        exists x, p. split_and!; [by right|done|done].
Qed.

Lemma collect_total {A} (round : A → Result (list string)) (l : list A) :
  (∀ x, x ∈ l → ∃ pushed, round x = Ok pushed) →
  ∃ errors, collect round l = Ok errors.
Proof.
  induction l as [|y l IH]; intros Hall; simpl; [by eauto|].
  destruct (Hall y) as [pushed ->]; [left|].
  destruct IH as [more ->]; [|by eauto].
  intros x Hx. apply Hall. by right.
Qed.

Lemma schemaErrors_Ok dialect schemaName schema pushed :
  schemaErrors dialect (schemaName, schema) = Ok pushed →
  sch_kind schema ≠ Some KEnum →
  ∃ fromProperties fromIndexes,
    collect (propertyErrors schemaName dialect) (propertiesOf schema)
    = Ok fromProperties ∧
    collect (indexErrors schemaName dialect)
      (orElse (optionOf schema so_indexes) []) = Ok fromIndexes ∧
    pushed = fromProperties ++ fromIndexes.
Proof.
  unfold schemaErrors. intros Hs Hkind.
  rewrite bool_decide_eq_false_2 in Hs by done.
  destruct (collect (propertyErrors _ _) _) as [a| |]; [|done..].
  destruct (collect (indexErrors _ _) _) as [b| |]; [|done..].
  simplify_eq. by eauto.
Qed.

(** With no inherited name among the types, the loops of the validation
    end. *)
Lemma compatibilityErrors_plain schemas dialect :
  plainTypes schemas → ∃ errors, compatibilityErrors schemas dialect = Ok errors.
Proof.
  intros Hplain. apply collect_total. intros [schemaName schema] Hs.
  unfold schemaErrors. case_bool_decide as Hkind; [by eauto|].
  unfold plainTypes in Hplain. rewrite Forall_forall in Hplain.
  destruct (Hplain _ Hs Hkind) as [Htypes Hindexes].
  rewrite Forall_forall in Htypes. rewrite Forall_forall in Hindexes.
  destruct (collect_total (propertyErrors schemaName dialect)
              (propertiesOf schema)) as [a ->].
  { intros [propName property] Hp. unfold propertyErrors.
    destruct (incompatibleIn_plain DIALECT_INCOMPATIBLE_TYPES
                (p_type property) dialect) as [[inc|] ->]; [|by eauto..].
    apply (Htypes _ Hp). }
  destruct (collect_total (indexErrors schemaName dialect)
              (orElse (optionOf schema so_indexes) [])) as [b ->];
    [|by eauto].
  intros indexDef Hi. unfold indexErrors.
  destruct (ix_type indexDef) as [type|] eqn:Ht; [|by eauto].
  destruct (truthy (Some type)); [|by eauto]. simpl.
  destruct (incompatibleIn_plain DIALECT_INCOMPATIBLE_INDEX_TYPES type dialect)
    as [[inc|] ->]; [|by eauto..].
  specialize (Hindexes indexDef Hi). by rewrite Ht in Hindexes.
Qed.

(** The validation throws nothing but the aggregated error of its last
    statement: no round of its loops throws an [Error]. *)
Lemma collect_Throw {A} (round : A → Result (list string)) (l : list A) message :
  collect round l = Throw message → ∃ x, x ∈ l ∧ round x = Throw message.
Proof.
  induction l as [|y l IH]; simpl; [done|]. intros Hc.
  destruct (round y) as [pushed|m|] eqn:Hy; [| |done].
  - destruct (collect round l) as [more|m|]; [done| |done].
    destruct IH as (x & Hx & Hm); [done|]. exists x. split; [by right|done].
  - exists y. split; [left|congruence].
Qed.

Lemma compatibilityErrors_no_Throw schemas dialect message :
  compatibilityErrors schemas dialect ≠ Throw message.
Proof.
  intros ([schemaName schema] & _ & Hs)%collect_Throw.
  unfold schemaErrors in Hs. case_bool_decide; [done|].
  destruct (collect (propertyErrors _ _) _) as [a|m|] eqn:Ha; [| |done].
  - destruct (collect (indexErrors _ _) _) as [b|m|] eqn:Hb; [done| |done].
    apply collect_Throw in Hb as (indexDef & _ & Hb).
    unfold indexErrors, incompatibleIn, member in Hb.
    repeat case_match; simplify_eq.
  - apply collect_Throw in Ha as ([propName property] & _ & Ha).
    unfold propertyErrors, incompatibleIn, member in Ha.
    repeat case_match; simplify_eq.
Qed.

(** Every entry of [errors] starts with the text that identifies a
    violation, and every violation has its entry. *)
Lemma violation_reported schemas dialect errors text :
  compatibilityErrors schemas dialect = Ok errors →
  Violation schemas dialect text →
  ∃ e, e ∈ errors ∧ Str.includes e text = true.
Proof.
  intros Herrors
         [schemaName schema propName property Hs Hk Hp Hv
         |schemaName schema indexes indexDef indexType Hs Hk Hi Hin Ht Hv];
    destruct (collect_Ok _ _ _ Herrors) as [Hrounds _];
    destruct (Hrounds _ Hs) as (pushed & Hpushed & Hsub);
    destruct (schemaErrors_Ok _ _ _ _ Hpushed Hk) as (a & b & Ha & Hb & ->).
  - destruct (collect_Ok _ _ _ Ha) as [Hprops _].
    destruct (Hprops _ Hp) as (p & Hround & Hsubp).
    apply incompatible_type_iff in Hv as [inc Hinc].
    unfold propertyErrors in Hround. rewrite Hinc in Hround. simplify_eq.
    eexists. split.
    + apply Hsub, elem_of_app. left. apply Hsubp. left.
    + unfold propertyViolationText. rewrite <- !sapp_assoc.
      apply includes_app_l, includes_refl.
  - assert (truthy (Some indexType) = true) as Htruthy.
    { destruct Hv as [[[->| ->] _]|[[->| ->] _]]; done. }
    destruct (collect_Ok _ _ _ Hb) as [Hidx _].
    rewrite Hi in Hidx. simpl in Hidx.
    destruct (Hidx _ Hin) as (p & Hround & Hsubp).
    apply incompatible_index_iff in Hv as [inc Hinc].
    unfold indexErrors in Hround. rewrite Ht, Htruthy in Hround.
    simpl in Hround. rewrite Hinc in Hround. simplify_eq.
    eexists. split.
    + apply Hsub, elem_of_app. right. apply Hsubp. left.
    + fold (indexLabel indexDef).
      assert (∀ x, Str.includes
                     (indexViolationText schemaName (indexLabel indexDef)
                        indexType dialect +:+ x)
                     (indexViolationText schemaName (indexLabel indexDef)
                        indexType dialect) = true) as Hpre
          by (intros; apply includes_app_l, includes_refl).
      unfold indexViolationText in *.
      destruct (truthy (inc_suggestion inc)).
      * rewrite !sapp_assoc.
        specialize (Hpre (inc_reason inc +:+ " "
                          +:+ orElse (inc_suggestion inc) EmptyString)).
        by rewrite !sapp_assoc in Hpre.
      * specialize (Hpre (inc_reason inc)). by rewrite !sapp_assoc in Hpre.
Qed.

Lemma error_is_violation schemas dialect errors e :
  compatibilityErrors schemas dialect = Ok errors →
  e ∈ errors → ∃ text, Violation schemas dialect text.
Proof.
  intros Herrors He.
  destruct (collect_Ok _ _ _ Herrors) as [_ Hfrom].
  destruct (Hfrom e He) as ([schemaName schema] & pushed & Hs & Hpushed & Hin).
  destruct (decide (sch_kind schema = Some KEnum)) as [Hk|Hk].
  { unfold schemaErrors in Hpushed. rewrite bool_decide_eq_true_2 in Hpushed by done.
    simplify_eq. by apply elem_of_nil in Hin. }
  destruct (schemaErrors_Ok _ _ _ _ Hpushed Hk) as (a & b & Ha & Hb & ->).
  apply elem_of_app in Hin as [Hin|Hin].
  - destruct (collect_Ok _ _ _ Ha) as [_ Hprops].
    destruct (Hprops e Hin) as ([propName property] & p & Hp & Hround & Hep).
    unfold propertyErrors in Hround.
    destruct (incompatibleIn _ _ _) as [[inc|]| |] eqn:Hinc; simplify_eq;
      [|by apply elem_of_nil in Hep].
    eexists. eapply PropertyViolation; [done..|].
    apply incompatible_type_iff. eauto.
  - destruct (collect_Ok _ _ _ Hb) as [_ Hidx].
    destruct (Hidx e Hin) as (indexDef & p & Hi & Hround & Hep).
    unfold indexErrors in Hround.
    destruct (ix_type indexDef) as [indexType|] eqn:Ht;
      [|simpl in Hround; simplify_eq; by apply elem_of_nil in Hep].
    destruct (truthy (Some indexType));
      [|simpl in Hround; simplify_eq; by apply elem_of_nil in Hep].
    simpl in Hround.
    destruct (incompatibleIn _ _ _) as [[inc|]| |] eqn:Hinc; simplify_eq;
      [|by apply elem_of_nil in Hep].
    destruct (optionOf schema so_indexes) as [indexes|] eqn:Hopt;
      [|by apply elem_of_nil in Hi].
    eexists. eapply IndexViolation; [done..|].
    apply incompatible_index_iff. eauto.
Qed.

(** Every entry of [errors] is a part of the aggregated message. *)
Lemma message_lists_errors dialect errors e :
  e ∈ errors → Str.includes (compatibilityMessage dialect errors) e = true.
Proof.
  intros [i Hi]%list_elem_of_lookup. unfold compatibilityMessage.
  do 7 apply includes_app_r. apply includes_app_l.
  eapply includes_trans.
  - apply includes_join, list_elem_of_lookup. exists i.
    unfold numbered. rewrite list_lookup_imap, Hi. reflexivity.
  - do 2 apply includes_app_r. apply includes_refl.
Qed.

(** C2 holds for the types that the catalog knows or does not know, but
    not for a type named like a member of [Object.prototype]: the table
    lookup then finds the inherited member, the test of its [dialects]
    fails, and the call ends with a TypeError, whether the collection has
    violations (the aggregated error is not thrown) or not (the call does
    not return). *)
Theorem C2_inherited_type_name_raises_type_error :
  (¬ (∃ text, Violation inheritedType mysql text) ∧
   validateSchemaCompatibility inheritedType mysql = TypeError ∧
   generateMigrations inheritedType (Examples.forDialect mysql)
   = Some TypeError) ∧
  ((∃ text, Violation inheritedTypeAndPoint sqlite text) ∧
   validateSchemaCompatibility inheritedTypeAndPoint sqlite = TypeError ∧
   generateMigrations inheritedTypeAndPoint (Examples.forDialect sqlite)
   = Some TypeError).
Proof.
  split; split_and!; try reflexivity.
  - intros [text Hv].
    destruct Hv as [schemaName schema propName property Hs Hk Hp Hv
                   |schemaName schema indexes indexDef indexType Hs Hk Hi Hin Ht Hv];
      apply list_elem_of_singleton in Hs; simplify_eq.
    apply list_elem_of_singleton in Hp. simplify_eq.
    by destruct Hv.
  - eexists.
    eapply (PropertyViolation inheritedTypeAndPoint sqlite "Place" _ "position"
              (Examples.prop "Point")); [left|done|right; left|done].
Qed.

(** When no type is named like a member of [Object.prototype], the loops
    of the validation end, and: if some property or index of a schema that
    is not an enum violates the dialect, generateMigrations throws the
    aggregated error, whose message contains the text identifying every
    violation of the collection; if none does, the validation passes and, on
    a collection with plain names, generateMigrations returns a list. *)
Theorem validation_aggregates_or_passes schemas options :
  let dialect := dialect (resolveOptions options) in
  plainTypes schemas →
  ∃ errors,
    compatibilityErrors schemas dialect = Ok errors ∧
    ((∃ text, Violation schemas dialect text) →
     generateMigrations schemas options
     = Some (Throw (compatibilityMessage dialect errors)) ∧
     ∀ text, Violation schemas dialect text →
             Str.includes (compatibilityMessage dialect errors) text = true) ∧
    ((¬ ∃ text, Violation schemas dialect text) →
     validateSchemaCompatibility schemas dialect = Ok () ∧
     (plainNames schemas →
      ∃ migs, generateMigrations schemas options = Some (Ok migs))).
Proof.
  intros dialect Hplain.
  destruct (compatibilityErrors_plain schemas dialect Hplain) as [errors Herrors].
  exists errors. split; [done|]. split.
  - intros [text Hv]. split.
    + unfold generateMigrations, validateSchemaCompatibility.
      fold dialect. rewrite Herrors.
      destruct (violation_reported _ _ _ _ Herrors Hv) as (e & He & _).
      destruct errors; [by apply elem_of_nil in He|]. reflexivity.
    + intros text' Hv'.
      destruct (violation_reported _ _ _ _ Herrors Hv') as (e & He & Hpre).
      eapply includes_trans; [by apply message_lists_errors|done].
  - intros Hnone.
    assert (errors = []) as ->.
    { destruct errors as [|e errors]; [done|]. destruct Hnone.
      apply (error_is_violation schemas dialect (e :: errors) e Herrors). left. }
    assert (validateSchemaCompatibility schemas dialect = Ok ()) as Hpass
        by (unfold validateSchemaCompatibility; by rewrite Herrors).
    split; [done|]. intros (_ & Htargets & _).
    destruct (generateMigrations_plain schemas options Htargets Hpass)
      as (sortedSchemas & _ & ->).
    by eauto.
Qed.

Lemma validation_aggregates_or_passes_witness :
  (plainTypes spatialSchemas ∧
   (∃ text, Violation spatialSchemas sqlite text) ∧
   ∃ message,
     generateMigrations spatialSchemas (Examples.forDialect sqlite)
     = Some (Throw message) ∧
     Str.includes message
       (propertyViolationText "Place" "position" "Point" sqlite) = true ∧
     Str.includes message
       (indexViolationText "Place" "idx_tags" "gin" sqlite) = true) ∧
  (plainNames Examples.userOnly ∧
   (¬ ∃ text, Violation Examples.userOnly mysql text) ∧
   ∃ migs,
     generateMigrations Examples.userOnly (Examples.forDialect mysql)
     = Some (Ok migs)).
Proof.
  assert (Violation spatialSchemas sqlite
            (propertyViolationText "Place" "position" "Point" sqlite)) as Hp.
  { eapply (PropertyViolation spatialSchemas sqlite "Place" _ "position"
              (Examples.prop "Point")); [left|done|left|done]. }
  assert (Violation spatialSchemas sqlite
            (indexViolationText "Place" "idx_tags" "gin" sqlite)) as Hi.
  { eapply (IndexViolation spatialSchemas sqlite "Place" _ _
              {| ix_name := Some "idx_tags"; ix_columns := ["tags"];
                 ix_unique := None; ix_type := Some "gin" |} "gin");
      [left|done|reflexivity|left|done|].
    left. split; [by left|done]. }
  assert (plainTypes spatialSchemas) as Hspatial
      by plain_names.
  assert (plainNames Examples.userOnly) as Huser
      by plain_names.
  assert (¬ ∃ text, Violation Examples.userOnly mysql text) as Hnone.
  { intros [text Hv].
    assert (compatibilityErrors Examples.userOnly mysql = Ok []) as Herrors
        by reflexivity.
    apply (violation_reported _ _ _ _ Herrors) in Hv as (e & He & _).
    by apply elem_of_nil in He. }
  split.
  - split; [done|]. split; [by eauto|].
    destruct (validation_aggregates_or_passes spatialSchemas
                (Examples.forDialect sqlite) Hspatial)
      as (errors & _ & Hthrow & _).
    destruct Hthrow as (Hrun & Hall); [by eauto|].
    eexists. split_and!; [exact Hrun|by apply Hall..].
  - split; [done|]. split; [done|].
    destruct (validation_aggregates_or_passes Examples.userOnly
                (Examples.forDialect mysql)) as (errors & _ & _ & Hpass);
      [by destruct Huser|].
    destruct Hpass as [_ Hreturns]; [done|]. by apply Hreturns.
Defined.

(** ** Polymorphic columns *)

Lemma addProperty_keeps_columns schema allSchemas dialect acc entry c :
  c ∈ acc.1.1 → c ∈ (addProperty schema allSchemas dialect acc entry).1.1.
Proof.
  destruct acc as [[columns foreignKeys] indexes], entry as [propName property].
  unfold addProperty. simpl. intros Hc.
  repeat case_match; simpl; try done; apply elem_of_app; by left.
Qed.

Lemma schemaToTable_columns schema allSchemas options c :
  c ∈ (fold_left (addProperty schema allSchemas (dialect options))
         (propertiesOf schema)
         (if negb (bool_decide (optionOf schema so_id = Some false))
          then [generatePrimaryKey (orElse (optionOf schema so_idType) BigInt)
                  (dialect options)]
          else [], [], [])).1.1 →
  c ∈ tbl_columns (schemaToTable schema allSchemas options).
Proof.
  unfold schemaToTable. destruct (fold_left _ _ _) as [[columns fks] idxs].
  simpl. intros Hc. repeat case_match; simpl; set_solver.
Qed.

(** C9: a MorphTo association with a non-empty target list yields the two
    columns [<property>_type] and [<property>_id], both nullable whatever
    the association declares as its own [nullable]; and these are the
    columns that the table of a schema with this property gets. *)
Theorem C9_morph_to_columns_are_nullable
    name property sqlDialect allSchemas targets :
  p_type property = "Association" →
  p_relation property = Some "MorphTo" →
  p_targets property = Some targets →
  targets ≠ [] →
  ∃ typeColumn idColumn index,
    generatePolymorphicColumns name property sqlDialect allSchemas
    = Some ([typeColumn; idColumn], index) ∧
    col_name typeColumn = toColumnName name +:+ "_type" ∧
    col_name idColumn = toColumnName name +:+ "_id" ∧
    col_nullable typeColumn = true ∧
    col_nullable idColumn = true ∧
    ∀ schema options,
      sqlDialect = dialect options →
      (name, property) ∈ propertiesOf schema →
      typeColumn ∈ tbl_columns (schemaToTable schema allSchemas options) ∧
      idColumn ∈ tbl_columns (schemaToTable schema allSchemas options).
Proof.
  intros Htype Hrelation Htargets Hnonempty.
  assert (∃ typeColumn idColumn index,
             generatePolymorphicColumns name property sqlDialect allSchemas
             = Some ([typeColumn; idColumn], index)
             ∧ col_name typeColumn = toColumnName name +:+ "_type"
             ∧ col_name idColumn = toColumnName name +:+ "_id"
             ∧ col_nullable typeColumn = true
             ∧ col_nullable idColumn = true)
    as (typeColumn & idColumn & index & Hgen & ? & ? & ? & ?).
  { unfold generatePolymorphicColumns.
    rewrite Htype, Htargets, Hrelation. simpl.
    rewrite (bool_decide_eq_false_2 (targets = [])) by done. simpl.
    by eexists _, _, _. }
  exists typeColumn, idColumn, index. split_and!; try done.
  intros schema options -> Hentry.
  assert (propertyToColumn name property (dialect options) allSchemas
          = None) as Hcol
      by (unfold propertyToColumn; by rewrite Htype).
  assert (generateForeignKey name property schema (dialect options)
            allSchemas = None) as Hfk
      by (unfold generateForeignKey; by rewrite Htype, Hrelation).
  split; apply schemaToTable_columns;
    apply (fold_left_reach _ (λ acc, _ ∈ acc.1.1) _ (name, property));
    try done;
    try (intros; by apply addProperty_keeps_columns);
    intros [[columns fks] idxs]; unfold addProperty;
    rewrite Hcol, Hfk, Hgen; simpl; set_solver.
Qed.

Lemma C9_witness :
  p_nullable commentable = Some false ∧
  ∃ typeColumn idColumn index,
    generatePolymorphicColumns "commentable" commentable mysql commentSchemas
    = Some ([typeColumn; idColumn], index) ∧
    col_name typeColumn = "commentable_type" ∧
    col_name idColumn = "commentable_id" ∧
    col_nullable typeColumn = true ∧
    col_nullable idColumn = true.
Proof.
  split; [reflexivity|].
  destruct (C9_morph_to_columns_are_nullable
              "commentable" commentable mysql commentSchemas ["Post"; "Video"])
    as (typeColumn & idColumn & index & Hgen & Ht & Hi & Hnt & Hni & _);
    [reflexivity|reflexivity|reflexivity|done|].
  exists typeColumn, idColumn, index. by split_and!.
Defined.

(** ** Dropping a table *)

Lemma formatDropTable_statement table sqlDialect :
  formatDropTable table sqlDialect true true = dropStatement table sqlDialect.
Proof.
  unfold formatDropTable, dropStatement, quoteIdentifier.
  destruct sqlDialect; simpl; by rewrite ?sapp_assoc.
Qed.

(** C10: generateDropMigration uses its input as the table name, verbatim,
    when the input contains an underscore or ends in [s] (or [es]), and
    otherwise converts it with toTableName: the artifact it returns is the
    drop artifact for that name, in its tables, its name, its file name and
    the DROP TABLE statement of its SQL text.  An entity name such as [Bus]
    is therefore taken for a table name. *)
Theorem C10_drop_uses_table_names_verbatim tableName options :
  let resolved := resolveOptions options in
  let version := orElse (optionField options o_version) (startVersion resolved) in
  (Str.includes tableName "_" = true ∨ Str.endsWith tableName "s" = true
   ∨ Str.endsWith tableName "es" = true →
   generateDropMigration tableName options
   = dropArtifact tableName version resolved) ∧
  (Str.includes tableName "_" = false → Str.endsWith tableName "s" = false →
   Str.endsWith tableName "es" = false →
   generateDropMigration tableName options
   = dropArtifact (toTableName tableName) version resolved) ∧
  generateDropMigration "Bus" options = dropArtifact "Bus" version resolved.
Proof.
  intros resolved version.
  assert (∀ name looks,
             Str.includes name "_" || Str.endsWith name "s"
             || Str.endsWith name "es" = looks →
             generateDropMigration name options
             = dropArtifact (if looks then name else toTableName name)
                 version resolved) as Hdrop.
  { intros name looks Hlooks. unfold generateDropMigration, dropArtifact.
    cbv zeta. rewrite Hlooks, formatDropTable_statement. f_equal.
    unfold Str.join. simpl. by rewrite !sapp_assoc. }
  split_and!.
  - intros H. apply (Hdrop tableName true).
    destruct H as [->|[->| ->]]; by rewrite ?orb_true_r.
  - intros H1 H2 H3. apply (Hdrop tableName false). by rewrite H1, H2, H3.
  - by apply (Hdrop "Bus" true).
Qed.

Lemma C10_witness :
  (Str.endsWith "Bus" "s" = true ∧
   mig_tables (generateDropMigration "Bus" None) = ["Bus"] ∧
   Str.endsWith (mig_content (generateDropMigration "Bus" None))
     "DROP TABLE IF EXISTS `Bus`;" = true) ∧
  (Str.includes "User" "_" = false ∧ Str.endsWith "User" "s" = false ∧
   Str.endsWith "User" "es" = false ∧
   mig_tables (generateDropMigration "User" None) = ["users"] ∧
   Str.endsWith (mig_content (generateDropMigration "User" None))
     "DROP TABLE IF EXISTS `users`;" = true).
Proof.
  destruct (C10_drop_uses_table_names_verbatim "Bus" None) as (Hb & _ & _).
  destruct (C10_drop_uses_table_names_verbatim "User" None) as (_ & Hu & _).
  split.
  - split; [reflexivity|].
    rewrite Hb by (right; left; reflexivity). split; reflexivity.
  - split_and!; [reflexivity..| |]; rewrite Hu by reflexivity; reflexivity.
Defined.

(** ** The MySQL text of a one-property entity *)

(** C6, as stated, fails: the [id] line of the generated text has no
    [NOT NULL], because formatColumn writes no null clause for a primary
    key column. *)
Lemma C6_counterexample :
  ∃ content,
    onlyContent (generateMigrations Examples.userOnly (Examples.forDialect mysql))
    = Some content ∧
    Str.includes content
      "`id` BIGINT UNSIGNED NOT NULL AUTO_INCREMENT PRIMARY KEY" = false.
Proof. eexists. split; [by vm_compute|by vm_compute]. Qed.

(** C6, amended: for { dialect: 'mysql' } and the single entity User with
    the String property [name], the generated text contains the line
    [`id` BIGINT UNSIGNED AUTO_INCREMENT PRIMARY KEY] (no null clause), the
    lines for [name], [created_at] and [updated_at], and the CREATE TABLE
    statement, which ends with the engine and charset clause. *)
Theorem C6_mysql_user_table_text :
  ∃ content,
    onlyContent (generateMigrations Examples.userOnly (Examples.forDialect mysql))
    = Some content ∧
    Str.includes content "`id` BIGINT UNSIGNED AUTO_INCREMENT PRIMARY KEY" = true ∧
    Str.includes content "`name` VARCHAR(255) NOT NULL" = true ∧
    Str.includes content "`created_at` TIMESTAMP NULL" = true ∧
    Str.includes content "`updated_at` TIMESTAMP NULL" = true ∧
    Str.includes content userCreateTable = true ∧
    Str.startsWith userCreateTable "CREATE TABLE" = true ∧
    Str.endsWith userCreateTable
      "ENGINE=InnoDB DEFAULT CHARSET=utf8mb4 COLLATE=utf8mb4_unicode_ci;" = true ∧
    formatColumn (generatePrimaryKey BigInt mysql) mysql
    = "`id` BIGINT UNSIGNED AUTO_INCREMENT PRIMARY KEY".
Proof. eexists. split; [by vm_compute|]. split_and!; by vm_compute. Qed.

(** ** Enum columns under PostgreSQL *)

(** Under PostgreSQL the column of an Enum property that lists its values
    is declared with the type name [<column>_enum]; the statement that
    would create the type stays in the result of getEnumType. *)
Lemma postgresql_enum_column name property values allSchemas :
  p_type property = "Enum" →
  p_enum property = Some (EnumValues values) →
  ∃ column,
    propertyToColumn name property postgresql allSchemas = Some column ∧
    col_type column = toColumnName name +:+ "_enum" ∧
    ei_preStatement
      (getEnumType values postgresql (Some (toColumnName name +:+ "_enum")))
    = Some ("CREATE TYPE " +:+ col_type column +:+ " AS ENUM ("
            +:+ quotedValues values +:+ ");").
Proof.
  intros Htype Henum. unfold propertyToColumn. rewrite Htype, Henum. simpl.
  by eexists.
Qed.

(** C5 at the entity [Test] with the Enum property [status]: under
    PostgreSQL the column is declared with the type [status_enum] and
    getEnumType computes the statement that creates this type, but the
    generated text holds no CREATE TYPE statement. *)
Theorem C5_postgresql_enum_type_is_not_created :
  ∃ content,
    onlyContent (generateMigrations Examples.withEnum
                   (Examples.forDialect postgresql))
    = Some content ∧
    Str.includes content
      (Str.dquote +:+ "status" +:+ Str.dquote +:+ " status_enum NOT NULL") = true ∧
    ei_preStatement
      (getEnumType ["draft"; "published"; "archived"] postgresql
         (Some "status_enum"))
    = Some "CREATE TYPE status_enum AS ENUM ('draft', 'published', 'archived');" ∧
    Str.includes content "CREATE TYPE" = false.
Proof. eexists. split; [by vm_compute|]. split_and!; by vm_compute. Qed.

(** ** Options that resolve alike *)

Lemma resolveOptions_only options options' schemas :
  resolveOptions options = resolveOptions options' →
  generateMigrations schemas options = generateMigrations schemas options'.
Proof. unfold generateMigrations. by intros ->. Qed.

(** ** The polymorphic pivot table *)

Section Prefixes.
Context {A S : Type} (f : S → A → S).

(** An invariant over the elements already processed. *)
Lemma fold_left_prefix (I : list A → S → Prop) (l : list A) (st : S) :
  I [] st → (∀ pre x s, I pre s → I (pre ++ [x]) (f s x)) →
  I l (fold_left f l st).
Proof.
  intros H0 Hstep.
  enough (∀ post pre s, I pre s → I (pre ++ post) (fold_left f post s)) as Hgen
      by apply (Hgen l [] st H0).
  induction post as [|x post IH]; intros pre s Hs; simpl.
  - by rewrite app_nil_r.
  - replace (pre ++ x :: post) with ((pre ++ [x]) ++ post)
      by (by rewrite <- app_assoc).
    apply IH, Hstep, Hs.
Qed.
End Prefixes.

(** The inner loop pushes [schemaName] once, when some property matches. *)
Lemma addMorphTarget_spec sourceName target morphTargets schemaName schema :
  addMorphTarget sourceName target morphTargets (schemaName, schema) =
  if decide (schemaName = sourceName) then morphTargets
  else if existsb (λ entry, isMorphToManyTo target entry.2) (propertiesOf schema)
          && negb (bool_decide (schemaName ∈ morphTargets))
  then morphTargets ++ [schemaName]
  else morphTargets.
Proof.
  unfold addMorphTarget. case_decide; [done|].
  generalize (propertiesOf schema). intros props. revert morphTargets.
  induction props as [|entry props IH]; intros morphTargets; simpl.
  - done.
  - rewrite IH. destruct (isMorphToManyTo target entry.2); simpl; [|done].
    destruct (bool_decide (schemaName ∈ morphTargets)) eqn:Hin; simpl.
    + by rewrite Hin, andb_false_r.
    + rewrite bool_decide_eq_true_2 by set_solver.
      by rewrite andb_false_r.
Qed.

(** [morphTargets] lists exactly the owners, each once. *)
Lemma collectMorphTargets_spec sourceName target allSchemas :
  NoDup (collectMorphTargets sourceName target allSchemas) ∧
  ∀ k, k ∈ collectMorphTargets sourceName target allSchemas
       ↔ contributes allSchemas sourceName target k.
Proof.
  unfold collectMorphTargets.
  apply (fold_left_prefix _
           (λ pre acc, NoDup acc ∧ ∀ k, k ∈ acc ↔ contributes pre sourceName target k)).
  - split; [apply NoDup_singleton|]. intros k.
    rewrite list_elem_of_singleton. unfold contributes. split; [by left|].
    intros [?|(? & ? & ?%elem_of_nil & _)]; done.
  - intros pre [schemaName schema] acc [Hnodup Hacc].
    rewrite addMorphTarget_spec.
    assert (∀ k, contributes (pre ++ [(schemaName, schema)]) sourceName target k
                 ↔ contributes pre sourceName target k
                   ∨ (k = schemaName ∧
                      existsb (λ entry, isMorphToManyTo target entry.2)
                        (propertiesOf schema) = true)) as Hsplit.
    { intros k. unfold contributes. rewrite existsb_exists. split.
      - intros [?|(s & entry & Hs & Hentry & Hm)]; [by left; left|].
        apply elem_of_app in Hs as [Hs|Hs%list_elem_of_singleton].
        + left. right. by eauto.
        + simplify_eq. right. split; [done|].
          exists entry. split; [by apply list_elem_of_In|done].
      - intros [[?|(s & entry & Hs & Hentry & Hm)]|[-> (entry & Hentry & Hm)]].
        + by left.
        + right. exists s, entry. split_and!; [|done..].
          apply elem_of_app. by left.
        + right. exists schema, entry. split_and!; [|by apply list_elem_of_In|done].
          apply elem_of_app. right. by apply list_elem_of_singleton. }
    case_decide as Hsource.
    { split; [done|]. intros k. rewrite Hsplit, Hacc. split; [by left|].
      intros [?|[-> _]]; [done|]. subst. by left. }
    destruct (existsb _ _) eqn:Hany; simpl.
    + case_bool_decide as Hin; simpl.
      * split; [done|]. intros k. rewrite Hsplit, Hacc. split; [by left|].
        intros [?|[-> _]]; [done|]. by apply Hacc.
      * split.
        { apply NoDup_app. split_and!; [done| |apply NoDup_singleton].
          intros x Hx Hx'%list_elem_of_singleton. by subst. }
        intros k. rewrite Hsplit, elem_of_app, list_elem_of_singleton, Hacc.
        split; intros [?|?]; [by left|by right|by left|right; tauto].
    + split; [done|]. intros k. rewrite Hsplit, Hacc. split; [by left|].
      by intros [?|[_ ?]].
Qed.

Lemma anyUuid_spec names allSchemas :
  anyUuid names allSchemas = true ↔ ∃ k, k ∈ names ∧ usesUuid allSchemas k.
Proof.
  unfold anyUuid, usesUuid. rewrite existsb_exists. split.
  - intros (k & Hk & Hu). exists k.
    split; [by apply list_elem_of_In|by apply bool_decide_eq_true_1 in Hu].
  - intros (k & Hk & Hu). exists k.
    split; [by apply list_elem_of_In|by apply bool_decide_eq_true_2].
Qed.



(** ** The pivot table between User and Role *)



Section RolesUsers.
Variable schemas : SchemaCollection.
Variable resolved : ResolvedSqlOptions.
Hypothesis Huser : is_Some (assoc "User" schemas).
Hypothesis Hrole : is_Some (assoc "Role" schemas).






Lemma pivotArtifacts_creates (start : Z) sortedSchemas :
  pivotArtifacts
    (imap (λ i schema,
             createArtifact schemas resolved (versionAt start i) schema)
          sortedSchemas) = [].
Proof.
  revert start. induction sortedSchemas as [|schema l IH]; intros start; [done|].
  simpl. unfold pivotArtifacts in *. rewrite filter_cons.
  rewrite decide_False by done.
  erewrite imap_ext; [apply (IH (Num.succ start))|].
  intros i x _. simpl. by rewrite versionAt_S.
Qed.

End RolesUsers.




(** * Further properties of the code *)

(** ** Lengths and suffixes *)

Lemma length_sapp (a b : string) :
  String.length (a +:+ b) = (String.length a + String.length b)%nat.
Proof. induction a as [|c a IH]; [done|]. rewrite sapp_cons. simpl. by rewrite IH. Qed.

Lemma substring_all (s : string) : String.substring 0 (String.length s) s = s.
Proof. induction s as [|c s IH]; [done|]. simpl. by rewrite IH. Qed.

Lemma substring_skip (p s : string) (n : nat) :
  String.substring (String.length p) n (p +:+ s) = String.substring 0 n s.
Proof. induction p as [|c p IH]; [done|]. rewrite sapp_cons. simpl. apply IH. Qed.

Lemma endsWith_sapp (p suffix : string) : Str.endsWith (p +:+ suffix) suffix = true.
Proof.
  unfold Str.endsWith. rewrite length_sapp.
  rewrite (proj2 (Nat.leb_le _ _)) by lia.
  replace (String.length p + String.length suffix - String.length suffix)%nat
    with (String.length p) by lia.
  rewrite substring_skip, substring_all. by apply bool_decide_eq_true_2.
Qed.

Lemma length_zeros (n : nat) : String.length (zeros n) = n.
Proof. unfold zeros. induction n as [|n IH]; [done|]. simpl. by rewrite IH. Qed.

(** ** Names *)

Lemma toLower_not_upper (c : ascii) :
  Str.isUpper c = true → Str.isUpper (Str.toLower c) = false.
Proof. destruct c as [[] [] [] [] [] [] [] []]; by vm_compute. Qed.

Lemma snakeLetters_noUpper (s : string) : noUpper (snakeLetters s).
Proof.
  induction s as [|c s IH]; intros d Hd; simpl in Hd.
  - by apply elem_of_nil in Hd.
  - destruct (Str.isUpper c) eqn:Hc; simpl in Hd.
    + apply elem_of_cons in Hd as [->|Hd]; [done|].
      apply elem_of_cons in Hd as [->|Hd]; [by apply toLower_not_upper|].
      by apply IH.
    + apply elem_of_cons in Hd as [->|Hd]; [done|]. by apply IH.
Qed.

Lemma snakeLetters_id (s : string) : noUpper s → snakeLetters s = s.
Proof.
  induction s as [|c s IH]; intros Hs; [done|]. simpl.
  rewrite (Hs c) by (simpl; left). f_equal. apply IH.
  intros d Hd. apply Hs. simpl. by right.
Qed.

(** toSnakeCase never leaves an upper-case letter, and it returns
    unchanged a name that has none and does not start with an underscore. *)
Theorem toSnakeCase_lower_case (str : string) :
  noUpper (toSnakeCase str) ∧
  (noUpper str → Str.startsWith str "_" = false → toSnakeCase str = str).
Proof.
  split.
  - pose proof (snakeLetters_noUpper str) as H. unfold toSnakeCase.
    destruct (snakeLetters str) as [|c rest]; [done|].
    assert (noUpper rest) as Hrest
        by (intros d Hd; apply H; simpl; by right).
    destruct c as [[] [] [] [] [] [] [] []]; done.
  - intros Hstr Hstart. unfold toSnakeCase. rewrite snakeLetters_id by done.
    destruct str as [|c rest]; [done|].
    destruct c as [[] [] [] [] [] [] [] []]; try done.
    simpl in Hstart. by destruct rest.
Qed.

Lemma toSnakeCase_lower_case_witness :
  toSnakeCase "BlogPost" = "blog_post" ∧
  noUpper "blog_post" ∧ Str.startsWith "blog_post" "_" = false ∧
  toSnakeCase "blog_post" = "blog_post".
Proof.
  split; [reflexivity|].
  assert (noUpper "blog_post") as Hlow.
  { intros c Hc. simpl in Hc.
    repeat (apply elem_of_cons in Hc as [->|Hc]; [reflexivity|]).
    by apply elem_of_nil in Hc. }
  split_and!; [done|reflexivity|].
  by apply (toSnakeCase_lower_case "blog_post").
Defined.

Lemma toTableName_ends_s (schemaName : string) :
  Str.endsWith (toTableName schemaName) "s" = true.
Proof.
  unfold toTableName. repeat case_match.
  - replace (Str.dropLast (toSnakeCase schemaName) +:+ "ies")
      with ((Str.dropLast (toSnakeCase schemaName) +:+ "ie") +:+ "s")
      by (by rewrite sapp_assoc).
    apply endsWith_sapp.
  - replace (toSnakeCase schemaName +:+ "es")
      with ((toSnakeCase schemaName +:+ "e") +:+ "s")
      by (by rewrite sapp_assoc).
    apply endsWith_sapp.
  - apply endsWith_sapp.
Qed.

Lemma schemaToTable_name schema allSchemas options :
  tbl_name (schemaToTable schema allSchemas options)
  = toTableName (sch_name schema).
Proof. unfold schemaToTable. by destruct (fold_left _ _ _) as [[? ?] ?]. Qed.

Lemma join_snoc (sep : string) (pre : list string) (x y : string) :
  Str.join sep (pre ++ [x; y]) = (Str.join sep (pre ++ [x]) +:+ sep) +:+ y.
Proof.
  induction pre as [|z pre IH].
  - unfold Str.join. simpl. by rewrite sapp_assoc.
  - destruct pre as [|z' pre].
    + unfold Str.join. simpl. by rewrite !sapp_assoc.
    + change ((z :: z' :: pre) ++ [x; y]) with (z :: z' :: (pre ++ [x; y])).
      change ((z :: z' :: pre) ++ [x]) with (z :: z' :: (pre ++ [x])).
      rewrite !join_cons2.
      change (z' :: pre ++ [x; y]) with ((z' :: pre) ++ [x; y]).
      change (z' :: pre ++ [x]) with ((z' :: pre) ++ [x]).
      rewrite IH. by rewrite !sapp_assoc.
Qed.

(** The text of a create artifact ends with the commented drop statement
    when down migrations are asked for. *)
Lemma generateCreateTableSql_down table resolved :
  generateDown resolved = true →
  Str.endsWith (generateCreateTableSql table resolved)
    ("-- " +:+ formatDropTable (tbl_name table) (dialect resolved) true true)
  = true.
Proof.
  intros Hdown. unfold generateCreateTableSql. cbv zeta. rewrite Hdown.
  rewrite join_snoc. apply endsWith_sapp.
Qed.

(** A table name made by toTableName is taken verbatim by
    generateDropMigration: the drop artifact for the table of a create
    artifact names that same table, and the commented down-migration line
    of the create artifact is the statement that the drop artifact
    executes. *)
Theorem drop_matches_create schema allSchemas options :
  let created := generateMigrationFromSchema schema allSchemas options in
  let dropped :=
    generateDropMigration (toTableName (sch_name schema)) options in
  mig_tables dropped = mig_tables created ∧
  mig_tables created = [toTableName (sch_name schema)] ∧
  mig_name dropped = "drop_" +:+ toTableName (sch_name schema) ∧
  ∃ dropSql,
    Str.endsWith (mig_content dropped) dropSql = true ∧
    dropSql = formatDropTable (toTableName (sch_name schema))
                (dialect (resolveOptions options)) true true ∧
    (generateDown (resolveOptions options) = true →
     Str.endsWith (mig_content created) ("-- " +:+ dropSql) = true).
Proof.
  intros created dropped.
  assert (Str.includes (toTableName (sch_name schema)) "_"
          || Str.endsWith (toTableName (sch_name schema)) "s"
          || Str.endsWith (toTableName (sch_name schema)) "es" = true) as Hlooks
      by (by rewrite toTableName_ends_s, orb_true_r).
  unfold dropped, generateDropMigration. simpl. rewrite Hlooks.
  split_and!; try done;
    try (unfold created, generateMigrationFromSchema; simpl;
         by rewrite schemaToTable_name).
  eexists. split_and!; [|reflexivity|].
  - unfold Str.join. simpl. rewrite <- !sapp_assoc. apply endsWith_sapp.
  - intros Hdown. unfold created, generateMigrationFromSchema, migrationOf.
    cbn [mig_content].
    rewrite <- (schemaToTable_name schema allSchemas (resolveOptions options)).
    by apply generateCreateTableSql_down.
Qed.

Lemma drop_matches_create_witness :
  generateDown (resolveOptions (Examples.forDialect postgresql)) = true ∧
  mig_tables (generateDropMigration "blog_posts" (Examples.forDialect postgresql))
  = mig_tables (generateMigrationFromSchema blogPost [("BlogPost", blogPost)]
                  (Examples.forDialect postgresql)) ∧
  Str.endsWith
    (mig_content (generateMigrationFromSchema blogPost [("BlogPost", blogPost)]
                    (Examples.forDialect postgresql)))
    ("-- DROP TABLE IF EXISTS " +:+ Str.dquote +:+ "blog_posts" +:+ Str.dquote
     +:+ " CASCADE;") = true.
Proof.
  destruct (drop_matches_create blogPost [("BlogPost", blogPost)]
              (Examples.forDialect postgresql))
    as (Htables & _ & _ & dropSql & _ & -> & Hdown).
  split_and!; [reflexivity|exact Htables|by apply Hdown].
Defined.

(** ** Versions in file names *)

(** The version in a file name is never cut: the file name starts with
    [String(version)], preceded by just enough zeros to reach the padding;
    and up to 2^53 that is the decimal numeral of the version. *)
Theorem formatVersion_length (version padding : Z) :
  String.length (formatVersion version padding)
  = Nat.max (String.length (Str.ofZ version)) (Z.to_nat padding) ∧
  Str.endsWith (formatVersion version padding) (Str.ofZ version) = true ∧
  (- safeBound ≤ version ≤ safeBound →
   Str.endsWith (formatVersion version padding) (Str.decimal version) = true).
Proof.
  unfold formatVersion. rewrite padStart_zeros. split_and!.
  - rewrite length_sapp, length_zeros. lia.
  - apply endsWith_sapp.
  - intros Hversion. rewrite ofZ_decimal by done. apply endsWith_sapp.
Qed.

(** ** Pivot tables do not depend on the declaring side *)

Lemma sortPair_sym (a b : string) : sortPair a b = sortPair b a.
Proof.
  unfold sortPair, String.ltb.
  rewrite (String.compare_antisym a b).
  destruct (String.compare b a) eqn:Hc; simpl; try done.
  apply String.compare_eq_iff in Hc. by subst.
Qed.

(** The same ManyToMany relation, declared on either of its two entities
    with no join-table name, builds a pivot table of the same name with
    the same two columns (the declaring side's column first), so that the
    second declaration met by generateMigrations is recognised as built. *)
Theorem pivot_table_name_is_symmetric
    a b propA propB pa pb allSchemas options ta tb :
  p_joinTable pa = None → p_joinTable pb = None →
  p_target pa = Some (sch_name b) → p_target pb = Some (sch_name a) →
  generatePivotTable a propA pa allSchemas options = Some ta →
  generatePivotTable b propB pb allSchemas options = Some tb →
  tbl_name ta = tbl_name tb ∧
  col_name <$> tbl_columns ta
  = [toSnakeCase (sch_name a) +:+ "_id"; toSnakeCase (sch_name b) +:+ "_id"] ∧
  col_name <$> tbl_columns tb = reverse (col_name <$> tbl_columns ta).
Proof.
  intros Hja Hjb Hta Htb. unfold generatePivotTable.
  rewrite Hja, Hjb, Hta, Htb.
  destruct (bool_decide (p_type pa = "Association")),
    (bool_decide (p_type pb = "Association")); try done.
  destruct (bool_decide (p_relation pa = Some "ManyToMany")),
    (bool_decide (p_relation pb = Some "ManyToMany")); try done.
  destruct (truthy (Some (sch_name b))), (truthy (Some (sch_name a)));
    try done.
  simpl.
  destruct (member (sch_name b) allSchemas); [|done].
  destruct (member (sch_name a) allSchemas); [|done].
  intros ? ?. simplify_eq. simpl.
  by rewrite (sortPair_sym (toTableName (sch_name a))).
Qed.

Lemma pivot_table_name_is_symmetric_witness :
  ∃ ta tb,
    generatePivotTable (Examples.object "User" []) "roles"
      (Examples.association "ManyToMany" "Role") userRoleSchemas
      (resolveOptions None) = Some ta ∧
    generatePivotTable (Examples.object "Role" []) "users"
      (Examples.association "ManyToMany" "User") userRoleSchemas
      (resolveOptions None) = Some tb ∧
    tbl_name ta = "roles_users" ∧ tbl_name tb = "roles_users" ∧
    col_name <$> tbl_columns tb = ["role_id"; "user_id"].
Proof.
  eexists _, _. split; [reflexivity|]. split; [reflexivity|].
  destruct (pivot_table_name_is_symmetric
              (Examples.object "User" []) (Examples.object "Role" [])
              "roles" "users"
              (Examples.association "ManyToMany" "Role")
              (Examples.association "ManyToMany" "User")
              userRoleSchemas (resolveOptions None) _ _
              eq_refl eq_refl eq_refl eq_refl eq_refl eq_refl)
    as (Hname & Hcols & Hrev).
  split_and!; [reflexivity|by rewrite <- Hname|by rewrite Hrev].
Defined.

Lemma anyUuid_equiv names names' allSchemas :
  (∀ k, k ∈ names ↔ k ∈ names') →
  anyUuid names allSchemas = anyUuid names' allSchemas.
Proof.
  intros Hsame. apply eq_true_iff_eq. rewrite !anyUuid_spec.
  split; intros (k & Hk & Hu); exists k; split; try done; by apply Hsame.
Qed.

(** Two owners of the same polymorphic pivot table build it alike: the
    same owners (in another order), hence the same name, column names,
    foreign-key and id columns (the UUID decision included) and indexes.
    Only the order of the owner names in the type column may differ. *)
Theorem morph_pivot_is_the_same_for_every_owner
    a b propA propB pa pb target allSchemas options ta tb :
  contributes allSchemas (sch_name b) target (sch_name a) →
  contributes allSchemas (sch_name a) target (sch_name b) →
  p_target pa = Some target → p_target pb = Some target →
  p_joinTable pa = p_joinTable pb →
  generateMorphPivotTable a propA pa allSchemas options = Some ta →
  generateMorphPivotTable b propB pb allSchemas options = Some tb →
  collectMorphTargets (sch_name a) target allSchemas
  ≡ₚ collectMorphTargets (sch_name b) target allSchemas ∧
  tbl_name ta = tbl_name tb ∧
  tbl_indexes ta = tbl_indexes tb ∧
  col_name <$> tbl_columns ta = col_name <$> tbl_columns tb ∧
  tbl_columns ta !! 0%nat = tbl_columns tb !! 0%nat ∧
  tbl_columns ta !! 2%nat = tbl_columns tb !! 2%nat.
Proof.
  intros Hab Hba Hta Htb Hjoin.
  destruct (collectMorphTargets_spec (sch_name a) target allSchemas)
    as [Hnda Ha].
  destruct (collectMorphTargets_spec (sch_name b) target allSchemas)
    as [Hndb Hb].
  assert (∀ k, k ∈ collectMorphTargets (sch_name a) target allSchemas
               ↔ k ∈ collectMorphTargets (sch_name b) target allSchemas)
    as Hsame.
  { intros k. rewrite Ha, Hb. unfold contributes in *. split.
    - intros [->|?]; [done|by right].
    - intros [->|?]; [done|by right]. }
  unfold generateMorphPivotTable. rewrite Hta, Htb, Hjoin.
  destruct (bool_decide (p_type pa = "Association")),
    (bool_decide (p_type pb = "Association")); try done.
  destruct (bool_decide (p_relation pa = Some "MorphToMany")),
    (bool_decide (p_relation pb = Some "MorphToMany")); try done.
  destruct (truthy (Some target)); try done.
  simpl.
  destruct (member target allSchemas); [|done].
  intros ? ?. simplify_eq. simpl.
  rewrite (anyUuid_equiv _ _ _ Hsame).
  split_and!; try done. by apply NoDup_Permutation.
Qed.

Lemma morph_pivot_is_the_same_for_every_owner_witness :
  ∃ ta tb,
    generateMorphPivotTable (Examples.object "Post" [("tags", tags)])
      "tags" tags taggedSchemas (resolveOptions None) = Some ta ∧
    generateMorphPivotTable videoTags "tags" tags taggedSchemas
      (resolveOptions None) = Some tb ∧
    tbl_columns ta !! 2%nat = tbl_columns tb !! 2%nat ∧
    col_type <$> tbl_columns ta !! 2%nat = Some "CHAR(36)" ∧
    col_type <$> tbl_columns ta !! 1%nat = Some "ENUM('Post', 'Video')" ∧
    col_type <$> tbl_columns tb !! 1%nat = Some "ENUM('Video', 'Post')".
Proof.
  eexists _, _. split; [reflexivity|]. split; [reflexivity|].
  edestruct (morph_pivot_is_the_same_for_every_owner
               (Examples.object "Post" [("tags", tags)]) videoTags
               "tags" "tags" tags tags "Tag" taggedSchemas (resolveOptions None))
    as (_ & _ & _ & _ & _ & Hid);
    [| |reflexivity|reflexivity|reflexivity|reflexivity|reflexivity|].
  - right. exists (Examples.object "Post" [("tags", tags)]), ("tags", tags).
    split_and!; [left|left|reflexivity].
  - right. exists videoTags, ("tags", tags).
    split_and!; [right; left|left|reflexivity].
  - split_and!; [exact Hid|reflexivity..].
Defined.

(** ** Validation under PostgreSQL *)

(** No schema collection is refused for PostgreSQL: neither table of
    incompatibilities lists it, so generateMigrations never throws the
    aggregated error there; the validation passes when no type is named
    like a member of [Object.prototype], and on a collection with plain
    names generateMigrations returns its artifacts. *)
Theorem postgresql_is_never_refused schemas options :
  dialect (resolveOptions options) = postgresql →
  (∀ message, generateMigrations schemas options ≠ Some (Throw message)) ∧
  (plainTypes schemas →
   validateSchemaCompatibility schemas postgresql = Ok ()) ∧
  (plainNames schemas →
   ∃ migs, generateMigrations schemas options = Some (Ok migs)).
Proof.
  intros Hd.
  assert (∀ errors, compatibilityErrors schemas postgresql = Ok errors →
                    errors = []) as Hnone.
  { intros [|e errors] He; [done|].
    destruct (error_is_violation schemas postgresql _ e He) as [text Hv];
      [left|].
    destruct Hv as [? ? ? ? _ _ _ [_ ?]|? ? ? ? ? _ _ _ _ _ [[_ ?]|[_ ?]]];
      done. }
  assert (plainTypes schemas →
          validateSchemaCompatibility schemas postgresql = Ok ()) as Hpass.
  { intros Hplain.
    destruct (compatibilityErrors_plain schemas postgresql Hplain)
      as [errors Herrors].
    unfold validateSchemaCompatibility. rewrite Herrors.
    by rewrite (Hnone errors Herrors). }
  split_and!; [|done|].
  - intros message. unfold generateMigrations, validateSchemaCompatibility.
    rewrite Hd.
    destruct (compatibilityErrors schemas postgresql) as [errors|m|] eqn:He;
      [| |done].
    + rewrite (Hnone errors eq_refl). simpl.
      destruct (topologicalSort _) as [l|]; [|done].
      by destruct (mapM schemaOf l).
    + by apply compatibilityErrors_no_Throw in He.
  - intros (Hplain & Htargets & _).
    destruct (generateMigrations_plain schemas options Htargets)
      as (sortedSchemas & _ & ->); [rewrite Hd; by apply Hpass|].
    by eauto.
Qed.

Lemma postgresql_is_never_refused_witness :
  dialect (resolveOptions (Examples.forDialect postgresql)) = postgresql ∧
  (∃ message, generateMigrations spatialSchemas (Examples.forDialect sqlite)
              = Some (Throw message)) ∧
  plainNames spatialSchemas ∧
  ∃ migs, generateMigrations spatialSchemas (Examples.forDialect postgresql)
          = Some (Ok migs).
Proof.
  assert (plainNames spatialSchemas) as Hplain
      by plain_names.
  split; [reflexivity|]. split; [eexists; by vm_compute|]. split; [done|].
  destruct (postgresql_is_never_refused spatialSchemas
              (Examples.forDialect postgresql)) as (_ & _ & Hreturns);
    [reflexivity|].
  by apply Hreturns.
Defined.

(** ** The shape of a run *)

Lemma assoc_NoDup {A} (d : list (string * A)) k v :
  NoDup d.*1 → (k, v) ∈ d → assoc k d = Some v.
Proof.
  induction d as [|[k' v'] d IH]; simpl; intros Hnd Hin.
  - by apply elem_of_nil in Hin.
  - apply NoDup_cons in Hnd as [Hk' Hnd].
    apply elem_of_cons in Hin as [Heq|Hin].
    + simplify_eq. by rewrite decide_True.
    + rewrite decide_False; [by apply IH|].
      intros ->. apply Hk'. apply list_elem_of_fmap. by exists (k, v).
Qed.

(** [l] holds the entries of the collection under the names [ks]. *)
Local Abbreviation entriesAs schemas ks l :=
  (Forall2 (λ (k : string) (s : LoadedSchema), assoc k schemas = Some s) ks l).

Lemma entriesAs_NoDup (schemas : SchemaCollection) :
  NoDup (keys schemas) → entriesAs schemas (keys schemas) schemas.*2.
Proof.
  intros Hnd. unfold keys.
  apply Forall2_fmap, Forall_Forall2_diag, Forall_forall.
  intros [k v] Hin. simpl. by apply assoc_NoDup.
Qed.

Lemma entriesAs_fun (schemas : SchemaCollection) ks l l' :
  entriesAs schemas ks l → entriesAs schemas ks l' → l = l'.
Proof.
  intros Hl. revert l'.
  induction Hl as [|k s ks l Hs _ IH]; intros l' Hl'.
  - apply Forall2_nil_inv_l in Hl'. by subst.
  - apply Forall2_cons_inv_l in Hl' as (s' & l1 & Hs' & Hl' & ->).
    f_equal; [congruence|by apply IH].
Qed.

Lemma entriesAs_perm (schemas : SchemaCollection) ks ks' l l' :
  entriesAs schemas ks l → entriesAs schemas ks' l' → ks ≡ₚ ks' → l ≡ₚ l'.
Proof.
  intros Hl Hl' Hperm. revert l l' Hl Hl'.
  induction Hperm as [|k ks ks' _ IH|k k' ks|ks ks' ks'' Hp1 IH1 _ IH2];
    intros l l' Hl Hl'.
  - apply Forall2_nil_inv_l in Hl, Hl'. by subst.
  - apply Forall2_cons_inv_l in Hl as (s & l1 & Hs & Hl & ->).
    apply Forall2_cons_inv_l in Hl' as (s' & l1' & Hs' & Hl' & ->).
    assert (s = s') as -> by congruence. f_equiv. by apply IH.
  - apply Forall2_cons_inv_l in Hl as (s & l1 & Hs & Hl & ->).
    apply Forall2_cons_inv_l in Hl as (t & l2 & Ht & Hl & ->).
    apply Forall2_cons_inv_l in Hl' as (t' & l1' & Ht' & Hl' & ->).
    apply Forall2_cons_inv_l in Hl' as (s' & l2' & Hs' & Hl' & ->).
    assert (s = s') as -> by congruence.
    assert (t = t') as -> by congruence.
    rewrite (entriesAs_fun schemas ks l2 l2' Hl Hl'). apply perm_swap.
  - assert (∃ m, entriesAs schemas ks' m) as [m Hm].
    { assert (Forall (λ k, is_Some (assoc k schemas)) ks) as Hall.
      { clear -Hl. induction Hl; constructor; eauto. }
      rewrite Hp1 in Hall. clear -Hall.
      induction Hall as [|k ks' [s Hs] _ [m IH]];
        [exists []; constructor|].
      exists (s :: m). by constructor. }
    trans m; [by apply IH1|by apply IH2].
Qed.

Lemma topologicalSort_Permutation schemas listed :
  NoDup (keys schemas) →
  plainTargets schemas →
  topologicalSort schemas = Some listed →
  ∃ sortedSchemas,
    listed = Own <$> sortedSchemas ∧ sortedSchemas ≡ₚ schemas.*2.
Proof.
  intros Hnd Hplain Hsort.
  destruct (topologicalSort_plain schemas Hplain listed Hsort)
    as [sortedSchemas ->].
  exists sortedSchemas. split; [done|].
  destruct (topologicalSort_listed schemas _ Hsort)
    as (_ & _ & ks & Hks & Hlisted & Hkeys).
  assert (entriesAs schemas ks sortedSchemas) as Hentries.
  { unfold listedAs in Hlisted. apply Forall2_fmap_r in Hlisted.
    eapply Forall2_impl; [exact Hlisted|]. intros k s. apply member_Own. }
  apply (entriesAs_perm schemas ks (keys schemas)); [done| |].
  - by apply entriesAs_NoDup.
  - apply NoDup_Permutation; [done..|]. intros k. split; [|by apply Hkeys].
    intros [i Hi]%list_elem_of_lookup.
    destruct (Forall2_lookup_l _ _ _ _ _ Hentries Hi) as (schema & ? & ?).
    apply assoc_is_Some. by eauto.
Qed.

(** Cycles or not, the topological sort returns every schema of a
    collection with distinct names exactly once: nothing is dropped and
    nothing is listed twice.  The targets are to be plain: under a target
    named like a member of [Object.prototype] the sort finds that member
    and lists it too. *)
Theorem topologicalSort_is_a_permutation schemas listed :
  NoDup (keys schemas) →
  plainTargets schemas →
  topologicalSort schemas = Some listed →
  ∃ sortedSchemas,
    listed = Own <$> sortedSchemas ∧
    sortedSchemas ≡ₚ schemas.*2 ∧
    length listed = length schemas ∧
    ∀ schema, schema ∈ sortedSchemas ↔ schema ∈ schemas.*2.
Proof.
  intros Hnd Hplain Hsort.
  destruct (topologicalSort_Permutation _ _ Hnd Hplain Hsort)
    as (sortedSchemas & -> & Hperm).
  exists sortedSchemas. split_and!; [done|done| |].
  - by rewrite length_fmap, Hperm, length_fmap.
  - intros schema. by rewrite Hperm.
Qed.

Lemma topologicalSort_is_a_permutation_witness :
  ¬ acyclic mutual ∧
  NoDup (keys mutual) ∧
  plainTargets mutual ∧
  ∃ sortedSchemas,
    topologicalSort mutual = Some (Own <$> sortedSchemas) ∧
    sch_name <$> sortedSchemas = ["Book"; "Author"] ∧
    sortedSchemas ≡ₚ mutual.*2 ∧
    topologicalSort inheritedTarget
    = Some [Inherited "constructor"; Own inheritedTargetItem].
Proof.
  split.
  { intros Hacyclic. apply (Hacyclic "Author").
    apply tc_l with "Book"; [|apply tc_once].
    - eexists _, ("favourite", _). split_and!; [reflexivity|left|reflexivity].
    - eexists _, ("author", _). split_and!; [reflexivity|left|reflexivity]. }
  assert (NoDup (keys mutual)) as Hnd.
  { unfold keys. simpl. apply NoDup_cons. split; [set_solver|].
    apply NoDup_singleton. }
  assert (plainTargets mutual) as Hplain by plain_names.
  split; [done|]. split; [done|].
  pose (sortedSchemas :=
          [ Examples.object "Book"
              [("author", Examples.association "ManyToOne" "Author")];
            Examples.object "Author"
              [("favourite", Examples.association "ManyToOne" "Book")] ]).
  destruct (topologicalSort_is_a_permutation mutual (Own <$> sortedSchemas)
              Hnd Hplain)
    as (l & Heq & Hperm & _); [by vm_compute|].
  assert (l = sortedSchemas) as ->.
  { subst sortedSchemas. destruct l as [|x [|y [|]]]; by simplify_eq/=. }
  exists sortedSchemas.
  split_and!; [by vm_compute|reflexivity|exact Hperm|by vm_compute].
Defined.

Section Shape.
Variable schemas : SchemaCollection.
Variable resolved : ResolvedSqlOptions.

Lemma pivotsInv_emitPivot base st table :
  pivotsInv base st → pivotsInv base (emitPivot resolved table st).
Proof.
  intros (extra & Hm & Hall & Hnd & Hnames). unfold emitPivot.
  destruct table as [table|]; [|by exists extra].
  case_bool_decide as Hin; [by exists extra|].
  exists (extra ++ [migrationOf (version st) table pivot resolved]).
  simpl. split_and!.
  - by rewrite Hm, app_assoc.
  - apply Forall_app. split; [done|]. by repeat constructor.
  - rewrite fmap_app. apply NoDup_app. split_and!; [done| |apply NoDup_singleton].
    simpl. intros x Hx Hx'%list_elem_of_singleton. subst x. by apply Hin, Hnames.
  - intros name. rewrite fmap_app, elem_of_app, elem_of_union, <- Hnames.
    simpl. rewrite list_elem_of_singleton, elem_of_singleton.
    split; intros [?|?]; simplify_eq; auto.
Qed.

Lemma pivotsInv_emitAll sortedSchemas :
  pivotsInv
    (imap (λ i schema,
             createArtifact schemas resolved
               (versionAt (startVersion resolved) i) schema) sortedSchemas)
    (emitAll schemas resolved sortedSchemas).
Proof.
  unfold emitAll. rewrite fold_emitCreate. simpl. apply fold_left_inv.
  - exists []. simpl. rewrite app_nil_r. split_and!; [done|done|constructor|].
    intros name. split; [set_solver|by intros ?%elem_of_nil].
  - intros s schema _ Hs. apply fold_left_inv; [done|].
    intros s' [propName property] _ Hs'. simpl.
    by apply pivotsInv_emitPivot, pivotsInv_emitPivot.
Qed.
End Shape.

Lemma createArtifacts_imap schemas resolved (start : Z) sortedSchemas :
  createArtifacts
    (imap (λ i schema,
             createArtifact schemas resolved (versionAt start i) schema)
          sortedSchemas)
  = imap (λ i schema,
            createArtifact schemas resolved (versionAt start i) schema)
         sortedSchemas.
Proof.
  revert start. induction sortedSchemas as [|schema l IH]; intros start; [done|].
  simpl. unfold createArtifacts in *. rewrite filter_cons.
  rewrite decide_True by done. f_equal.
  match goal with
  | |- filter _ (imap ?f l) = _ =>
      assert (imap f l
              = imap (λ i schema,
                        createArtifact schemas resolved
                          (versionAt (Num.succ start) i) schema) l) as ->
  end.
  { apply imap_ext. intros i x _. simpl. by rewrite versionAt_S. }
  apply IH.
Qed.

Lemma NoDup_keys_filter (schemas : SchemaCollection) :
  NoDup (keys schemas) → NoDup (keys (filter notEnum schemas)).
Proof.
  unfold keys, SchemaCollection in *.
  induction schemas as [|[k v] l IH]; intros Hkeys; [constructor|].
  rewrite fmap_cons in Hkeys. apply NoDup_cons in Hkeys as [Hk Hl].
  rewrite filter_cons. case_decide; [|by apply IH].
  rewrite fmap_cons. apply NoDup_cons. split; [|by apply IH].
  intros ([k' v'] & ? & [_ Hin]%list_elem_of_filter)%list_elem_of_fmap.
  simpl in *. subst k'. apply Hk, list_elem_of_fmap. by exists (k, v').
Qed.

(** The list of a run is the create artifacts followed by the pivot
    artifacts; no two pivot artifacts are for the same table; and, on a
    collection with distinct and plain names, the create artifacts are
    those of the schemas that are not enums, each once, in some order,
    whether or not the dependencies have cycles. *)
Theorem generateMigrations_shape schemas options migs :
  let resolved := resolveOptions options in
  generateMigrations schemas options = Some (Ok migs) →
  migs = createArtifacts migs ++ pivotArtifacts migs ∧
  NoDup (mig_tables <$> pivotArtifacts migs) ∧
  (NoDup (keys schemas) → plainNames schemas →
   ∃ sortedSchemas,
     sortedSchemas ≡ₚ (filter notEnum schemas).*2 ∧
     createArtifacts migs
     = imap (λ i schema,
               createArtifact schemas resolved
                 (versionAt (startVersion resolved) i) schema)
            sortedSchemas).
Proof.
  intros resolved Hrun.
  destruct (generateMigrations_loops _ _ _ Hrun)
    as (listed & sortedSchemas & Hsort & Hl & ->).
  fold resolved.
  destruct (pivotsInv_emitAll schemas resolved sortedSchemas)
    as (extra & -> & Hall & Hnd & _).
  assert (createArtifacts extra = []) as Hc.
  { unfold createArtifacts. clear -Hall.
    induction Hall as [|m extra Hm _ IH]; [done|].
    rewrite filter_cons, decide_False by congruence. done. }
  assert (pivotArtifacts extra = extra) as Hp.
  { unfold pivotArtifacts. clear -Hall.
    induction Hall as [|m extra Hm _ IH]; [done|].
    rewrite filter_cons, decide_True by done. by rewrite IH. }
  unfold createArtifacts, pivotArtifacts in *. rewrite !filter_app.
  fold (createArtifacts
          (imap (λ i schema,
                   createArtifact schemas resolved
                     (versionAt (startVersion resolved) i) schema)
                sortedSchemas)).
  rewrite createArtifacts_imap.
  fold (pivotArtifacts
          (imap (λ i schema,
                   createArtifact schemas resolved
                     (versionAt (startVersion resolved) i) schema)
                sortedSchemas)).
  rewrite pivotArtifacts_creates, Hc, Hp, app_nil_r. simpl.
  split_and!; [done|done|].
  intros Hkeys (_ & Htargets & _). exists sortedSchemas. split; [|done].
  destruct (topologicalSort_Permutation _ _
              (NoDup_keys_filter schemas Hkeys)
              (plainTargets_filter _ Htargets) Hsort) as (l & -> & Hperm).
  rewrite schemaOf_Own in Hl. by simplify_eq.
Qed.

Lemma generateMigrations_shape_witness :
  generateMigrations userRoleSchemas (Examples.forDialect postgresql)
  = Some (Ok userRoleMigrations) ∧
  mig_type <$> userRoleMigrations = [create; create; pivot] ∧
  NoDup (keys userRoleSchemas) ∧
  plainNames userRoleSchemas ∧
  ∃ sortedSchemas,
    sortedSchemas ≡ₚ (filter notEnum userRoleSchemas).*2 ∧
    mig_name <$> createArtifacts userRoleMigrations
    = (λ schema, "create_" +:+ toTableName (sch_name schema)) <$> sortedSchemas.
Proof.
  assert (generateMigrations userRoleSchemas (Examples.forDialect postgresql)
          = Some (Ok userRoleMigrations)) as Hrun by (by vm_compute).
  assert (NoDup (keys userRoleSchemas)) as Hnd.
  { unfold keys. simpl. apply NoDup_cons. split; [set_solver|].
    apply NoDup_singleton. }
  assert (plainNames userRoleSchemas) as Hplain by plain_names.
  destruct (generateMigrations_shape _ _ _ Hrun) as (_ & _ & Hcreates).
  destruct (Hcreates Hnd Hplain) as (sortedSchemas & Hperm & Heq).
  split_and!; [done|by vm_compute|done|done|].
  exists sortedSchemas. split; [done|]. rewrite Heq.
  rewrite fmap_imap, <- imap_const. apply imap_ext. intros i schema _.
  simpl. by rewrite schemaToTable_name.
Defined.

(** On a collection with plain names, every create artifact of a run is
    the artifact that generateMigrationFromSchema builds for one schema of
    the collection that is not an enum, at the version that the counter has
    at its position: startVersion + i while that stays within 2^53. *)
Theorem create_artifact_is_single_schema_artifact schemas options migs
    (i : nat) m :
  let start := startVersion (resolveOptions options) in
  plainNames schemas →
  generateMigrations schemas options = Some (Ok migs) →
  migs !! i = Some m →
  mig_type m = create →
  (∃ k schema,
      (k, schema) ∈ schemas ∧ sch_kind schema ≠ Some KEnum ∧
      m = generateMigrationFromSchema schema schemas
            (withVersion options (mig_version m))) ∧
  mig_version m = versionAt start i ∧
  (- safeBound ≤ start → start + Z.of_nat i ≤ safeBound →
   mig_version m = start + Z.of_nat i).
Proof.
  intros start (_ & Htargets & _) Hrun Hi Hcreate.
  assert (mig_version m = versionAt start i) as Hversion
      by (by destruct (generateMigrations_counted _ _ _ _ _ Hrun Hi)).
  split_and!; [|done|intros; rewrite Hversion; by apply versionAt_exact].
  destruct (generateMigrations_sorted _ _ _ Htargets Hrun)
    as (sortedSchemas & Hsort & ->).
  destruct (pivotsInv_emitAll schemas (resolveOptions options) sortedSchemas)
    as (extra & Hm & Hall & _ & _).
  rewrite Hm in Hi. apply lookup_app_Some in Hi as [Hi|[_ Hi]]; last first.
  { apply list_elem_of_lookup_2 in Hi.
    rewrite Forall_forall in Hall. apply Hall in Hi. congruence. }
  rewrite list_lookup_imap in Hi.
  destruct (sortedSchemas !! i) as [schema|] eqn:Hschema; [|done].
  simpl in Hi. simplify_eq.
  destruct (topologicalSort_listed _ _ Hsort) as (_ & Hfrom & _).
  destruct (Hfrom (Own schema)) as [k Hk].
  { apply list_elem_of_fmap. exists schema. split; [done|].
    by eapply list_elem_of_lookup_2. }
  unfold SchemaCollection in *.
  apply member_Own, assoc_Some_key, list_elem_of_filter in Hk as [Hkind Hk].
  exists k, schema. split_and!; [done|done|].
  unfold generateMigrationFromSchema, createArtifact. simpl.
  assert (∀ v, resolveOptions (withVersion options v) = resolveOptions options)
    as -> by (intros; by destruct options).
  reflexivity.
Qed.

Lemma create_artifact_is_single_schema_artifact_witness :
  plainNames Examples.blog ∧
  generateMigrations Examples.blog fromTen = Some (Ok blogFromTen) ∧
  ∃ m, blogFromTen !! 1%nat = Some m ∧ mig_type m = create ∧
       mig_version m = 11 ∧
       ∃ k schema,
         (k, schema) ∈ Examples.blog ∧
         m = generateMigrationFromSchema schema Examples.blog
               (withVersion fromTen 11).
Proof.
  assert (plainNames Examples.blog) as Hplain by plain_names.
  assert (generateMigrations Examples.blog fromTen = Some (Ok blogFromTen))
    as Hrun by (by vm_compute).
  split; [done|]. split; [done|].
  eexists. split; [reflexivity|]. split; [reflexivity|].
  destruct (create_artifact_is_single_schema_artifact
              Examples.blog fromTen blogFromTen 1 _ Hplain Hrun eq_refl eq_refl)
    as ((k & schema & Hk & _ & Hm) & _ & _).
  split; [reflexivity|]. exists k, schema. split; [done|]. exact Hm.
Defined.

(** ** Tables *)

Lemma propertyToColumn_plain name property sqlDialect allSchemas column :
  propertyToColumn name property sqlDialect allSchemas = Some column →
  col_name column = toColumnName name ∧
  col_primaryKey column = false ∧
  col_unique column = orElse (p_unique property) false ∧
  col_nullable column = orElse (p_nullable property) false.
Proof.
  unfold propertyToColumn. repeat case_match; intros ?; by simplify_eq.
Qed.

Lemma generateForeignKey_plain name property schema sqlDialect allSchemas
    column fk :
  generateForeignKey name property schema sqlDialect allSchemas
  = Some (column, fk) →
  col_primaryKey column = false ∧
  fk_columns fk = [col_name column] ∧
  fk_referencesColumns fk = ["id"] ∧
  fk_name fk = "fk_" +:+ toTableName (sch_name schema) +:+ "_" +:+ col_name column.
Proof.
  unfold generateForeignKey. repeat case_match; intros ?; by simplify_eq.
Qed.

Lemma generatePolymorphicColumns_plain name property sqlDialect allSchemas
    columns index :
  generatePolymorphicColumns name property sqlDialect allSchemas
  = Some (columns, index) →
  Forall (λ c, col_primaryKey c = false) columns.
Proof.
  unfold generatePolymorphicColumns. repeat case_match; intros ?;
    simplify_eq. by repeat constructor.
Qed.

Lemma addProperty_no_primaryKey schema allSchemas sqlDialect acc entry pk :
  (∃ rest, acc.1.1 = pk ++ rest ∧ Forall (λ c, col_primaryKey c = false) rest) →
  ∃ rest, (addProperty schema allSchemas sqlDialect acc entry).1.1 = pk ++ rest
          ∧ Forall (λ c, col_primaryKey c = false) rest.
Proof.
  destruct acc as [[columns fks] idxs], entry as [propName property].
  simpl. intros (rest & -> & Hrest). unfold addProperty.
  destruct (propertyToColumn _ _ _ _) as [column|] eqn:Hcol.
  { apply propertyToColumn_plain in Hcol as (_ & Hpk & _).
    exists (rest ++ [column]). simpl. rewrite app_assoc. split; [done|].
    apply Forall_app. by repeat constructor. }
  destruct (generateForeignKey _ _ _ _ _) as [[column fk]|] eqn:Hfk.
  { apply generateForeignKey_plain in Hfk as (Hpk & _).
    exists (rest ++ [column]). simpl. rewrite app_assoc. split; [done|].
    apply Forall_app. by repeat constructor. }
  destruct (generatePolymorphicColumns _ _ _ _) as [[morph index]|] eqn:Hm.
  { apply generatePolymorphicColumns_plain in Hm.
    exists (rest ++ morph). simpl. rewrite app_assoc. split; [done|].
    by apply Forall_app. }
  case_decide; [|by exists rest].
  eexists (rest ++ _). simpl. rewrite app_assoc. split; [done|].
  apply Forall_app. split; [done|]. by repeat constructor.
Qed.

(** A table has exactly one primary-key column, [id], and it is the first
    column; a schema with [id: false] gets a table with none. *)
Theorem schemaToTable_primary_key schema allSchemas options :
  let table := schemaToTable schema allSchemas options in
  let id :=
    generatePrimaryKey (orElse (optionOf schema so_idType) BigInt)
      (dialect options) in
  (optionOf schema so_id ≠ Some false →
   primaryKeys table = [id] ∧ head (tbl_columns table) = Some id) ∧
  (optionOf schema so_id = Some false → primaryKeys table = []).
Proof.
  intros table id.
  assert (∃ rest,
             tbl_columns table
             = (if negb (bool_decide (optionOf schema so_id = Some false))
                then [id] else []) ++ rest
             ∧ Forall (λ c, col_primaryKey c = false) rest)
    as (rest & Hcols & Hrest).
  { unfold table, schemaToTable.
    pose proof (fold_left_inv (addProperty schema allSchemas (dialect options))
                  (λ acc, ∃ rest,
                      acc.1.1
                      = (if negb (bool_decide (optionOf schema so_id = Some false))
                         then [id] else []) ++ rest
                      ∧ Forall (λ c, col_primaryKey c = false) rest)
                  (propertiesOf schema)
                  (if negb (bool_decide (optionOf schema so_id = Some false))
                   then [id] else [], [], [])) as Hfold.
    destruct (fold_left _ _ _) as [[columns fks] idxs].
    destruct Hfold as (rest & Hcols & Hrest).
    { exists []. by rewrite app_nil_r. }
    { intros s x _. apply addProperty_no_primaryKey. }
    simpl in Hcols. subst columns. simpl.
    exists (rest
            ++ (if negb (bool_decide (optionOf schema so_timestamps = Some false))
                then generateTimestampColumns (dialect options) else [])
            ++ (if bool_decide (optionOf schema so_softDelete = Some true)
                then [generateSoftDeleteColumn (dialect options)] else [])).
    split.
    - destruct (negb (bool_decide (optionOf schema so_timestamps = Some false))),
        (bool_decide (optionOf schema so_softDelete = Some true));
        by rewrite <- ?app_assoc, ?app_nil_r.
    - destruct (negb (bool_decide (optionOf schema so_timestamps = Some false))),
        (bool_decide (optionOf schema so_softDelete = Some true));
        repeat (apply Forall_app; split); by repeat constructor. }
  assert (filter (λ c, col_primaryKey c = true) rest = []) as Hnone.
  { clear -Hrest. induction Hrest as [|c rest Hc _ IH]; [done|].
    rewrite filter_cons, decide_False by congruence. done. }
  unfold primaryKeys. rewrite Hcols, filter_app, Hnone, app_nil_r.
  split; intros Hid.
  - rewrite bool_decide_eq_false_2 by done. simpl. split; [|done].
    rewrite filter_cons, decide_True by done. done.
  - by rewrite bool_decide_eq_true_2 by done.
Qed.

Lemma schemaToTable_primary_key_witness :
  optionOf account so_id ≠ Some false ∧
  col_name <$> primaryKeys (schemaToTable account accountSchemas
                              (resolveOptions None)) = ["id"].
Proof.
  split; [done|].
  destruct (schemaToTable_primary_key account accountSchemas
              (resolveOptions None)) as [Hid _].
  destruct Hid as [-> _]; done.
Defined.

Lemma addProperty_foreignKeys schema allSchemas sqlDialect acc entry :
  foreignKeysInv (toTableName (sch_name schema)) acc →
  foreignKeysInv (toTableName (sch_name schema))
    (addProperty schema allSchemas sqlDialect acc entry).
Proof.
  destruct acc as [[columns fks] idxs], entry as [propName property].
  unfold foreignKeysInv. simpl. intros Hinv.
  assert (∀ columns' idxs',
             Forall
               (λ fk, ∃ c,
                   fk_columns fk = [c] ∧ fk_referencesColumns fk = ["id"]
                   ∧ fk_name fk
                     = "fk_" +:+ toTableName (sch_name schema) +:+ "_" +:+ c
                   ∧ c ∈ col_name <$> (columns ++ columns')
                   ∧ plainIndex
                       ("idx_" +:+ toTableName (sch_name schema) +:+ "_" +:+ c)
                       [c] false ∈ idxs ++ idxs') fks) as Hmono.
  { intros columns' idxs'. eapply Forall_impl; [exact Hinv|].
    intros fk (c & ? & ? & ? & ? & ?). exists c. split_and!; try done.
    - rewrite fmap_app. apply elem_of_app. by left.
    - apply elem_of_app. by left. }
  unfold addProperty.
  destruct (propertyToColumn _ _ _ _) as [column|] eqn:Hcol.
  { simpl. destruct (col_unique column).
    - apply Hmono.
    - specialize (Hmono [column] []). by rewrite app_nil_r in Hmono. }
  destruct (generateForeignKey _ _ _ _ _) as [[column fk]|] eqn:Hfk.
  { apply generateForeignKey_plain in Hfk as (_ & Hc & Hid & Hname).
    simpl. apply Forall_app. split; [apply Hmono|].
    constructor; [|constructor]. exists (col_name column).
    split_and!; try done.
    - rewrite fmap_app. apply elem_of_app. right. simpl. left.
    - apply elem_of_app. right. left. }
  destruct (generatePolymorphicColumns _ _ _ _) as [[morph index]|].
  { simpl. apply Hmono. }
  case_decide; simpl.
  - specialize (Hmono (generateCoordinatesColumns propName property sqlDialect) []).
    by rewrite app_nil_r in Hmono.
  - specialize (Hmono [] []). by rewrite !app_nil_r in Hmono.
Qed.

Lemma addProperty_references schema allSchemas sqlDialect acc entry :
  fk_referencesTable <$> (addProperty schema allSchemas sqlDialect acc entry).1.2
  = (fk_referencesTable <$> acc.1.2)
    ++ match dependencyOf entry.2 with
       | Some target => [toTableName target]
       | None => []
       end.
Proof.
  destruct acc as [[columns fks] idxs], entry as [propName property].
  unfold addProperty. simpl.
  pose proof (generateForeignKey_dependency propName property schema sqlDialect
                allSchemas) as Hdep.
  destruct (propertyToColumn _ _ _ _) as [column|] eqn:Hcol.
  { simpl. unfold propertyToColumn in Hcol. unfold dependencyOf.
    case_decide as Ht; [done|].
    rewrite bool_decide_eq_false_2 by done. simpl. by rewrite app_nil_r. }
  destruct (generateForeignKey _ _ _ _ _) as [[column fk]|].
  { destruct Hdep as (target & -> & Href). simpl.
    by rewrite fmap_app, <- Href. }
  rewrite Hdep. repeat case_match; simpl; by rewrite app_nil_r.
Qed.

(** The foreign keys of a table are those of the schema's ManyToOne and
    OneToOne associations, in declaration order, each to the table of its
    target; every one is on a single column of the table, refers to the
    column [id] and comes with a plain index on its column. *)
Theorem schemaToTable_foreign_keys schema allSchemas options :
  let table := schemaToTable schema allSchemas options in
  fk_referencesTable <$> tbl_foreignKeys table
  = toTableName <$> omap (λ entry, dependencyOf entry.2) (propertiesOf schema) ∧
  Forall
    (λ fk, ∃ c,
        fk_columns fk = [c] ∧
        fk_referencesColumns fk = ["id"] ∧
        fk_name fk = "fk_" +:+ tbl_name table +:+ "_" +:+ c ∧
        c ∈ col_name <$> tbl_columns table ∧
        plainIndex ("idx_" +:+ tbl_name table +:+ "_" +:+ c) [c] false
        ∈ tbl_indexes table)
    (tbl_foreignKeys table).
Proof.
  intros table. unfold table. rewrite schemaToTable_name.
  unfold schemaToTable.
  match goal with
  | |- context [fold_left ?f ?l ?init] =>
      pose proof (fold_left_inv f
                    (foreignKeysInv (toTableName (sch_name schema))) l init)
        as Hinv;
      pose proof (fold_left_prefix f
                    (λ pre acc,
                       fk_referencesTable <$> acc.1.2
                       = toTableName <$> omap (λ entry, dependencyOf entry.2) pre)
                    l init) as Hrefs
  end.
  destruct (fold_left _ _ _) as [[columns fks] idxs]. simpl. split.
  - apply Hrefs; [done|]. intros pre x s Hs.
    rewrite addProperty_references, Hs, omap_app, fmap_app. f_equal.
    simpl. by destruct (dependencyOf x.2).
  - unfold foreignKeysInv in Hinv. simpl in Hinv.
    eapply Forall_impl; [apply Hinv|].
    + constructor.
    + intros s x _. apply addProperty_foreignKeys.
    + intros fk (c & ? & ? & ? & Hc & Hi). exists c. split_and!; try done.
      * rewrite list_elem_of_fmap in Hc. destruct Hc as (col & -> & Hcol).
        apply list_elem_of_fmap. exists col. split; [done|].
        repeat case_match; set_solver.
      * repeat case_match; set_solver.
Qed.

Lemma schemaToTable_foreign_keys_witness :
  fk_referencesTable
    <$> tbl_foreignKeys (schemaToTable account accountSchemas (resolveOptions None))
  = ["users"] ∧
  fk_columns
    <$> tbl_foreignKeys (schemaToTable account accountSchemas (resolveOptions None))
  = [["owner_id"]].
Proof.
  destruct (schemaToTable_foreign_keys account accountSchemas (resolveOptions None))
    as [Hrefs _].
  split; [by rewrite Hrefs|reflexivity].
Defined.

Lemma includes_join_after (sep : string) (l : list string) (y x : string) :
  x ∈ l → Str.includes (Str.join sep (y :: l)) (sep +:+ x) = true.
Proof.
  revert y. induction l as [|x' l IH]; intros y Hx.
  - by apply elem_of_nil in Hx.
  - rewrite join_cons2. apply includes_app_r.
    apply elem_of_cons in Hx as [->|Hx].
    + destruct l as [|z l].
      * unfold Str.join. simpl. apply includes_refl.
      * rewrite join_cons2, <- sapp_assoc. apply includes_app_l, includes_refl.
    + apply includes_app_r. by apply IH.
Qed.

Lemma formatColumn_unique column sqlDialect :
  col_unique column = true → col_primaryKey column = false →
  Str.includes (formatColumn column sqlDialect) " UNIQUE" = true.
Proof.
  intros Hu Hpk. unfold formatColumn. rewrite Hu, Hpk.
  change (true && negb false) with true. cbv zeta iota.
  repeat match goal with
         | |- context [if ?b then _ else _] => destruct b
         | |- context [match ?o with Some _ => _ | None => _ end] => destruct o
         | |- context [match ?d with mysql => _ | _ => _ end] => destruct d
         end;
    cbn [app]; apply (includes_join_after " "), list_elem_of_In; simpl;
    repeat first [left; reflexivity | right].
Qed.

Lemma addProperty_keeps_indexes schema allSchemas sqlDialect acc entry i :
  i ∈ acc.2 → i ∈ (addProperty schema allSchemas sqlDialect acc entry).2.
Proof.
  destruct acc as [[columns foreignKeys] indexes], entry as [propName property].
  unfold addProperty. simpl. intros Hi.
  repeat case_match; simpl; try done; apply elem_of_app; by left.
Qed.

(** A scalar property declared unique gives a column whose definition
    carries UNIQUE and, besides, a unique index on that column named after
    the table and the column. *)
Theorem schemaToTable_unique_property schema allSchemas options name property :
  (name, property) ∈ propertiesOf schema →
  p_type property ≠ "Association" → p_type property ≠ "Coordinates" →
  p_unique property = Some true →
  let table := schemaToTable schema allSchemas options in
  ∃ column,
    column ∈ tbl_columns table ∧
    col_name column = toColumnName name ∧
    Str.includes (formatColumn column (dialect options)) " UNIQUE" = true ∧
    {| idx_name := "idx_" +:+ tbl_name table +:+ "_" +:+ toColumnName name
                   +:+ "_unique";
       idx_columns := [toColumnName name];
       idx_unique := true;
       idx_type := None |} ∈ tbl_indexes table.
Proof.
  intros Hentry Hassoc Hcoord Hunique table.
  destruct (propertyToColumn name property (dialect options) allSchemas)
    as [column|] eqn:Hcol; last first.
  { unfold propertyToColumn in Hcol.
    repeat case_decide; try done; repeat case_match; done. }
  pose proof (propertyToColumn_plain _ _ _ _ _ Hcol) as (Hname & Hpk & Hu & _).
  rewrite Hunique in Hu. simpl in Hu.
  exists column. unfold table. rewrite schemaToTable_name.
  split_and!; [|done|by apply formatColumn_unique|].
  - apply schemaToTable_columns.
    apply (fold_left_reach _ (λ acc, column ∈ acc.1.1) _ (name, property));
      [done| |by intros; apply addProperty_keeps_columns].
    intros [[columns fks] idxs]. unfold addProperty. rewrite Hcol. simpl.
    set_solver.
  - unfold schemaToTable.
    match goal with
    | |- context [fold_left ?f ?l ?init] =>
        pose proof (fold_left_reach f
                      (λ acc,
                         {| idx_name :=
                              "idx_" +:+ toTableName (sch_name schema) +:+ "_"
                              +:+ toColumnName name +:+ "_unique";
                            idx_columns := [toColumnName name];
                            idx_unique := true;
                            idx_type := None |} ∈ acc.2)
                      l (name, property) init Hentry) as Hreach
    end.
    destruct (fold_left _ _ _) as [[columns fks] idxs]. simpl in *.
    assert ({| idx_name :=
                 "idx_" +:+ toTableName (sch_name schema) +:+ "_"
                 +:+ toColumnName name +:+ "_unique";
               idx_columns := [toColumnName name];
               idx_unique := true;
               idx_type := None |} ∈ idxs) as Hin.
    { apply Hreach.
      - intros [[columns' fks'] idxs']. unfold addProperty.
        rewrite Hcol, Hu, Hname. simpl. set_solver.
      - intros s y. apply addProperty_keeps_indexes. }
    repeat case_match; set_solver.
Qed.

Lemma schemaToTable_unique_property_witness :
  ∃ column,
    column ∈ tbl_columns (schemaToTable account accountSchemas (resolveOptions None)) ∧
    col_name column = "email" ∧
    Str.includes (formatColumn column mysql) " UNIQUE" = true ∧
    "idx_accounts_email_unique"
    ∈ idx_name <$> tbl_indexes (schemaToTable account accountSchemas
                                   (resolveOptions None)).
Proof.
  destruct (schemaToTable_unique_property account accountSchemas
              (resolveOptions None) "email"
              {| p_type := "Email"; p_nullable := None; p_unique := Some true;
                 p_default := None; p_displayName := None; p_length := None;
                 p_precision := None; p_scale := None; p_enum := None;
                 p_options := None; p_relation := None; p_target := None;
                 p_targets := None; p_onDelete := None; p_onUpdate := None;
                 p_joinTable := None |})
    as (column & Hin & Hname & Hfmt & Hidx); [left|done|done|done|].
  exists column. split_and!; [done|done|done|].
  apply list_elem_of_fmap. eexists. split; [|exact Hidx]. reflexivity.
Defined.

(** ** The type catalog *)

(** Under SQLite every property type that the catalog knows, or that it
    does not know and that names no member of [Object.prototype], maps to
    one of the three storage classes TEXT, INTEGER and REAL, whatever
    length, precision or scale it carries. *)
Theorem getSqlType_sqlite omnifyType length precision scale :
  omnifyType ∉ prototypeMembers →
  getSqlType omnifyType sqlite length precision scale
  ∈ ["TEXT"; "INTEGER"; "REAL"].
Proof.
  intros Hplain. unfold getSqlType, member, DIALECT_TYPES, SQLITE_TYPES.
  simpl.
  repeat (case_decide; [simpl; set_solver|]).
  rewrite bool_decide_eq_false_2 by done. simpl. set_solver.
Qed.

Lemma getSqlType_sqlite_witness :
  ("Decimal" ∉ prototypeMembers) ∧ ("Money" ∉ prototypeMembers) ∧
  getSqlType "Decimal" sqlite None (Some 10) (Some 2) = "REAL" ∧
  getSqlType "Money" sqlite None None None ∈ ["TEXT"; "INTEGER"; "REAL"].
Proof.
  split; [compute_done|]. split; [compute_done|]. split; [reflexivity|].
  apply (getSqlType_sqlite "Money" None None None). compute_done.
Defined.

(** The column of a foreign key has the type of the primary key that it
    refers to (for the serial keys of PostgreSQL, the integer type of the
    same width), and under MySQL it is unsigned exactly when that key is an
    integer. *)
Theorem foreign_key_type_matches_primary_key
    name property schema sqlDialect allSchemas column fk target targetSchema :
  generateForeignKey name property schema sqlDialect allSchemas
  = Some (column, fk) →
  p_target property = Some target →
  assoc target allSchemas = Some targetSchema →
  let id :=
    generatePrimaryKey (orElse (optionOf targetSchema so_idType) BigInt)
      sqlDialect in
  col_type column = referencingType (col_type id) ∧
  (col_unsigned column = true ↔
   Str.includes (col_type id) "UNSIGNED" = true) ∧
  fk_referencesTable fk = toTableName target.
Proof.
  intros Hfk Htarget Hassoc. unfold generateForeignKey in Hfk.
  rewrite Htarget in Hfk.
  repeat match type of Hfk with
         | (if ?b then _ else _) = _ => destruct b; [done|]
         end.
  cbv zeta in Hfk. simpl orElse in Hfk.
  apply member_Own in Hassoc. rewrite Hassoc in Hfk.
  simplify_eq. simpl. split_and!; [| |done].
  all: unfold optIdType, optionOf.
  all: destruct (sch_options targetSchema) as [o|]; simpl;
    [destruct (so_idType o) as [[]|]; simpl|];
    destruct sqlDialect; by vm_compute.
Qed.

Lemma foreign_key_type_matches_primary_key_witness :
  ∃ column fk,
    generateForeignKey "owner" (Examples.association "ManyToOne" "User")
      account postgresql accountSchemas = Some (column, fk) ∧
    col_type (generatePrimaryKey BigInt postgresql) = "BIGSERIAL" ∧
    col_type column = "BIGINT".
Proof.
  eexists _, _. split; [reflexivity|]. split; [reflexivity|].
  edestruct (foreign_key_type_matches_primary_key
               "owner" (Examples.association "ManyToOne" "User")
               account postgresql accountSchemas) as (Htype & _ & _);
    [reflexivity|reflexivity|reflexivity|].
  by rewrite Htype.
Defined.

(** ** The formatter *)

(** An index of type fulltext, spatial or hash (or, under PostgreSQL, gin
    or gist) is rendered without regard to its uniqueness: UNIQUE is only
    written for an index without such a type. *)
Theorem formatIndex_typed_ignores_unique index tableName sqlDialect unique :
  renderedByType sqlDialect (idx_type index) →
  formatIndex (withUnique index unique) tableName sqlDialect
  = formatIndex index tableName sqlDialect.
Proof.
  unfold renderedByType, formatIndex. simpl.
  intros [->|[->|[->|[-> [->| ->]]]]]; reflexivity.
Qed.

Lemma formatIndex_typed_ignores_unique_witness :
  renderedByType sqlite (Some "hash") ∧
  formatIndex {| idx_name := "idx_users_email"; idx_columns := ["email"];
                 idx_unique := true; idx_type := Some "hash" |} "users" sqlite
  = formatIndex {| idx_name := "idx_users_email"; idx_columns := ["email"];
                   idx_unique := false; idx_type := Some "hash" |} "users" sqlite.
Proof.
  split; [right; right; by left|].
  symmetry.
  apply (formatIndex_typed_ignores_unique
           {| idx_name := "idx_users_email"; idx_columns := ["email"];
              idx_unique := false; idx_type := Some "hash" |}
           "users" sqlite true).
  right; right; by left.
Defined.

(** The SQL text of an artifact has the definition of every column and
    every foreign key of its table and the statement of every index. *)
Theorem generateCreateTableSql_is_complete table resolved :
  let content := generateCreateTableSql table resolved in
  (∀ column, column ∈ tbl_columns table →
     Str.includes content ("  " +:+ formatColumn column (dialect resolved)) = true) ∧
  (∀ fk, fk ∈ tbl_foreignKeys table →
     Str.includes content ("  " +:+ formatForeignKey fk (dialect resolved)) = true) ∧
  (∀ index, index ∈ tbl_indexes table →
     Str.includes content (formatIndex index (tbl_name table) (dialect resolved))
     = true).
Proof.
  intros content.
  assert (Str.includes content
            (formatCreateTable table (dialect resolved) (ifNotExists resolved))
          = true) as Hcreate.
  { unfold content, generateCreateTableSql. cbv zeta.
    apply includes_join.
    repeat match goal with
           | |- context [if ?b then _ else _] => destruct b
           end; set_solver. }
  assert (∀ line,
             line ∈ map (λ column, "  " +:+ formatColumn column (dialect resolved))
                      (tbl_columns table)
                    ++ map (λ fk, "  " +:+ formatForeignKey fk (dialect resolved))
                         (tbl_foreignKeys table) →
             Str.includes content line = true) as Hline.
  { intros line Hin. eapply includes_trans; [exact Hcreate|].
    unfold formatCreateTable. cbv zeta.
    repeat first
      [ solve [apply includes_app_r, includes_join, Hin]
      | match goal with
        | |- Str.includes (if ?b then _ else _) _ = _ => destruct b
        end
      | apply includes_app_l ]. }
  split_and!.
  - intros column Hc. apply Hline, elem_of_app. left.
    apply list_elem_of_In.
    apply (in_map (λ column, "  " +:+ formatColumn column (dialect resolved))).
    by apply list_elem_of_In.
  - intros fk Hf. apply Hline, elem_of_app. right.
    apply list_elem_of_In.
    apply (in_map (λ fk, "  " +:+ formatForeignKey fk (dialect resolved))).
    by apply list_elem_of_In.
  - intros index Hi. unfold content, generateCreateTableSql. cbv zeta.
    assert (formatIndex index (tbl_name table) (dialect resolved)
            ∈ formatIndexes table (dialect resolved)) as Hin
        by (apply list_elem_of_In;
            apply (in_map (λ index,
                     formatIndex index (tbl_name table) (dialect resolved)));
            by apply list_elem_of_In).
    apply includes_join.
    destruct (formatIndexes table (dialect resolved)) as [|x l] eqn:Hx;
      [by apply elem_of_nil in Hin|].
    change (0 <? length (x :: l))%nat with true. cbv iota.
    repeat match goal with
           | |- context [if ?b then _ else _] => destruct b
           end.
    all: rewrite !elem_of_app.
    all: tauto.
Qed.

Lemma generateCreateTableSql_is_complete_witness :
  ∃ column,
    column ∈ tbl_columns (schemaToTable account accountSchemas (resolveOptions None)) ∧
    col_name column = "owner_id" ∧
    Str.includes
      (generateCreateTableSql
         (schemaToTable account accountSchemas (resolveOptions None))
         (resolveOptions None))
      ("  " +:+ formatColumn column mysql) = true.
Proof.
  destruct (generateCreateTableSql_is_complete
              (schemaToTable account accountSchemas (resolveOptions None))
              (resolveOptions None)) as (Hcols & _ & _).
  eexists. split; [right; right; left|]. split; [reflexivity|].
  apply Hcols. right; right; left.
Defined.

(** ** String literals *)

Lemma doubleQuotes_cons c s :
  Str.doubleQuotes (String c s) =
  if bool_decide (c = "'"%char)
  then String "'"%char (String "'"%char (Str.doubleQuotes s))
  else String c (Str.doubleQuotes s).
Proof. reflexivity. Qed.

(** In a quoted string every quote of the value is doubled, so that no
    quote inside the literal stands alone; and different values are quoted
    differently. *)
Theorem quoteString_escapes (value : string) :
  (∃ body, quoteString value = "'" +:+ body +:+ "'" ∧ quotesPaired body) ∧
  ∀ value', quoteString value = quoteString value' → value = value'.
Proof.
  split.
  - exists (Str.doubleQuotes value). split; [done|].
    induction value as [|c s IH]; [constructor|].
    rewrite doubleQuotes_cons. case_bool_decide; by constructor.
  - intros value' Heq. unfold quoteString in Heq.
    assert (Str.doubleQuotes value = Str.doubleQuotes value') as Hbody.
    { assert (∀ a b, a +:+ "'" = b +:+ "'" → a = b) as Hinj.
      { induction a as [|x a IH]; intros [|y b] Hab; try done.
        - rewrite sapp_cons in Hab. simplify_eq. by destruct b.
        - rewrite sapp_cons in Hab. simplify_eq. by destruct a.
        - rewrite !sapp_cons in Hab. simplify_eq. f_equal. by apply IH. }
      apply Hinj. rewrite !sapp_cons, !sapp_nil_l in Heq. by simplify_eq. }
    clear Heq. revert value' Hbody.
    induction value as [|c s IH]; intros [|d t] Hbody; try done.
    + rewrite doubleQuotes_cons in Hbody. by case_bool_decide.
    + rewrite doubleQuotes_cons in Hbody. by case_bool_decide.
    + rewrite !doubleQuotes_cons in Hbody.
      repeat case_bool_decide; simplify_eq; try done; f_equal; by apply IH.
Qed.

(** ** File names *)

Lemma sapp_cancel_r (a b c : string) : a +:+ c = b +:+ c → a = b.
Proof.
  revert b. induction a as [|x a IH]; intros [|y b] Heq; [done| | |].
  - apply (f_equal String.length) in Heq.
    rewrite sapp_nil_l, sapp_cons in Heq. simpl in Heq.
    rewrite length_sapp in Heq. lia.
  - apply (f_equal String.length) in Heq.
    rewrite sapp_nil_l, sapp_cons in Heq. simpl in Heq.
    rewrite length_sapp in Heq. lia.
  - rewrite !sapp_cons in Heq. simplify_eq. f_equal. by apply IH.
Qed.

Lemma uint_of_zeros (k : nat) (s : string) :
  NilEmpty.uint_of_string (zeros k +:+ s)
  = Nat.iter k Decimal.D0 <$> NilEmpty.uint_of_string s.
Proof.
  induction k as [|k IH].
  - change (zeros 0) with EmptyString. rewrite sapp_nil_l.
    by destruct (NilEmpty.uint_of_string s).
  - change (zeros (S k)) with (String "0" (zeros k)). rewrite sapp_cons.
    simpl. rewrite IH. by destruct (NilEmpty.uint_of_string s).
Qed.

Lemma of_uint_zeros (k : nat) (d : Decimal.uint) :
  Z.of_uint (Nat.iter k Decimal.D0 d) = Z.of_uint d.
Proof. induction k as [|k IH]; [done|]. simpl. exact IH. Qed.

Lemma ofZ_digits (v : Z) :
  0 ≤ v ≤ safeBound →
  ∃ d, Str.ofZ v = NilEmpty.string_of_uint d ∧ Z.of_uint d = v.
Proof.
  intros Hv. rewrite ofZ_decimal by lia.
  destruct v as [|p|p]; [by exists (Decimal.D0 Decimal.Nil)| |lia].
  pose proof (DecimalZ.of_to (Z.pos p)) as Hp. simpl in Hp.
  exists (Pos.to_uint p). split; [|exact Hp].
  unfold Str.decimal. simpl. unfold NilZero.string_of_uint.
  destruct (Pos.to_uint p); try done.
Qed.

(** The version at the head of a file name is a string of digits that
    denotes the version. *)
Lemma formatVersion_number (v padding : Z) :
  0 ≤ v ≤ safeBound →
  ∃ d, NilEmpty.uint_of_string (formatVersion v padding) = Some d ∧
       Z.of_uint d = v.
Proof.
  intros Hv. destruct (ofZ_digits v Hv) as (d & Hd & Hval).
  unfold formatVersion. rewrite padStart_zeros, uint_of_zeros, Hd.
  rewrite NilEmpty.usu. eexists. split; [done|].
  by rewrite of_uint_zeros.
Qed.

Lemma digits_split (a b x y : string) :
  is_Some (NilEmpty.uint_of_string a) →
  is_Some (NilEmpty.uint_of_string b) →
  a +:+ String "_" x = b +:+ String "_" y → a = b ∧ x = y.
Proof.
  revert b. induction a as [|c a IH]; intros [|d b] Ha Hb Heq.
  - rewrite !sapp_nil_l in Heq. by simplify_eq.
  - rewrite sapp_nil_l, sapp_cons in Heq. simplify_eq.
    simpl in Hb. destruct (NilEmpty.uint_of_string b); by destruct Hb.
  - rewrite sapp_nil_l, sapp_cons in Heq. simplify_eq.
    simpl in Ha. destruct (NilEmpty.uint_of_string a); by destruct Ha.
  - rewrite !sapp_cons in Heq. simplify_eq.
    simpl in Ha, Hb.
    destruct (IH b) as [-> ->]; [| |done|done].
    + destruct (NilEmpty.uint_of_string a); [done|by destruct Ha].
    + destruct (NilEmpty.uint_of_string b); [done|by destruct Hb].
Qed.

Lemma generateFileName_determines v v' name name' padding padding' :
  0 ≤ v ≤ safeBound → 0 ≤ v' ≤ safeBound →
  generateFileName v name padding = generateFileName v' name' padding' →
  v = v' ∧ name = name'.
Proof.
  intros Hv Hv' Heq. unfold generateFileName in Heq. cbv zeta in Heq.
  destruct (formatVersion_number v padding Hv) as (d & Hd & Hval).
  destruct (formatVersion_number v' padding' Hv') as (d' & Hd' & Hval').
  change ("_" +:+ name +:+ ".sql") with (String "_" (name +:+ ".sql")) in Heq.
  change ("_" +:+ name' +:+ ".sql") with (String "_" (name' +:+ ".sql")) in Heq.
  apply digits_split in Heq as [Hversion Hname]; [|by rewrite Hd|by rewrite Hd'].
  split; [|by apply sapp_cancel_r in Hname].
  rewrite Hversion in Hd. congruence.
Qed.

Lemma fileNames_NoDup schemas options migs :
  0 ≤ startVersion (resolveOptions options) →
  startVersion (resolveOptions options) + Z.of_nat (length migs) ≤ safeBound →
  generateMigrations schemas options = Some (Ok migs) →
  NoDup (mig_fileName <$> migs).
Proof.
  intros Hlow Hhigh Hrun. apply NoDup_alt. intros i j name Hi Hj.
  apply list_lookup_fmap_Some in Hi as (mi & -> & Hi).
  apply list_lookup_fmap_Some in Hj as (mj & Hname & Hj).
  apply lookup_lt_Some in Hi as Hilt. apply lookup_lt_Some in Hj as Hjlt.
  destruct (generateMigrations_counted _ _ _ _ _ Hrun Hi) as [Hvi Hfi].
  destruct (generateMigrations_counted _ _ _ _ _ Hrun Hj) as [Hvj Hfj].
  unfold safeBound in *.
  rewrite versionAt_exact in Hvi, Hvj by (unfold safeBound; lia).
  rewrite Hfi, Hfj in Hname.
  apply generateFileName_determines in Hname as [Hv _];
    unfold safeBound; lia.
Qed.

(** While the versions stay between 0 and 2^53, no two artifacts of a run
    have the same file name, even when two of them are named alike: a file
    name names one version and one artifact name. *)
Theorem file_names_are_distinct schemas options migs :
  0 ≤ startVersion (resolveOptions options) →
  startVersion (resolveOptions options) + Z.of_nat (length migs) ≤ safeBound →
  generateMigrations schemas options = Some (Ok migs) →
  NoDup (mig_fileName <$> migs) ∧
  ∀ m version name padding,
    m ∈ migs → 0 ≤ version ≤ safeBound →
    mig_fileName m = generateFileName version name padding →
    mig_version m = version ∧ mig_name m = name.
Proof.
  intros Hlow Hhigh Hrun.
  split; [by eapply fileNames_NoDup|].
  intros m version name padding [i Hi]%list_elem_of_lookup Hversion Hname.
  apply lookup_lt_Some in Hi as Hlt.
  destruct (generateMigrations_counted _ _ _ _ _ Hrun Hi) as [Hv Hf].
  rewrite versionAt_exact in Hv by (unfold safeBound in *; lia).
  rewrite Hf in Hname.
  apply generateFileName_determines in Hname; [done| |done].
  unfold safeBound in *. lia.
Qed.

Lemma file_names_are_distinct_witness :
  0 ≤ startVersion (resolveOptions fromTen) ∧
  startVersion (resolveOptions fromTen) + Z.of_nat (length blogFromTen)
  ≤ safeBound ∧
  NoDup (mig_fileName <$> blogFromTen).
Proof.
  split; [by vm_compute|]. split; [by vm_compute|].
  apply (file_names_are_distinct Examples.blog fromTen blogFromTen);
    by vm_compute.
Defined.

(** ** The plugin *)

Lemma plugin_resolves_alike options :
  resolveOptions (Some (Plugin.generatorOptions (Plugin.resolveOptions options)))
  = resolveOptions (sameOptions options).
Proof. by destruct options as [[]|]. Qed.

(** The plugin fills in the defaults of the generator: it fails where the
    generator fails on the same options, in the same way and with the same
    message, and otherwise returns one output per artifact, in order, with
    the content of the artifact and the path made of the migrations
    directory ([migrations] unless set) and the file name; these paths are
    pairwise distinct while the versions stay between 0 and 2^53. *)
Theorem plugin_generate_follows_generator options schemas :
  let directory :=
    orElse (Plugin.pluginField options Plugin.po_migrationsPath) "migrations" in
  (∀ message,
      generateMigrations schemas (sameOptions options) = Some (Throw message) ↔
      Plugin.generate options schemas = Some (Throw message)) ∧
  (generateMigrations schemas (sameOptions options) = Some TypeError ↔
   Plugin.generate options schemas = Some TypeError) ∧
  (∀ migs,
      generateMigrations schemas (sameOptions options) = Some (Ok migs) →
      ∃ outputs,
        Plugin.generate options schemas = Some (Ok outputs) ∧
        Plugin.out_content <$> outputs = mig_content <$> migs ∧
        Plugin.meta_version <$> outputs = mig_version <$> migs ∧
        Plugin.meta_tables <$> outputs = mig_tables <$> migs ∧
        Plugin.out_path <$> outputs
        = (λ m, directory +:+ "/" +:+ mig_fileName m) <$> migs ∧
        (0 ≤ startVersion (resolveOptions (sameOptions options)) →
         startVersion (resolveOptions (sameOptions options))
         + Z.of_nat (length migs) ≤ safeBound →
         NoDup (Plugin.out_path <$> outputs))).
Proof.
  intros directory.
  pose proof (resolveOptions_only _ _ schemas (plugin_resolves_alike options))
    as Hsame.
  unfold Plugin.generate. cbv zeta. rewrite Hsame. split_and!.
  - intros message.
    destruct (generateMigrations schemas (sameOptions options)) as [[| |]|];
      naive_solver.
  - destruct (generateMigrations schemas (sameOptions options)) as [[| |]|];
      naive_solver.
  - intros migs Hrun. rewrite Hrun. eexists. split; [done|].
    rewrite <- !list_fmap_compose. split_and!; try done.
    intros Hlow Hhigh.
    pose proof (fileNames_NoDup _ _ _ Hlow Hhigh Hrun) as Hnames.
    rewrite (list_fmap_compose mig_fileName
               (λ name, directory +:+ "/" +:+ name)).
    apply NoDup_fmap_2; [|done].
    intros a b Hab. clear -Hab.
    induction directory as [|c directory IH].
    + rewrite !sapp_nil_l in Hab. by simplify_eq.
    + rewrite !sapp_cons in Hab. simplify_eq. by apply IH.
Qed.

Lemma plugin_generate_follows_generator_witness :
  ∃ outputs,
    Plugin.generate None Examples.blog = Some (Ok outputs) ∧
    Plugin.out_path <$> outputs
    = ["migrations/0001_create_users.sql"; "migrations/0002_create_posts.sql";
       "migrations/0003_create_comments.sql"] ∧
    NoDup (Plugin.out_path <$> outputs).
Proof.
  destruct (plugin_generate_follows_generator None Examples.blog) as (_ & _ & Hok).
  destruct (Hok blogMigrations) as (outputs & Hgen & _ & _ & _ & Hpaths & Hnodup).
  { by vm_compute. }
  exists outputs. split; [done|]. split; [by rewrite Hpaths|].
  apply Hnodup; by vm_compute.
Defined.

(** ** Comments *)

Lemma formatColumn_sqlite_comment column :
  formatColumn (withoutComment column) sqlite = formatColumn column sqlite.
Proof.
  unfold formatColumn. simpl.
  by rewrite !andb_false_r.
Qed.

(** Under SQLite comments never reach the SQL text: a table gives the same
    text as the table without its comment and the comments of its columns. *)
Theorem sqlite_drops_comments table resolved :
  dialect resolved = sqlite →
  generateCreateTableSql (withoutComments table) resolved
  = generateCreateTableSql table resolved.
Proof.
  intros Hsqlite. unfold generateCreateTableSql. cbv zeta. rewrite Hsqlite.
  assert (formatCreateTable (withoutComments table) sqlite (ifNotExists resolved)
          = formatCreateTable table sqlite (ifNotExists resolved)) as ->.
  { unfold formatCreateTable. cbv zeta. simpl.
    rewrite !andb_false_r.
    assert (map (λ column, "  " +:+ formatColumn column sqlite)
              (withoutComment <$> tbl_columns table)
            = map (λ column, "  " +:+ formatColumn column sqlite)
                (tbl_columns table)) as ->; [|done].
    induction (tbl_columns table) as [|c l IH]; [done|].
    rewrite fmap_cons. cbn [map]. by rewrite formatColumn_sqlite_comment, IH. }
  done.
Qed.

Lemma sqlite_drops_comments_witness :
  generateCreateTableSql (withoutComments commentedTable)
    (resolveOptions (Examples.forDialect sqlite))
  = generateCreateTableSql commentedTable
      (resolveOptions (Examples.forDialect sqlite)) ∧
  generateCreateTableSql (withoutComments commentedTable)
    (resolveOptions (Examples.forDialect postgresql))
  ≠ generateCreateTableSql commentedTable
      (resolveOptions (Examples.forDialect postgresql)).
Proof.
  split; [|by vm_compute].
  apply (sqlite_drops_comments commentedTable). reflexivity.
Defined.
